(** * RSA (mhef/RSA, main.go): a shallow embedding and its properties

    The Go program works on [int64] values, on Go strings (byte sequences)
    and on two bytes at a time read from the kernel's random source.  The
    embedding below keeps those: an [int64] is a [Z] whose arithmetic wraps
    around at 64 bits, a string is a list of bytes ([ascii]), the random
    source is a tape of byte pairs.  A Go function that may panic, recurse
    for ever or loop for ever returns an [outcome]; recursion and loops are
    driven by a [fuel] argument and every statement "the function returns v"
    is proved with the fuel that suffices. *)

From Stdlib Require Import ZArith Znumtheory List Bool Ascii Lia Permutation FinFun.
From Stdlib Require String.
Import ListNotations String.StringSyntax.

Local Open Scope Z_scope.

(** ** Outcomes of a Go call *)

Inductive fatal : Type :=
  | DivideByZero          (* runtime error: integer divide by zero *)
  | IndexOutOfRange       (* runtime error: index out of range *)
  | BadBlockLength.       (* panic("Mensagem codificada não está com os blocos no tamanho correto.") *)

Inductive outcome (A : Type) : Type :=
  | Done (a : A)          (* the call returns a *)
  | Abort (f : fatal)     (* the call panics *)
  | OutOfFuel.            (* the call has not returned within the fuel given *)

Arguments Done {A} a.
Arguments Abort {A} f.
Arguments OutOfFuel {A}.

Definition bind {A B : Type} (m : outcome A) (k : A -> outcome B) : outcome B :=
  match m with
  | Done a => k a
  | Abort f => Abort f
  | OutOfFuel => OutOfFuel
  end.

Notation "x <- m ;; k" := (bind m (fun x => k))
  (at level 61, m at next level, right associativity).
Notation "' pat <- m ;; k" := (bind m (fun x => match x with pat => k end))
  (at level 61, pat pattern, m at next level, right associativity).

(** ** int64 arithmetic *)

Definition minInt64 : Z := - 2 ^ 63.
Definition maxInt64 : Z := 2 ^ 63 - 1.

Definition int64 (z : Z) : Prop := minInt64 <= z <= maxInt64.

Definition wrap64 (z : Z) : Z := (z + 2 ^ 63) mod 2 ^ 64 - 2 ^ 63.

Definition add64 (a b : Z) : Z := wrap64 (a + b).
Definition sub64 (a b : Z) : Z := wrap64 (a - b).
Definition mul64 (a b : Z) : Z := wrap64 (a * b).

(* Go's [/] and [%] truncate towards zero and panic on a zero divisor. *)
Definition div64 (a b : Z) : outcome Z :=
  if b =? 0 then Abort DivideByZero else Done (wrap64 (Z.quot a b)).

Definition rem64 (a b : Z) : outcome Z :=
  if b =? 0 then Abort DivideByZero else Done (Z.rem a b).

(** ** ModularArithmetic *)

(* func mod(a int64, b int64) int64 *)
(* [mod] is a reserved token of Rocq's arithmetic notations, hence [mod_]. *)
Definition mod_ (a b : Z) : outcome Z :=
  r <- rem64 a b ;;
  if ((r <? 0) && (b >? 0)) || ((r >? 0) && (b <? 0))
  then Done (add64 r b)
  else Done r.

(* func modpow(a, b, n int64) int64 *)
Fixpoint modpow (fuel : nat) (a b n : Z) : outcome Z :=
  match fuel with
  | O => OutOfFuel
  | S fuel' =>
      if b =? 1 then Done a
      else
        h <- div64 b 2 ;;
        y <- modpow fuel' a h n ;;
        x <- mod_ y n ;;
        parity <- rem64 b 2 ;;
        if parity =? 0 then mod_ (mul64 x x) n
        else
          m <- mod_ (mul64 x x) n ;;
          mod_ (mul64 m a) n
  end.

(* func mdc(a, b int64) int64 *)
Fixpoint mdc (fuel : nat) (a b : Z) : outcome Z :=
  match fuel with
  | O => OutOfFuel
  | S fuel' =>
      if b =? 0 then Done a
      else
        r <- mod_ a b ;;
        mdc fuel' b r
  end.

(* The six variables of the loop of mdcExtended. *)
Record bezout : Type := mkBezout {
  oldR : Z; curR : Z;
  oldS : Z; curS : Z;
  oldT : Z; curT : Z
}.

Fixpoint mdcExtended_loop (fuel : nat) (st : bezout) : outcome (Z * Z) :=
  match fuel with
  | O => OutOfFuel
  | S fuel' =>
      if curR st =? 0 then Done (oldS st, oldT st)
      else
        quotient <- div64 (oldR st) (curR st) ;;
        mdcExtended_loop fuel'
          (mkBezout (curR st) (sub64 (oldR st) (mul64 quotient (curR st)))
                    (curS st) (sub64 (oldS st) (mul64 quotient (curS st)))
                    (curT st) (sub64 (oldT st) (mul64 quotient (curT st))))
  end.

(* func mdcExtended(a, b int64) (c1 int64, c2 int64) *)
Definition mdcExtended (fuel : nat) (a b : Z) : outcome (Z * Z) :=
  mdcExtended_loop fuel (mkBezout a b 1 0 0 1).

(** ** PrimalityOracle *)

(* The loop of isPrime, from witness [a] on. *)
Fixpoint isPrime_loop (fuel : nat) (a n : Z) : outcome bool :=
  match fuel with
  | O => OutOfFuel
  | S fuel' =>
      if a <? 1000000 then
        g <- mdc fuel' a n ;;
        if g =? 1 then
          r <- modpow fuel' a (sub64 n 1) n ;;
          if negb (r =? 1) then Done false
          else isPrime_loop fuel' (add64 a 1) n
        else isPrime_loop fuel' (add64 a 1) n
      else Done true
  end.

(* func isPrime(n int64) bool *)
Definition isPrime (fuel : nat) (n : Z) : outcome bool :=
  isPrime_loop fuel 1 n.

(** ** KeyGenerator *)

(* A Go byte. *)
Definition byte_val (c : ascii) : Z := Z.of_N (N_of_ascii c).

(* What rand.Read leaves in the two-byte slice, call after call. *)
Definition tape : Type := list (ascii * ascii).

(* uint16(randomByte[0]) | (uint16(randomByte[1]) << 8), then int64(..) *)
Definition uint16_of (b0 b1 : ascii) : Z :=
  Z.lor (byte_val b0) (Z.shiftl (byte_val b1) 8 mod 2 ^ 16).

(* func generateRandomPrime() int64; a tape that ends before a prime is
   drawn leaves the loop running. *)
Fixpoint generateRandomPrime (fuel : nat) (rnd : tape) : outcome (Z * tape) :=
  match rnd with
  | [] => OutOfFuel
  | (b0, b1) :: rnd' =>
      let p := uint16_of b0 b1 in
      if p >? 54772 then generateRandomPrime fuel rnd'
      else
        ok <- isPrime fuel p ;;
        if ok then Done (p, rnd') else generateRandomPrime fuel rnd'
  end.

(* func generateE(phi int64) int64 *)
Fixpoint generateE (fuel : nat) (phi : Z) (rnd : tape) : outcome (Z * tape) :=
  match rnd with
  | [] => OutOfFuel
  | (b0, b1) :: rnd' =>
      let e := uint16_of b0 b1 in
      g <- mdc fuel e phi ;;
      if g =? 1 then Done (e, rnd') else generateE fuel phi rnd'
  end.

(* The private exponent from the first Bezout coefficient:
   if s < 0 { d = s + phi } else { d = s } *)
Definition privateExponent (fuel : nat) (e phi : Z) : outcome Z :=
  ' (s, _) <- mdcExtended fuel e phi ;;
  if s <? 0 then Done (add64 s phi) else Done s.

(* The run of genereateRSAKeys, keeping the two numbers drawn. *)
Definition genereateRSAKeys_run (fuel : nat) (rnd : tape)
  : outcome (Z * Z * (Z * Z * Z)) :=
  ' (p, rnd1) <- generateRandomPrime fuel rnd ;;
  ' (q, rnd2) <- generateRandomPrime fuel rnd1 ;;
  let n := mul64 p q in
  let phi := mul64 (sub64 p 1) (sub64 q 1) in
  ' (e, _) <- generateE fuel phi rnd2 ;;
  d <- privateExponent fuel e phi ;;
  Done (p, q, (n, e, d)).

(* func genereateRSAKeys() (n, e, d int64) *)
Definition genereateRSAKeys (fuel : nat) (rnd : tape) : outcome (Z * Z * Z) :=
  r <- genereateRSAKeys_run fuel rnd ;; Done (snd r).

(** ** KeyRecovery *)

(* The scan of findPrivateKey from candidate i downwards; p and q keep
   their zero value when no divisor is met. *)
Fixpoint findPrivateKey_scan (fuel : nat) (n i : Z) : outcome (Z * Z) :=
  match fuel with
  | O => OutOfFuel
  | S fuel' =>
      if i >=? 2 then
        r <- rem64 n i ;;
        if r =? 0 then
          q <- div64 n i ;;
          Done (i, q)
        else findPrivateKey_scan fuel' n (sub64 i 1)
      else Done (0, 0)
  end.

(* func findPrivateKey(n, e int64) int64 *)
Definition findPrivateKey (fuel : nat) (n e : Z) : outcome Z :=
  ' (p, q) <- findPrivateKey_scan fuel n (sub64 n 1) ;;
  let phi := mul64 (sub64 p 1) (sub64 q 1) in
  privateExponent fuel e phi.

(** ** Go strings and the library calls of BlockCodec *)

(* A Go string is its bytes. *)
Definition gostring : Type := list ascii.

Definition len {A : Type} (s : list A) : Z := Z.of_nat (length s).

(* byte(z) *)
Definition ascii_of_Z (z : Z) : ascii := ascii_of_N (Z.to_N (z mod 256)).

Definition lit (s : String.string) : gostring := String.list_ascii_of_string s.
Arguments lit s%_string_scope.

(* utf8.RuneError *)
Definition RuneError : Z := 65533.

(* string(r) for a rune or a byte r: its UTF-8 encoding. *)
Definition string_of_rune (r : Z) : gostring :=
  let r := if (r <? 0) || (1114111 <? r) || ((55296 <=? r) && (r <=? 57343))
           then RuneError else r in
  if r <? 128 then [ascii_of_Z r]
  else if r <? 2048 then
    [ascii_of_Z (Z.lor 192 (Z.shiftr r 6));
     ascii_of_Z (Z.lor 128 (Z.land r 63))]
  else if r <? 65536 then
    [ascii_of_Z (Z.lor 224 (Z.shiftr r 12));
     ascii_of_Z (Z.lor 128 (Z.land (Z.shiftr r 6) 63));
     ascii_of_Z (Z.lor 128 (Z.land r 63))]
  else
    [ascii_of_Z (Z.lor 240 (Z.shiftr r 18));
     ascii_of_Z (Z.lor 128 (Z.land (Z.shiftr r 12) 63));
     ascii_of_Z (Z.lor 128 (Z.land (Z.shiftr r 6) 63));
     ascii_of_Z (Z.lor 128 (Z.land r 63))].

(* The size of the sequence a leading byte announces and the range its
   second byte must lie in (utf8's [first] and [acceptRanges]). *)
Definition utf8_first (s0 : Z) : option (nat * Z * Z) :=
  if (s0 <? 194) || (244 <? s0) then None
  else if s0 <? 224 then Some (2%nat, 128, 191)
  else if s0 =? 224 then Some (3%nat, 160, 191)
  else if s0 =? 237 then Some (3%nat, 128, 159)
  else if s0 <? 240 then Some (3%nat, 128, 191)
  else if s0 =? 240 then Some (4%nat, 144, 191)
  else if s0 =? 244 then Some (4%nat, 128, 143)
  else Some (4%nat, 128, 191).

Definition utf8_cont (b : Z) : bool := (128 <=? b) && (b <=? 191).

(* The rune at the head of a string and its width, as [range] decodes it. *)
Definition decodeRune (s : gostring) : Z * nat :=
  match map byte_val s with
  | [] => (RuneError, 0%nat)
  | s0 :: rest =>
      if s0 <? 128 then (s0, 1%nat)
      else
        match utf8_first s0 with
        | None => (RuneError, 1%nat)
        | Some (sz, lo, hi) =>
            match rest with
            | s1 :: rest1 =>
                if (s1 <? lo) || (hi <? s1) then (RuneError, 1%nat)
                else if (sz <=? 2)%nat then
                  (Z.lor (Z.shiftl (Z.land s0 31) 6) (Z.land s1 63), 2%nat)
                else
                  match rest1 with
                  | s2 :: rest2 =>
                      if negb (utf8_cont s2) then (RuneError, 1%nat)
                      else if (sz <=? 3)%nat then
                        (Z.lor (Z.lor (Z.shiftl (Z.land s0 15) 12)
                                      (Z.shiftl (Z.land s1 63) 6))
                               (Z.land s2 63), 3%nat)
                      else
                        match rest2 with
                        | s3 :: _ =>
                            if negb (utf8_cont s3) then (RuneError, 1%nat)
                            else
                              (Z.lor (Z.lor (Z.lor (Z.shiftl (Z.land s0 7) 18)
                                                   (Z.shiftl (Z.land s1 63) 12))
                                            (Z.shiftl (Z.land s2 63) 6))
                                     (Z.land s3 63), 4%nat)
                        | [] => (RuneError, 1%nat)
                        end
                  | [] => (RuneError, 1%nat)
                  end
            | [] => (RuneError, 1%nat)
            end
        end
  end.

(* for _, c := range msg: the runes of msg in order.  Each turn consumes at
   least one byte, so the length of msg is fuel enough. *)
Fixpoint runes_from (fuel : nat) (s : gostring) : list Z :=
  match fuel, s with
  | _, [] => []
  | O, _ => []
  | S fuel', _ =>
      let (r, w) := decodeRune s in
      r :: runes_from fuel' (skipn w s)
  end.

Definition runes (s : gostring) : list Z := runes_from (length s) s.

Fixpoint hasPrefix (s prefix : gostring) : bool :=
  match prefix, s with
  | [], _ => true
  | _ :: _, [] => false
  | c :: prefix', d :: s' => Ascii.eqb c d && hasPrefix s' prefix'
  end.

Fixpoint Index_from (i : Z) (s substr : gostring) : Z :=
  if hasPrefix s substr then i
  else match s with
       | [] => -1
       | _ :: s' => Index_from (i + 1) s' substr
       end.

(* strings.Index *)
Definition Index (s substr : gostring) : Z := Index_from 0 s substr.

(* strings.Replace(msg, " ", "", -1) *)
Definition removeSpaces (s : gostring) : gostring :=
  filter (fun c => negb (Ascii.eqb c " ")) s.

Definition digit_val (c : ascii) : option Z :=
  let v := byte_val c in
  if (48 <=? v) && (v <=? 57) then Some (v - 48) else None.

(* What strconv.ParseUint(s, 10, 64) finds, reading from the left. *)
Inductive parsed : Type :=
  | Value (u : Z)
  | SyntaxError
  | RangeError.

Fixpoint parseUint (acc : Z) (s : gostring) : parsed :=
  match s with
  | [] => Value acc
  | c :: s' =>
      match digit_val c with
      | None => SyntaxError
      | Some d =>
          if acc * 10 + d >? 2 ^ 64 - 1 then RangeError
          else parseUint (acc * 10 + d) s'
      end
  end.

(* The value strconv.Atoi returns, its error dropped as the callers do:
   0 on a syntax error, the nearest int64 on a range error. *)
Definition Atoi (s : gostring) : Z :=
  match s with
  | [] => 0
  | c :: rest =>
      let neg := Ascii.eqb c "-" in
      let body := if neg || Ascii.eqb c "+" then rest else s in
      match body with
      | [] => 0
      | _ :: _ =>
          match parseUint 0 body with
          | SyntaxError => 0
          | RangeError => if neg then minInt64 else maxInt64
          | Value u =>
              if neg then (if u >? 2 ^ 63 then minInt64 else - u)
              else (if u >=? 2 ^ 63 then maxInt64 else u)
          end
      end
  end.

Definition digitChar (d : Z) : ascii := ascii_of_Z (48 + d).

(* The w low decimal digits of u, most significant first. *)
Fixpoint digits_w (w : nat) (u : Z) : gostring :=
  match w with
  | O => []
  | S w' => digits_w w' (u / 10) ++ [digitChar (u mod 10)]
  end.

Fixpoint numDigits_from (fuel : nat) (u : Z) : nat :=
  match fuel with
  | O => 1
  | S fuel' => if u <? 10 then 1%nat else S (numDigits_from fuel' (u / 10))
  end.

(* The number of decimal digits of a uint64: at most 20. *)
Definition numDigits (u : Z) : nat := numDigits_from 20 u.

(* fmt's fmtInteger in base 10: the digits of |v|, zeros up to prec, the
   sign. *)
Definition fmtInteger (prec : nat) (v : Z) : gostring :=
  let u := Z.abs v in
  let body := digits_w (Nat.max prec (numDigits u)) u in
  if v <? 0 then "-"%char :: body else body.

(* fmt.Sprintf("%d", v) *)
Definition Sprintf_d (v : Z) : gostring := fmtInteger 0 v.

(* fmt.Sprintf("%0*d", w, v) and fmt.Sprintf("%02d", v): the width counts
   the sign. *)
Definition Sprintf_0d (w : nat) (v : Z) : gostring :=
  fmtInteger (if v <? 0 then Nat.pred w else w) v.

(** ** BlockCodec *)

(* The loop of blockSize. *)
Fixpoint blockSize_loop (fuel : nat) (n : Z) (blockI : gostring) : outcome gostring :=
  match fuel with
  | O => OutOfFuel
  | S fuel' =>
      let bi := Atoi (blockI ++ lit "25") in
      if bi >? n then Done blockI
      else blockSize_loop fuel' n (blockI ++ lit "25")
  end.

(* func blockSize(n int64) int *)
Definition blockSize (fuel : nat) (n : Z) : outcome Z :=
  blockI <- blockSize_loop fuel n [] ;;
  Done (len blockI).

(* func countDigits(n int64) int *)
Definition countDigits (n : Z) : Z := len (Sprintf_d n).

Definition alphabet : gostring := lit "ABCDEFGHIJKLMNOPQRSTUVWXYZ".

(* strings.Index(alphabet, string(c)) *)
Definition letterDigit (c : Z) : Z := Index alphabet (string_of_rune c).

(* The first loop of encodeMessage: ms. *)
Definition letterCodes (msg : gostring) : list gostring :=
  map (fun c => Sprintf_0d 2 (letterDigit c)) (runes msg).

(* for j := 0; j < bSize/2; j++ { ... }, [count] turns left. *)
Fixpoint block_loop (count : nat) (i j : Z) (ms : list gostring) (block : gostring)
  : gostring :=
  match count with
  | O => block
  | S count' =>
      block_loop count' i (j + 1) ms
        (block ++ (if i + j <? len ms then nth (Z.to_nat (i + j)) ms []
                   else lit "23"))
  end.

(* for i := 0; i < len(ms); i += bSize / 2 { ... } *)
Fixpoint blocks_loop (fuel : nat) (half i : Z) (ms blocks : list gostring)
  : outcome (list gostring) :=
  match fuel with
  | O => OutOfFuel
  | S fuel' =>
      if i <? len ms then
        blocks_loop fuel' half (add64 i half) ms
          (blocks ++ [block_loop (Z.to_nat half) i 0 ms []])
      else Done blocks
  end.

(* The loops "for _, b := range ..." that fill cblocks and blocks: one
   modpow and one Sprintf per block, in order. *)
Fixpoint crypt_blocks (fuel : nat) (n k : Z) (w : nat) (bs : list gostring)
  : outcome (list gostring) :=
  match bs with
  | [] => Done []
  | b :: bs' =>
      c <- modpow fuel (Atoi b) k n ;;
      rest <- crypt_blocks fuel n k w bs' ;;
      Done (Sprintf_0d w c :: rest)
  end.

(* func encodeMessage(n, e int64, msg string) string *)
Definition encodeMessage (fuel : nat) (n e : Z) (msg : gostring) : outcome gostring :=
  let ms := letterCodes msg in
  bSize <- blockSize fuel n ;;
  blocks <- blocks_loop fuel (Z.quot bSize 2) 0 ms [] ;;
  cblocks <- crypt_blocks fuel n e (Z.to_nat (countDigits n)) blocks ;;
  Done (concat (map (fun cb => cb ++ lit " ") cblocks)).

(* for j := 0; j < cbSize; j++ { ... }, [count] turns left. *)
Fixpoint chunk_loop (count : nat) (i j : Z) (msg block : gostring) : outcome gostring :=
  match count with
  | O => Done block
  | S count' =>
      if i + j >=? len msg then Abort BadBlockLength
      else
        chunk_loop count' i (j + 1) msg
          (block ++ string_of_rune (byte_val (nth (Z.to_nat (i + j)) msg zero)))
  end.

(* for i := 0; i < len(msg); i += cbSize { ... } *)
Fixpoint chunks_loop (fuel : nat) (cbSize i : Z) (msg : gostring)
         (cBlocks : list gostring) : outcome (list gostring) :=
  match fuel with
  | O => OutOfFuel
  | S fuel' =>
      if i <? len msg then
        block <- chunk_loop (Z.to_nat cbSize) i 0 msg [] ;;
        chunks_loop fuel' cbSize (add64 i cbSize) msg (cBlocks ++ [block])
      else Done cBlocks
  end.

(* for i := 0; i < len(b); i += 2 { ... }: the letters of one block, read
   two bytes at a time. *)
Fixpoint block_letters (b : gostring) : outcome gostring :=
  match b with
  | [] => Done []
  | [_] => Abort IndexOutOfRange
  | c0 :: c1 :: b' =>
      let letter := string_of_rune (byte_val c0) ++ string_of_rune (byte_val c1) in
      let letterint := Atoi letter in
      if (letterint <? 0) || (len alphabet <=? letterint) then Abort IndexOutOfRange
      else
        rest <- block_letters b' ;;
        Done (string_of_rune (byte_val (nth (Z.to_nat letterint) alphabet zero)) ++ rest)
  end.

Fixpoint blocks_letters (blocks : list gostring) : outcome gostring :=
  match blocks with
  | [] => Done []
  | b :: blocks' =>
      s <- block_letters b ;;
      rest <- blocks_letters blocks' ;;
      Done (s ++ rest)
  end.

(* func decodeMessage(n, d int64, msg string) string *)
Definition decodeMessage (fuel : nat) (n d : Z) (msg : gostring) : outcome gostring :=
  let msg := removeSpaces msg in
  let cbSize := countDigits n in
  cBlocks <- chunks_loop fuel cbSize 0 msg [] ;;
  bSize <- blockSize fuel n ;;
  blocks <- crypt_blocks fuel n d (Z.to_nat bSize) cBlocks ;;
  blocks_letters blocks.

(** * Vocabulary of the properties *)

(* The largest modulus whose residues can be squared in an int64:
   3037000499 ^ 2 <= 2^63 - 1 < 3037000500 ^ 2. *)
Definition modpowLimit : Z := 3037000500.

(* What the loop of mdcExtended keeps true: both remainders are
   combinations of a and b, the coefficients alternate in sign
   (sg is the sign of oldS) and their cross products are b and a. *)
Definition bezout_inv (a b : Z) (st : bezout) : Prop :=
  0 <= oldR st <= Z.max a b /\ 0 <= curR st <= Z.max a b /\
  oldR st = a * oldS st + b * oldT st /\
  curR st = a * curS st + b * curT st /\
  Z.gcd (oldR st) (curR st) = Z.gcd a b /\
  (- Z.max b 1 <= oldS st <= Z.max b 1) /\
  (- Z.max a 1 <= oldT st <= Z.max a 1) /\
  (- Z.max b 1 <= curS st <= Z.max b 1) /\
  (- Z.max a 1 <= curT st <= Z.max a 1) /\
  exists sg : Z,
    (sg = 1 \/ sg = -1) /\
    0 <= sg * oldS st /\ sg * curS st <= 0 /\
    0 <= - sg * oldT st /\ - sg * curT st <= 0 /\
    sg * (curR st * oldS st - oldR st * curS st) = b /\
    - sg * (curR st * oldT st - oldR st * curT st) = a.

Definition fuel_monotone {A : Type} (f : nat -> outcome A) : Prop :=
  forall (n m : nat) (r : outcome A),
    (n <= m)%nat -> f n = r -> r <> OutOfFuel -> f m = r.

Definition zprod (l : list Z) : Z := fold_right Z.mul 1 l.

(* The residues 1 .. p-1. *)
Definition residues (p : Z) : list Z := map Z.of_nat (seq 1 (Z.to_nat (p - 1))).

(* Witness a passes the test of isPrime on n. *)
Definition fermat_passb (n a : Z) : bool :=
  negb (Z.gcd a n =? 1) || (a ^ (n - 1) mod n =? 1).

(* The k witnesses from a on all pass. *)
Fixpoint all_pass (k : nat) (a n : Z) : bool :=
  match k with
  | O => true
  | S k' => fermat_passb n a && all_pass k' (a + 1) n
  end.

(* Whether every residue of n passes the test, decided by running modpow
   itself: enough to know the verdict of isPrime on a given n. *)
Definition residues_pass (n : Z) : bool :=
  forallb (fun r =>
             negb (Z.gcd (Z.of_nat r) n =? 1)
             || match modpow 64 (Z.of_nat r) (n - 1) n with
                | Done v => v =? 1
                | _ => false
                end)
          (seq 0 (Z.to_nat n)).

(* Trial division, to know the small primes used as examples. *)
Definition trial_division (p : Z) : bool :=
  (1 <? p) &&
  forallb (fun k => negb (p mod Z.of_nat k =? 0)) (seq 2 (Z.to_nat p - 2)).

(* The string blockI after k turns of the loop, and its value. *)
Fixpoint all25 (k : nat) : gostring :=
  match k with
  | O => []
  | S k' => all25 k' ++ lit "25"
  end.

Fixpoint full25 (k : nat) : Z :=
  match k with
  | O => 0
  | S k' => full25 k' * 100 + 25
  end.

Definition isUpper (c : ascii) : Prop := 65 <= byte_val c <= 90.

Definition isDigit (c : ascii) : Prop := 48 <= byte_val c <= 57.

(* The index of a letter, and the letter of an index. *)
Definition code (c : ascii) : Z := byte_val c - 65.
Definition letter (k : Z) : ascii := nth (Z.to_nat k) alphabet zero.

(* The block string of a list of codes and its value. *)
Definition pairs (codes : list Z) : gostring := concat (map (digits_w 2) codes).

Fixpoint block_value (codes : list Z) : Z :=
  match codes with
  | [] => 0
  | c :: codes' => c * 100 ^ len codes' + block_value codes'
  end.

Definition isCode (c : Z) : Prop := 0 <= c <= 25.

(* The codes of one block: the next ones of the message, then X's. *)
Fixpoint take_pad (count : nat) (l : list Z) : list Z :=
  match count with
  | O => []
  | S count' =>
      match l with
      | [] => 23 :: take_pad count' []
      | x :: l' => x :: take_pad count' l'
      end
  end.

(* The blocks of a message, as lists of codes. *)
Fixpoint windows (fuel h : nat) (l : list Z) : list (list Z) :=
  match fuel with
  | O => []
  | S fuel' =>
      match l with
      | [] => []
      | _ :: _ => take_pad h l :: windows fuel' h (skipn h l)
      end
  end.

(* A message held in memory: its length is within a 48-bit address space, far
   from the end of the int range, so that the index arithmetic of the loops
   does not wrap. *)
Definition inMemory {A : Type} (s : list A) : Prop := len s <= 2 ^ 48.

(* block += string(msg[i+j]), byte after byte. *)
Definition chunk_text (l : gostring) : gostring :=
  concat (map (fun c => string_of_rune (byte_val c)) l).

(* The chunks of cb bytes of a string; None when the last one is short. *)
Fixpoint split_chunks (fuel cb : nat) (l : gostring) : option (list gostring) :=
  match fuel with
  | O => Some []
  | S fuel' =>
      match l with
      | [] => Some []
      | _ :: _ =>
          if (length l <? cb)%nat then None
          else option_map (cons (chunk_text (firstn cb l)))
                          (split_chunks fuel' cb (skipn cb l))
      end
  end.

(* The encoded block of a list of codes. *)
Definition enc_block (n e : Z) (cb : nat) (w : list Z) : gostring :=
  digits_w cb (block_value w ^ e mod n).

Definition isBlock (h : nat) (w : list Z) : Prop := length w = h /\ Forall isCode w.

(* What the loop of mdcExtended keeps true on arguments of either sign,
   where the coefficients may wrap around: the remainders are the
   combinations of a and b as int64 arithmetic computes them. *)
Definition bezout_wrap_inv (a b : Z) (st : bezout) : Prop :=
  int64 (oldR st) /\ int64 (curR st) /\
  int64 (oldS st) /\ int64 (oldT st) /\
  int64 (curS st) /\ int64 (curT st) /\
  wrap64 (a * oldS st + b * oldT st) = oldR st /\
  wrap64 (a * curS st + b * curT st) = curR st /\
  Z.gcd (oldR st) (curR st) = Z.gcd a b.

(* The value modpow returns, when it returns one. *)
Definition modpow_value (a b n : Z) : Z :=
  match modpow (Z.to_nat b) a b n with
  | Done v => v
  | _ => 0
  end.

(* The ciphertext of a message of letters cut in blocks of h letters. *)
Definition cipher_text (n e : Z) (h : nat) (msg : gostring) : gostring :=
  concat (map (fun w => Sprintf_0d (Z.to_nat (countDigits n))
                                   (modpow_value (block_value w) e n) ++ lit " ")
              (windows (length msg) h (map code msg))).

(* A draw that generateRandomPrime passes over: above the cap, or refused
   by isPrime (2, or a number with a witness against it). *)
Definition passed_over (v : Z) : Prop :=
  54772 < v \/ v = 2 \/
  (3 <= v /\ exists a, 1 <= a < 1000000 /\ Z.gcd a v = 1 /\ a ^ (v - 1) mod v <> 1).

(* The number of a draw. *)
Definition draw (d : ascii * ascii) : Z := uint16_of (fst d) (snd d).

(** * Properties *)

(** ** int64 arithmetic without overflow *)

Ltac int64_lia :=
  unfold int64, minInt64, maxInt64 in *;
  change (2 ^ 63) with 9223372036854775808 in *; lia.

Lemma int64_bounds (z : Z) :
  int64 z <-> -9223372036854775808 <= z <= 9223372036854775807.
Proof.
  unfold int64, minInt64, maxInt64.
  change (2 ^ 63) with 9223372036854775808. split; intros; lia.
Qed.

Lemma wrap64_id (z : Z) : int64 z -> wrap64 z = z.
Proof.
  intros H. apply -> int64_bounds in H. unfold wrap64.
  change (2 ^ 63) with 9223372036854775808.
  change (2 ^ 64) with 18446744073709551616.
  rewrite Z.mod_small; lia.
Qed.

Lemma wrap64_int64 (z : Z) : int64 (wrap64 z).
Proof.
  apply <- int64_bounds. unfold wrap64.
  change (2 ^ 63) with 9223372036854775808.
  change (2 ^ 64) with 18446744073709551616.
  pose proof (Z.mod_pos_bound (z + 9223372036854775808) 18446744073709551616).
  lia.
Qed.

(* For a positive modulus the Go function computes Rocq's [mod]. *)
Lemma mod_pos (a b : Z) : 0 < b -> int64 b -> mod_ a b = Done (a mod b).
Proof.
  intros Hb Hi. apply -> int64_bounds in Hi.
  unfold mod_, rem64. destruct (Z.eqb_spec b 0) as [->|_]; [lia|]. simpl.
  pose proof (Z.mod_pos_bound a b Hb) as Hm.
  destruct (Z.le_gt_cases 0 a) as [Ha|Ha].
  - rewrite Z.rem_mod_nonneg by lia.
    replace ((a mod b <? 0) && (b >? 0) || (a mod b >? 0) && (b <? 0)) with false.
    + reflexivity.
    + symmetry. apply orb_false_iff. split; apply andb_false_iff; lia.
  - pose proof (Z.rem_bound_pos_neg a b Hb ltac:(lia)) as Hr.
    pose proof (Z.quot_rem' a b) as Hq.
    assert (Hcase : Z.rem a b = 0 \/ Z.rem a b < 0) by lia.
    destruct Hcase as [H0|Hneg].
    + rewrite H0. simpl.
      f_equal. apply Z.mod_unique with (q := Z.quot a b); lia.
    + replace ((Z.rem a b <? 0) && (b >? 0) || (Z.rem a b >? 0) && (b <? 0)) with true.
      * unfold add64. rewrite wrap64_id by (apply <- int64_bounds; lia).
        f_equal. apply Z.mod_unique with (q := Z.quot a b - 1); nia.
      * symmetry. apply orb_true_iff. left. apply andb_true_iff. lia.
Qed.

Lemma div64_nonneg (a b : Z) :
  0 <= a -> 0 < b -> int64 a -> div64 a b = Done (a / b).
Proof.
  intros Ha Hb Hi. apply -> int64_bounds in Hi. unfold div64.
  destruct (Z.eqb_spec b 0) as [->|_]; [lia|].
  rewrite Z.quot_div_nonneg by lia.
  rewrite wrap64_id; [reflexivity|].
  apply <- int64_bounds.
  pose proof (Z.div_pos a b Ha Hb).
  pose proof (Z.div_le_upper_bound a b a Hb ltac:(nia)). lia.
Qed.

Lemma rem64_nonneg (a b : Z) : 0 <= a -> 0 < b -> rem64 a b = Done (a mod b).
Proof.
  intros Ha Hb. unfold rem64. destruct (Z.eqb_spec b 0) as [->|_]; [lia|].
  now rewrite Z.rem_mod_nonneg by lia.
Qed.

(** ** modpow *)

Lemma square_fits (n x y : Z) :
  0 < n <= modpowLimit -> 0 <= x < n -> 0 <= y < n -> int64 (x * y).
Proof.
  unfold modpowLimit. intros Hn Hx Hy. apply <- int64_bounds.
  assert (x * y <= 3037000499 * 3037000499) by (apply Z.mul_le_mono_nonneg; lia).
  nia.
Qed.

(* modpow on a modulus within the limit: the unreduced base for exponent 1,
   a ^ b mod n for a larger exponent. *)
Lemma modpow_spec (fuel : nat) :
  forall a b n : Z,
    0 < n <= modpowLimit -> 0 <= a -> int64 (n * a) -> 1 <= b -> int64 b ->
    (Z.to_nat b <= fuel)%nat ->
    modpow fuel a b n = Done (if b =? 1 then a else a ^ b mod n).
Proof.
  induction fuel as [|fuel IH]; intros a b n Hn Ha Hna Hb Hbi Hfuel; [lia|].
  cbn [modpow]. destruct (Z.eqb_spec b 1) as [->|Hb1]; [reflexivity|].
  assert (Hn64 : int64 n) by (apply <- int64_bounds; unfold modpowLimit in Hn; lia).
  assert (Hh : 1 <= b / 2) by (apply Z.div_le_lower_bound; lia).
  assert (Hh2 : b / 2 < b) by (apply Z.div_lt; lia).
  rewrite div64_nonneg by (assumption || lia). cbn [bind].
  rewrite IH; try assumption; try lia.
  2:{ apply -> int64_bounds in Hbi. apply <- int64_bounds. lia. }
  cbn [bind].
  assert (Hx : (if b / 2 =? 1 then a else a ^ (b / 2) mod n) mod n = a ^ (b / 2) mod n).
  { destruct (Z.eqb_spec (b / 2) 1) as [->|_].
    - now rewrite Z.pow_1_r.
    - apply Z.mod_mod. lia. }
  rewrite mod_pos by (assumption || lia). cbn [bind]. rewrite Hx.
  set (x := a ^ (b / 2) mod n).
  assert (Hxr : 0 <= x < n) by (apply Z.mod_pos_bound; lia).
  rewrite rem64_nonneg by lia. cbn [bind].
  assert (Hxx : mul64 x x = x * x).
  { unfold mul64. apply wrap64_id. now apply square_fits with n. }
  rewrite Hxx.
  assert (Hsq : (x * x) mod n = a ^ (2 * (b / 2)) mod n).
  { unfold x. rewrite <- Z.mul_mod by lia.
    rewrite <- Z.pow_add_r by lia. f_equal. f_equal. lia. }
  pose proof (Z.div_mod b 2 ltac:(lia)) as Hdm.
  pose proof (Z.mod_pos_bound b 2 ltac:(lia)) as Hpar.
  destruct (Z.eqb_spec (b mod 2) 0) as [Hev|Hodd].
  - rewrite mod_pos by (assumption || lia). rewrite Hsq.
    replace (2 * (b / 2)) with b by lia. reflexivity.
  - rewrite mod_pos by (assumption || lia). cbn [bind]. rewrite Hsq.
    set (m := a ^ (2 * (b / 2)) mod n).
    assert (Hmr : 0 <= m < n) by (apply Z.mod_pos_bound; lia).
    assert (Hma : mul64 m a = m * a).
    { unfold mul64. apply wrap64_id. apply -> int64_bounds in Hna.
      apply <- int64_bounds. nia. }
    rewrite Hma, mod_pos by (assumption || lia).
    unfold m. rewrite Z.mul_mod_idemp_l by lia.
    assert (Hpow : a ^ b = a ^ (2 * (b / 2)) * a).
    { replace b with (2 * (b / 2) + 1) at 1 by lia.
      rewrite Z.pow_add_r, Z.pow_1_r by lia. reflexivity. }
    rewrite Hpow. reflexivity.
Qed.

(** ** mdc and mdcExtended on non-negative arguments *)

Lemma mdc_spec (fuel : nat) :
  forall a b : Z,
    0 <= a -> 0 <= b -> int64 b -> (Z.to_nat b < fuel)%nat ->
    mdc fuel a b = Done (Z.gcd a b).
Proof.
  induction fuel as [|fuel IH]; intros a b Ha Hb Hbi Hfuel; [lia|].
  cbn [mdc]. destruct (Z.eqb_spec b 0) as [->|Hb0].
  - rewrite Z.gcd_0_r, Z.abs_eq by lia. reflexivity.
  - rewrite mod_pos by (assumption || lia). cbn [bind].
    pose proof (Z.mod_pos_bound a b ltac:(lia)) as Hm.
    rewrite IH; try lia.
    + f_equal. rewrite Z.gcd_comm, Z.gcd_mod by lia. apply Z.gcd_comm.
    + apply -> int64_bounds in Hbi. apply <- int64_bounds. lia.
Qed.

Lemma cross_bound (r p x y c : Z) :
  1 <= r -> 0 <= p -> 0 <= x -> 0 <= y -> r * x + p * y = c -> x <= c.
Proof. intros. nia. Qed.

(* The quotient and the remainder of one turn of the loop. *)
Lemma step_quot (r0 r1 : Z) :
  0 <= r0 -> 0 < r1 ->
  0 <= r0 / r1 <= r0 /\ 0 <= r0 / r1 * r1 <= r0 /\
  r0 mod r1 = r0 - r0 / r1 * r1 /\ 0 <= r0 mod r1 < r1.
Proof.
  intros H0 H1.
  pose proof (Z.div_pos r0 r1 H0 H1).
  pose proof (Z.mod_pos_bound r0 r1 H1).
  pose proof (Z.mod_eq r0 r1 ltac:(lia)).
  pose proof (Z.mul_nonneg_nonneg (r0 / r1) r1).
  pose proof (Z.mul_le_mono_nonneg_l 1 r1 (r0 / r1)).
  repeat split; lia.
Qed.

(* The new coefficient of one turn of the loop: it has the sign opposite
   to the previous one and is bounded by the cross product [c]. *)
Lemma step_coef (sg q r1 r' s0 s1 c : Z) :
  sg = 1 \/ sg = -1 -> 0 <= q -> 1 <= r1 -> 0 <= r' ->
  0 <= sg * s0 -> sg * s1 <= 0 ->
  sg * (r1 * s0 - (r' + q * r1) * s1) = c ->
  0 <= sg * (s0 - q * s1) /\
  - c <= q * s1 <= c /\ - c <= s0 - q * s1 <= c /\
  - sg * (r' * s1 - r1 * (s0 - q * s1)) = c.
Proof.
  intros Hsg Hq Hr1 Hr' Hs0 Hs1 Hc.
  pose proof (Z.mul_nonneg_nonneg q (- sg * s1) Hq ltac:(lia)) as Hp.
  assert (HX : 0 <= sg * (s0 - q * s1)) by lia.
  assert (HB : sg * (s0 - q * s1) <= c).
  { apply cross_bound with (r := r1) (p := r') (y := - sg * s1); lia. }
  assert (Hid : - sg * (r' * s1 - r1 * (s0 - q * s1)) = c)
    by (rewrite <- Hc; ring).
  destruct Hsg; subst sg; repeat split; lia.
Qed.

Section Bezout.

Variables a b : Z.
Hypothesis Ha : 0 <= a.
Hypothesis Hb : 0 <= b.
Hypothesis Hai : int64 a.
Hypothesis Hbi : int64 b.

Lemma bezout_inv_init : bezout_inv a b (mkBezout a b 1 0 0 1).
Proof.
  unfold bezout_inv; simpl. repeat split; try lia.
  exists 1. lia.
Qed.

(* One turn of the loop, with no wrap-around, keeps the invariant. *)
Lemma bezout_inv_step (r0 r1 s0 s1 t0 t1 : Z) :
  bezout_inv a b (mkBezout r0 r1 s0 s1 t0 t1) -> r1 <> 0 ->
  let q := r0 / r1 in
  div64 r0 r1 = Done q /\
  sub64 r0 (mul64 q r1) = r0 mod r1 /\
  sub64 s0 (mul64 q s1) = s0 - q * s1 /\
  sub64 t0 (mul64 q t1) = t0 - q * t1 /\
  bezout_inv a b (mkBezout r1 (r0 mod r1) s1 (s0 - q * s1) t1 (t0 - q * t1)).
Proof.
  intros (Hr0 & Hr1 & Hc0 & Hc1 & Hg & Bs0 & Bt0 & Bs1 & Bt1 & sg & Hsg
          & Hs0 & Hs1 & Ht0 & Ht1 & Hxs & Hxt) Hnz q.
  simpl in *.
  apply -> int64_bounds in Hai. apply -> int64_bounds in Hbi.
  destruct (step_quot r0 r1 ltac:(lia) ltac:(lia)) as (Hq & Hqr & Hmod & Hm).
  fold q in Hq, Hqr, Hmod.
  destruct (step_coef sg q r1 (r0 mod r1) s0 s1 b) as (HXs & Hqs & Hns & Hids);
    try lia.
  destruct (step_coef (- sg) q r1 (r0 mod r1) t0 t1 a) as (HXt & Hqt & Hnt & Hidt);
    try lia.
  assert (HM : Z.max a b <= 9223372036854775807) by lia.
  repeat split.
  - apply div64_nonneg; try lia. apply <- int64_bounds. lia.
  - unfold sub64, mul64.
    rewrite (wrap64_id (q * r1)) by (apply <- int64_bounds; lia).
    rewrite wrap64_id by (apply <- int64_bounds; lia). lia.
  - unfold sub64, mul64.
    rewrite (wrap64_id (q * s1)) by (apply <- int64_bounds; lia).
    rewrite wrap64_id by (apply <- int64_bounds; lia). reflexivity.
  - unfold sub64, mul64.
    rewrite (wrap64_id (q * t1)) by (apply <- int64_bounds; lia).
    rewrite wrap64_id by (apply <- int64_bounds; lia). reflexivity.
  - simpl; lia.
  - simpl; lia.
  - simpl; lia.
  - simpl; lia.
  - simpl; lia.
  - simpl. rewrite Hmod, Hc0, Hc1. ring.
  - simpl. rewrite <- Hg, Z.gcd_comm, Z.gcd_mod by lia. apply Z.gcd_comm.
  - simpl. lia.
  - simpl. lia.
  - simpl. lia.
  - simpl. lia.
  - simpl. lia.
  - simpl. lia.
  - simpl. lia.
  - simpl. lia.
  - simpl. exists (- sg). repeat split; lia.
Qed.

Lemma mdcExtended_loop_spec (fuel : nat) :
  forall st : bezout,
    bezout_inv a b st -> (Z.to_nat (curR st) < fuel)%nat ->
    exists s t : Z,
      mdcExtended_loop fuel st = Done (s, t) /\
      a * s + b * t = Z.gcd a b /\
      (- Z.max b 1 <= s <= Z.max b 1) /\ (- Z.max a 1 <= t <= Z.max a 1).
Proof.
  induction fuel as [|fuel IH]; intros st Hinv Hfuel; [lia|].
  destruct st as [r0 r1 s0 s1 t0 t1].
  cbn [mdcExtended_loop curR oldR oldS oldT curS curT] in *.
  destruct (Z.eqb_spec r1 0) as [->|Hr1nz].
  - destruct Hinv as (Hr0 & Hr1 & Hc0 & Hc1 & Hg & Bs0 & Bt0 & _).
    simpl in *. exists s0, t0. repeat split; try lia.
    rewrite Z.gcd_0_r, Z.abs_eq in Hg by lia. lia.
  - destruct (bezout_inv_step _ _ _ _ _ _ Hinv Hr1nz)
      as (Hq & Er & Es & Et & Hinv').
    rewrite Hq. cbn [bind]. rewrite Er, Es, Et.
    apply IH; [exact Hinv'|].
    destruct Hinv as (_ & Hr1 & _). simpl in *.
    pose proof (Z.mod_pos_bound r0 r1 ltac:(lia)). lia.
Qed.

(* mdcExtended returns Bezout coefficients of gcd(a, b), bounded by the
   arguments. *)
Lemma mdcExtended_spec (fuel : nat) :
  (Z.to_nat b < fuel)%nat ->
  exists s t : Z,
    mdcExtended fuel a b = Done (s, t) /\
    a * s + b * t = Z.gcd a b /\
    (- Z.max b 1 <= s <= Z.max b 1) /\ (- Z.max a 1 <= t <= Z.max a 1).
Proof.
  intros Hfuel. unfold mdcExtended.
  apply mdcExtended_loop_spec; [apply bezout_inv_init | exact Hfuel].
Qed.

End Bezout.

(** ** More fuel never changes a result *)

Lemma bind_fuel {A B : Type} (x x' : outcome A) (k k' : A -> outcome B)
      (r : outcome B) :
  bind x k = r -> r <> OutOfFuel ->
  (x <> OutOfFuel -> x' = x) ->
  (forall a, x = Done a -> k a = r -> k' a = r) ->
  bind x' k' = r.
Proof.
  intros H Hr Hx Hk. destruct x as [a|f|]; simpl in H.
  - rewrite Hx by discriminate. simpl. now apply Hk.
  - rewrite Hx by discriminate. exact H.
  - congruence.
Qed.

Lemma fuel_monotone_done {A : Type} (f : nat -> outcome A) (n m : nat) (v w : A) :
  fuel_monotone f -> f n = Done v -> f m = Done w -> v = w.
Proof.
  intros Hf Hn Hm.
  assert (H1 : f (Nat.max n m) = Done v)
    by (apply (Hf n); [lia | exact Hn | discriminate]).
  assert (H2 : f (Nat.max n m) = Done w)
    by (apply (Hf m); [lia | exact Hm | discriminate]).
  congruence.
Qed.

Lemma modpow_fuel (a b n : Z) : fuel_monotone (fun fuel => modpow fuel a b n).
Proof.
  unfold fuel_monotone. intros k. revert a b n.
  induction k as [|k IH]; intros a b n m r Hle H Hr; [simpl in H; congruence|].
  destruct m as [|m]; [lia|]. cbn [modpow] in *.
  destruct (b =? 1); [exact H|].
  destruct (div64 b 2) as [h|f|]; cbn [bind] in *; try exact H.
  apply bind_fuel with (x := modpow k a h n) (k := fun y =>
    x <- mod_ y n ;; parity <- rem64 b 2 ;;
    if parity =? 0 then mod_ (mul64 x x) n
    else m0 <- mod_ (mul64 x x) n ;; mod_ (mul64 m0 a) n); auto.
  intros Hne. apply IH; [lia | reflexivity | exact Hne].
Qed.

Lemma mdc_fuel (a b : Z) : fuel_monotone (fun fuel => mdc fuel a b).
Proof.
  unfold fuel_monotone. intros k. revert a b.
  induction k as [|k IH]; intros a b m r Hle H Hr; [simpl in H; congruence|].
  destruct m as [|m]; [lia|]. cbn [mdc] in *.
  destruct (b =? 0); [exact H|].
  destruct (mod_ a b) as [x|f|]; cbn [bind] in *; try exact H.
  apply IH; [lia | exact H | exact Hr].
Qed.

Lemma mdcExtended_loop_fuel (st : bezout) :
  fuel_monotone (fun fuel => mdcExtended_loop fuel st).
Proof.
  unfold fuel_monotone. intros k. revert st.
  induction k as [|k IH]; intros st m r Hle H Hr; [simpl in H; congruence|].
  destruct m as [|m]; [lia|]. cbn [mdcExtended_loop] in *.
  destruct (curR st =? 0); [exact H|].
  destruct (div64 (oldR st) (curR st)) as [q|f|]; cbn [bind] in *; try exact H.
  apply IH; [lia | exact H | exact Hr].
Qed.

Lemma mdcExtended_fuel (a b : Z) : fuel_monotone (fun fuel => mdcExtended fuel a b).
Proof. unfold mdcExtended. apply mdcExtended_loop_fuel. Qed.

Lemma isPrime_loop_fuel (a n : Z) :
  fuel_monotone (fun fuel => isPrime_loop fuel a n).
Proof.
  unfold fuel_monotone. intros k. revert a.
  induction k as [|k IH]; intros a m r Hle H Hr; [simpl in H; congruence|].
  destruct m as [|m]; [lia|]. cbn [isPrime_loop] in *.
  destruct (a <? 1000000); [|exact H].
  apply bind_fuel with (x := mdc k a n) (k := fun g =>
    if g =? 1 then
      r0 <- modpow k a (sub64 n 1) n ;;
      if negb (r0 =? 1) then Done false else isPrime_loop k (add64 a 1) n
    else isPrime_loop k (add64 a 1) n); auto.
  - intros Hne. apply (mdc_fuel a n k m); [lia | reflexivity | exact Hne].
  - intros g _ Hg. destruct (g =? 1).
    + apply bind_fuel with (x := modpow k a (sub64 n 1) n) (k := fun r0 =>
        if negb (r0 =? 1) then Done false else isPrime_loop k (add64 a 1) n); auto.
      * intros Hne. apply (modpow_fuel a (sub64 n 1) n k m); [lia | reflexivity | exact Hne].
      * intros r0 _ Hr0. destruct (negb (r0 =? 1)); [exact Hr0|].
        apply IH; [lia | exact Hr0 | exact Hr].
    + apply IH; [lia | exact Hg | exact Hr].
Qed.

Lemma isPrime_fuel (n : Z) : fuel_monotone (fun fuel => isPrime fuel n).
Proof. unfold isPrime. apply isPrime_loop_fuel. Qed.

(** ** C3: modpow computes a ^ b mod n *)

(** C3, as stated, fails: the squaring [x * x] of modpow wraps around once
    the modulus exceeds 3037000500.  With n = 2^63 - 1, a = 2^32 and b = 2
    the code returns 0 whatever the fuel, while a ^ b mod n = 2. *)
Lemma modpow_overflow_counterexample :
  int64 4294967296 /\ int64 2 /\ int64 9223372036854775807 /\
  1 <= 9223372036854775807 /\ 0 <= 4294967296 < 9223372036854775807 /\ 1 <= 2 /\
  modpow 2 4294967296 2 9223372036854775807 = Done 0 /\
  4294967296 ^ 2 mod 9223372036854775807 = 2 /\
  (forall fuel v, modpow fuel 4294967296 2 9223372036854775807 = Done v -> v = 0).
Proof.
  assert (E : modpow 2 4294967296 2 9223372036854775807 = Done 0)
    by (vm_compute; reflexivity).
  split; [int64_lia|]. split; [int64_lia|]. split; [int64_lia|].
  split; [lia|]. split; [lia|]. split; [lia|]. split; [exact E|].
  split.
  - vm_compute; reflexivity.
  - intros fuel v Hv.
    apply (fuel_monotone_done _ _ _ _ _
             (modpow_fuel 4294967296 2 9223372036854775807) Hv E).
Qed.

(* modpow on a reduced base. *)
Lemma modpow_pow_mod (a b n : Z) (fuel : nat) :
  1 <= n <= modpowLimit -> 0 <= a < n -> 1 <= b -> int64 b ->
  (Z.to_nat b <= fuel)%nat ->
  modpow fuel a b n = Done (a ^ b mod n).
Proof.
  intros Hn Ha Hb Hbi Hfuel.
  rewrite modpow_spec; try lia; try assumption.
  - destruct (Z.eqb_spec b 1) as [->|_]; [|reflexivity].
    now rewrite Z.pow_1_r, Z.mod_small by lia.
  - apply <- int64_bounds. unfold modpowLimit in Hn.
    assert (0 <= n * a <= 3037000500 * 3037000499)
      by (split; [nia | apply Z.mul_le_mono_nonneg; lia]).
    lia.
Qed.

(** C3, amended: for every modulus 1 <= n <= 3037000500, every 0 <= a < n and
    every exponent b >= 1, modpow(a, b, n) returns a ^ b mod n; and
    modpow(65, 17, 3233) = 2790, modpow(2790, 2753, 3233) = 65. *)
Theorem modpow_correct :
  (forall a b n : Z,
      1 <= n <= modpowLimit -> 0 <= a < n -> 1 <= b -> int64 b ->
      forall fuel : nat, (Z.to_nat b <= fuel)%nat ->
        modpow fuel a b n = Done (a ^ b mod n)) /\
  modpow 20 65 17 3233 = Done 2790 /\
  modpow 20 2790 2753 3233 = Done 65.
Proof.
  split; [|split; vm_compute; reflexivity].
  intros a b n Hn Ha Hb Hbi fuel Hfuel. now apply modpow_pow_mod.
Qed.

Lemma modpow_correct_witness :
  modpow 17 65 17 3233 = Done (65 ^ 17 mod 3233).
Proof.
  apply (proj1 modpow_correct 65 17 3233).
  - unfold modpowLimit; lia.
  - lia.
  - lia.
  - apply <- int64_bounds; lia.
  - vm_compute. lia.
Defined.

(** ** C4: the coefficients of mdcExtended *)

(** C4, as stated, fails on a negative argument: mdcExtended(-7, 3) returns
    (1, 2) and -7 * 1 + 3 * 2 = -1, while gcd(-7, 3) = mdc(-7, 3) = 1. *)
Lemma mdcExtended_negative_counterexample :
  int64 (-7) /\ int64 3 /\
  mdcExtended 4 (-7) 3 = Done (1, 2) /\
  (-7) * 1 + 3 * 2 = -1 /\
  Z.gcd (-7) 3 = 1 /\ mdc 4 (-7) 3 = Done 1 /\
  (forall fuel s t, mdcExtended fuel (-7) 3 = Done (s, t) ->
                    (-7) * s + 3 * t <> Z.gcd (-7) 3).
Proof.
  assert (E : mdcExtended 4 (-7) 3 = Done (1, 2)) by (vm_compute; reflexivity).
  split; [int64_lia|]. split; [int64_lia|]. split; [exact E|].
  split; [lia|]. split; [reflexivity|]. split; [vm_compute; reflexivity|].
  intros fuel s t H.
  pose proof (fuel_monotone_done _ _ _ _ _ (mdcExtended_fuel (-7) 3) H E) as Hst.
  injection Hst as -> ->. vm_compute. discriminate.
Qed.

(** C4, amended: for all int64 a >= 0 and b >= 0, mdcExtended(a, b) returns a
    pair (s, t) with a * s + b * t = gcd(a, b), which is also what mdc(a, b)
    returns. *)
Theorem mdcExtended_bezout (a b : Z) :
  0 <= a -> 0 <= b -> int64 a -> int64 b ->
  exists s t : Z,
    (forall fuel : nat, (Z.to_nat b < fuel)%nat ->
       mdcExtended fuel a b = Done (s, t) /\
       mdc fuel a b = Done (a * s + b * t)) /\
    a * s + b * t = Z.gcd a b.
Proof.
  intros Ha Hb Hai Hbi.
  destruct (mdcExtended_spec a b Ha Hb Hai Hbi (S (Z.to_nat b)) ltac:(lia))
    as (s & t & Hrun & Heq & _).
  exists s, t. split; [|exact Heq].
  intros fuel Hfuel. split.
  - apply (mdcExtended_fuel a b (S (Z.to_nat b)) fuel); [lia | exact Hrun | discriminate].
  - rewrite Heq. now apply mdc_spec.
Qed.

Lemma mdcExtended_bezout_witness :
  exists s t : Z,
    (forall fuel : nat, (Z.to_nat 3120 < fuel)%nat ->
       mdcExtended fuel 17 3120 = Done (s, t) /\
       mdc fuel 17 3120 = Done (17 * s + 3120 * t)) /\
    17 * s + 3120 * t = Z.gcd 17 3120.
Proof.
  apply (mdcExtended_bezout 17 3120); try lia; apply <- int64_bounds; lia.
Defined.

(** ** Fermat's little theorem and the RSA identity *)

Lemma zprod_perm (l l' : list Z) : Permutation l l' -> zprod l = zprod l'.
Proof.
  induction 1 as [|x l l' _ IH|x y l|l l' l'' _ IH1 _ IH2]; simpl.
  - reflexivity.
  - now rewrite IH.
  - ring.
  - congruence.
Qed.

Lemma zprod_scaled (a p : Z) (l : list Z) :
  p <> 0 ->
  zprod (map (fun r => (a * r) mod p) l) mod p
  = (a ^ Z.of_nat (length l) * zprod l) mod p.
Proof.
  intros Hp. induction l as [|r l IH].
  - reflexivity.
  - cbn [map zprod fold_right length]. fold (zprod l).
    fold (zprod (map (fun r => (a * r) mod p) l)).
    rewrite Nat2Z.inj_succ, Z.pow_succ_r by lia.
    rewrite Z.mul_mod, Z.mod_mod, IH, <- Z.mul_mod by assumption.
    f_equal. ring.
Qed.

Section Fermat.

Variable p : Z.
Hypothesis Hp : Z.prime p.

Let p_ge_2 : 2 <= p := Z.prime_ge_2 p Hp.

Lemma in_residues (r : Z) : In r (residues p) <-> 1 <= r <= p - 1.
Proof.
  unfold residues. rewrite in_map_iff. split.
  - intros (k & <- & Hk). apply in_seq in Hk. lia.
  - intros Hr. exists (Z.to_nat r). split; [lia|]. apply in_seq. lia.
Qed.

Lemma residues_nodup : NoDup (residues p).
Proof.
  unfold residues. apply Injective_map_NoDup; [|apply seq_NoDup].
  intros x y. apply Nat2Z.inj.
Qed.

Lemma residue_not_divisible (r : Z) : 1 <= r <= p - 1 -> ~ (p | r).
Proof.
  intros Hr Hd. apply Z.divide_pos_le in Hd; lia.
Qed.

Lemma zprod_residues_coprime (l : list Z) :
  (forall r, In r l -> 1 <= r <= p - 1) -> ~ (p | zprod l).
Proof.
  induction l as [|r l IH]; intros Hl; simpl.
  - intros Hd. apply Z.divide_1_r_nonneg in Hd; lia.
  - intros Hd. apply Z.divide_prime_mul in Hd; [|exact Hp]. destruct Hd as [Hd|Hd].
    + revert Hd. apply residue_not_divisible. apply Hl. now left.
    + revert Hd. apply IH. intros x Hx. apply Hl. now right.
Qed.

Variable a : Z.
Hypothesis Ha : ~ (p | a).

Lemma scaled_residue (r : Z) :
  1 <= r <= p - 1 -> 1 <= (a * r) mod p <= p - 1.
Proof.
  intros Hr. pose proof (Z.mod_pos_bound (a * r) p ltac:(lia)) as Hm.
  assert ((a * r) mod p <> 0); [|lia].
  intros H0. apply Z.mod_divide in H0; [|lia].
  apply Z.divide_prime_mul in H0; [|exact Hp]. destruct H0 as [H0|H0].
  - now apply Ha.
  - revert H0. now apply residue_not_divisible.
Qed.

Lemma scaled_injective (r r' : Z) :
  1 <= r <= p - 1 -> 1 <= r' <= p - 1 ->
  (a * r) mod p = (a * r') mod p -> r = r'.
Proof.
  intros Hr Hr' Heq.
  assert (Hd : (p | a * (r - r'))).
  { apply Z.mod_divide; [lia|].
    rewrite Z.mul_sub_distr_l, Zminus_mod, Heq, Z.sub_diag. apply Z.mod_0_l. lia. }
  apply Z.divide_prime_mul in Hd; [|exact Hp]. destruct Hd as [Hd|Hd]; [now elim Ha|].
  destruct (Z.eq_dec r r') as [|Hne]; [assumption|exfalso].
  apply Z.divide_abs_r in Hd. apply Z.divide_pos_le in Hd; lia.
Qed.

Lemma scaled_residues_perm :
  Permutation (map (fun r => (a * r) mod p) (residues p)) (residues p).
Proof.
  apply Permutation_map_same_l.
  - apply Injective_map_NoDup_in; [|apply residues_nodup].
    intros x y Hx Hy. apply scaled_injective; now apply in_residues.
  - intros y Hy. apply in_map_iff in Hy. destruct Hy as (r & <- & Hr).
    apply in_residues, scaled_residue. now apply in_residues.
Qed.

Theorem fermat_little : a ^ (p - 1) mod p = 1.
Proof.
  pose proof (zprod_perm _ _ scaled_residues_perm) as Hperm.
  pose proof (zprod_scaled a p (residues p) ltac:(lia)) as Hsc.
  rewrite Hperm in Hsc.
  assert (Hlen : Z.of_nat (length (residues p)) = p - 1).
  { unfold residues. rewrite length_map, length_seq. lia. }
  rewrite Hlen in Hsc.
  assert (Hd : (p | zprod (residues p) * (a ^ (p - 1) - 1))).
  { apply Z.mod_divide; [lia|].
    replace (zprod (residues p) * (a ^ (p - 1) - 1))
      with (a ^ (p - 1) * zprod (residues p) - zprod (residues p)) by ring.
    rewrite Zminus_mod, <- Hsc, Z.sub_diag. apply Z.mod_0_l. lia. }
  apply Z.divide_prime_mul in Hd; [|exact Hp]. destruct Hd as [Hd|Hd].
  - exfalso. revert Hd. apply zprod_residues_coprime.
    intros r. apply in_residues.
  - apply Zdivide_mod_minus; [lia | exact Hd].
Qed.

End Fermat.

(* x ^ (1 + k (p - 1)) = x modulo a prime p. *)
Lemma pow_cycle_prime (p x k : Z) :
  Z.prime p -> 0 <= k -> x ^ (1 + k * (p - 1)) mod p = x mod p.
Proof.
  intros Hp Hk. pose proof (Z.prime_ge_2 p Hp) as Hp2.
  rewrite Z.pow_add_r, Z.pow_1_r by nia.
  destruct (Z.eq_dec (x mod p) 0) as [H0|H0].
  - rewrite Z.mul_mod, H0 by lia. reflexivity.
  - assert (Hnd : ~ (p | x)).
    { intros Hd. apply H0. apply Z.mod_divide; [lia | exact Hd]. }
    rewrite (Z.mul_comm k (p - 1)), Z.pow_mul_r by lia.
    rewrite Z.mul_mod by lia.
    rewrite <- (Z.mod_pow_l (x ^ (p - 1)) k p), (fermat_little p Hp x Hnd).
    rewrite Z.pow_1_l by lia.
    rewrite (Z.mod_small 1) by lia.
    rewrite Z.mul_1_r. apply Z.mod_mod. lia.
Qed.

(* The RSA identity for a modulus that is the product of two distinct
   primes. *)
Theorem rsa_identity (p q e d x : Z) :
  Z.prime p -> Z.prime q -> p <> q ->
  0 <= e * d -> (e * d) mod ((p - 1) * (q - 1)) = 1 ->
  0 <= x < p * q ->
  x ^ (e * d) mod (p * q) = x.
Proof.
  intros Hp Hq Hne Hed Hinv Hx.
  pose proof (Z.prime_ge_2 p Hp) as Hp2. pose proof (Z.prime_ge_2 q Hq) as Hq2.
  set (phi := (p - 1) * (q - 1)) in *.
  assert (Hphi : 0 < phi) by (unfold phi; nia).
  set (k := e * d / phi).
  assert (Hk : 0 <= k) by (apply Z.div_pos; lia).
  assert (Eed : e * d = 1 + k * phi).
  { pose proof (Z.div_mod (e * d) phi ltac:(lia)). fold k in H. lia. }
  assert (Hdp : (p | x ^ (e * d) - x)).
  { apply Z.mod_divide; [lia|].
    rewrite Zminus_mod. replace (e * d) with (1 + k * (q - 1) * (p - 1))
      by (rewrite Eed; unfold phi; ring).
    rewrite pow_cycle_prime by (assumption || nia).
    rewrite Z.sub_diag. apply Z.mod_0_l. lia. }
  assert (Hdq : (q | x ^ (e * d) - x)).
  { apply Z.mod_divide; [lia|].
    rewrite Zminus_mod. replace (e * d) with (1 + k * (p - 1) * (q - 1))
      by (rewrite Eed; unfold phi; ring).
    rewrite pow_cycle_prime by (assumption || nia).
    rewrite Z.sub_diag. apply Z.mod_0_l. lia. }
  assert (Hcop : Z.gcd q p = 1).
  { apply Z.coprime_prime_l; [exact Hq|].
    intros Hd. apply Z.divide_prime_prime in Hd; try assumption. congruence. }
  destruct Hdp as [c Hc].
  assert (Hqc : (q | c)).
  { apply Z.gauss with p; [|exact Hcop]. rewrite Z.mul_comm, <- Hc. exact Hdq. }
  destruct Hqc as [c' Hc'].
  apply Zdivide_mod_minus; [lia|].
  exists c'. rewrite Hc, Hc'. ring.
Qed.

(** ** isPrime *)

Lemma all_pass_true (k : nat) :
  forall a n : Z,
    all_pass k a n = true <->
    (forall x, a <= x < a + Z.of_nat k -> Z.gcd x n = 1 -> x ^ (n - 1) mod n = 1).
Proof.
  induction k as [|k IH]; intros a n; cbn [all_pass].
  - split; [intros _ x Hx; lia | reflexivity].
  - rewrite andb_true_iff, IH. unfold fermat_passb.
    rewrite orb_true_iff, negb_true_iff, Z.eqb_neq, Z.eqb_eq. split.
    + intros [Ha Hrest] x Hx Hg.
      destruct (Z.eq_dec x a) as [->|Hne].
      * destruct Ha as [Ha|Ha]; [contradiction | exact Ha].
      * apply Hrest; [lia | exact Hg].
    + intros H. split.
      * destruct (Z.eq_dec (Z.gcd a n) 1) as [Hg|Hg]; [right|now left].
        apply H; [lia | exact Hg].
      * intros x Hx. apply H. lia.
Qed.

Lemma all_pass_false (k : nat) :
  forall a n : Z,
    (exists x, a <= x < a + Z.of_nat k /\ Z.gcd x n = 1 /\ x ^ (n - 1) mod n <> 1) ->
    all_pass k a n = false.
Proof.
  intros a n (x & Hx & Hg & Hw).
  destruct (all_pass k a n) eqn:E; [|reflexivity].
  exfalso. apply Hw. now apply (proj1 (all_pass_true k a n) E).
Qed.

(* On a modulus 3 <= n <= 3037000500 the loop of isPrime decides whether
   all the witnesses left pass. *)
Lemma isPrime_loop_spec (n : Z) :
  3 <= n <= modpowLimit ->
  forall (k : nat) (a : Z) (fuel : nat),
    1 <= a -> a + Z.of_nat k = 1000000 ->
    (k + Z.to_nat n + 2 <= fuel)%nat ->
    isPrime_loop fuel a n = Done (all_pass k a n).
Proof.
  intros Hn. assert (Hn64 : int64 n) by (unfold modpowLimit in Hn; int64_lia).
  induction k as [|k IH]; intros a fuel Ha Hk Hfuel;
    (destruct fuel as [|fuel]; [lia|]); cbn [isPrime_loop all_pass].
  - destruct (Z.ltb_spec a 1000000); [lia | reflexivity].
  - destruct (Z.ltb_spec a 1000000); [|lia].
    rewrite mdc_spec by (assumption || lia). cbn [bind].
    assert (Ea : add64 a 1 = a + 1) by (apply wrap64_id; int64_lia).
    unfold fermat_passb.
    destruct (Z.eqb_spec (Z.gcd a n) 1) as [Hg|Hg]; cbn [negb orb].
    + assert (En : sub64 n 1 = n - 1)
        by (apply wrap64_id; unfold modpowLimit in Hn; int64_lia).
      rewrite En, modpow_spec; try lia.
      2:{ unfold modpowLimit in Hn.
          assert (0 <= n * a <= 3037000500 * 1000000)
            by (split; [nia | apply Z.mul_le_mono_nonneg; lia]).
          int64_lia. }
      2:{ unfold modpowLimit in Hn. int64_lia. }
      cbn [bind]. destruct (Z.eqb_spec (n - 1) 1) as [|_]; [lia|].
      destruct (a ^ (n - 1) mod n =? 1); cbn [negb andb].
      * rewrite Ea. apply IH; lia.
      * reflexivity.
    + rewrite Ea. apply IH; lia.
Qed.

Lemma isPrime_spec (n : Z) (fuel : nat) :
  3 <= n <= modpowLimit ->
  (Z.to_nat (n + 1000001) <= fuel)%nat ->
  isPrime fuel n = Done (all_pass (Z.to_nat 999999) 1 n).
Proof.
  intros Hn Hfuel. unfold isPrime. apply isPrime_loop_spec; try lia.
Qed.

(* A negative or zero exponent: modpow recurses for ever. *)
Lemma modpow_diverges (fuel : nat) :
  forall a b n : Z, b <= 0 -> int64 b -> modpow fuel a b n = OutOfFuel.
Proof.
  induction fuel as [|fuel IH]; intros a b n Hb Hbi; [reflexivity|].
  cbn [modpow]. destruct (Z.eqb_spec b 1); [lia|].
  unfold div64. cbn [Z.eqb bind].
  pose proof (Z.quot_le_mono b 0 2 ltac:(lia) Hb) as Hq1.
  pose proof (Z.quot_le_mono (-9223372036854775808) b 2 ltac:(lia)
                ltac:(int64_lia)) as Hq2.
  change (Z.quot 0 2) with 0 in Hq1.
  change (Z.quot (-9223372036854775808) 2) with (-4611686018427387904) in Hq2.
  rewrite wrap64_id by int64_lia.
  rewrite IH; [reflexivity | lia | int64_lia].
Qed.

(* isPrime accepts no number below 3: it does not return on 0 and 1 and
   returns false on 2. *)
Lemma isPrime_true_ge_3 (fuel : nat) (p : Z) :
  0 <= p -> isPrime fuel p = Done true -> 3 <= p.
Proof.
  intros Hp H.
  destruct (Z.le_gt_cases 3 p) as [|Hlt]; [assumption|exfalso].
  assert (Hcases : p = 0 \/ p = 1 \/ p = 2) by lia.
  destruct Hcases as [-> | [-> | ->]].
  - unfold isPrime in H. destruct fuel as [|fuel]; [discriminate|].
    cbn [isPrime_loop] in H. change (1 <? 1000000) with true in H. cbv iota in H.
    destruct (mdc fuel 1 0) as [g| |] eqn:Eg; cbn [bind] in H; try discriminate.
    assert (g = 1).
    { apply (fuel_monotone_done _ fuel 1%nat g 1 (mdc_fuel 1 0) Eg). reflexivity. }
    subst g. change (1 =? 1) with true in H. cbv iota in H.
    rewrite modpow_diverges in H; [discriminate | vm_compute; discriminate | apply wrap64_int64].
  - unfold isPrime in H. destruct fuel as [|fuel]; [discriminate|].
    cbn [isPrime_loop] in H. change (1 <? 1000000) with true in H. cbv iota in H.
    destruct (mdc fuel 1 1) as [g| |] eqn:Eg; cbn [bind] in H; try discriminate.
    assert (g = 1).
    { apply (fuel_monotone_done _ fuel 2%nat g 1 (mdc_fuel 1 1) Eg). reflexivity. }
    subst g. change (1 =? 1) with true in H. cbv iota in H.
    rewrite modpow_diverges in H; [discriminate | vm_compute; discriminate | apply wrap64_int64].
  - assert (E : isPrime 10 2 = Done false) by (vm_compute; reflexivity).
    pose proof (fuel_monotone_done _ _ _ _ _ (isPrime_fuel 2) H E). discriminate.
Qed.

Lemma residues_pass_all (n : Z) (k : nat) (a : Z) :
  3 <= n <= modpowLimit -> residues_pass n = true -> all_pass k a n = true.
Proof.
  intros Hn Hres. apply all_pass_true. intros x _ Hg.
  unfold residues_pass in Hres. rewrite forallb_forall in Hres.
  pose proof (Z.mod_pos_bound x n ltac:(lia)) as Hm.
  specialize (Hres (Z.to_nat (x mod n))).
  rewrite in_seq in Hres. specialize (Hres ltac:(lia)).
  rewrite Z2Nat.id in Hres by lia.
  apply orb_true_iff in Hres. destruct Hres as [Hres|Hres].
  - apply negb_true_iff, Z.eqb_neq in Hres. exfalso. apply Hres.
    now apply Z.coprime_mod_l_iff.
  - destruct (modpow 64 (x mod n) (n - 1) n) as [v| |] eqn:Ev; try discriminate.
    apply Z.eqb_eq in Hres. subst v.
    assert (Hspec : modpow (Z.to_nat (n - 1)) (x mod n) (n - 1) n
                    = Done ((x mod n) ^ (n - 1) mod n)).
    { rewrite modpow_spec; try lia.
      - destruct (Z.eqb_spec (n - 1) 1); [lia | reflexivity].
      - unfold modpowLimit in Hn.
        assert (0 <= n * (x mod n) <= 3037000500 * 3037000499)
          by (split; [nia | apply Z.mul_le_mono_nonneg; lia]).
        int64_lia.
      - unfold modpowLimit in Hn. int64_lia. }
    pose proof (fuel_monotone_done _ _ _ _ _
                  (modpow_fuel (x mod n) (n - 1) n) Ev Hspec) as E.
    now rewrite Z.mod_pow_l in E.
Qed.

Lemma trial_division_prime (p : Z) : trial_division p = true -> Z.prime p.
Proof.
  unfold trial_division. rewrite andb_true_iff, Z.ltb_lt, forallb_forall.
  intros [Hp Hall]. split; [exact Hp|].
  intros n Hn Hd. specialize (Hall (Z.to_nat n)).
  rewrite in_seq in Hall. specialize (Hall ltac:(lia)).
  rewrite Z2Nat.id in Hall by lia.
  apply negb_true_iff, Z.eqb_neq in Hall. apply Hall.
  apply Z.mod_divide; [lia | exact Hd].
Qed.

(** ** C5: the verdicts of isPrime *)

(** C5, as stated, fails in both halves.  561 = 3 * 11 * 17 is composite
    with the factor 3, yet every witness coprime to it passes the Fermat test
    (a Carmichael number) and isPrime(561) returns true; 2 is prime, yet
    modpow(3, 1, 2) returns the unreduced base 3 and isPrime(2) returns
    false. *)
Lemma isPrime_counterexample :
  561 = 3 * 187 /\ ~ Z.prime 561 /\
  isPrime (Z.to_nat 1000562) 561 = Done true /\
  Z.prime 2 /\ 2 < 54772 /\ isPrime 10 2 = Done false.
Proof.
  split; [reflexivity|]. split.
  { intros [_ H]. apply (H 3); [lia|]. exists 187. reflexivity. }
  split.
  { rewrite isPrime_spec by (unfold modpowLimit; lia).
    rewrite residues_pass_all;
      [reflexivity | unfold modpowLimit; lia | vm_compute; reflexivity]. }
  split; [exact Z.prime_2|]. split; [lia|]. vm_compute. reflexivity.
Qed.

(** C5, amended: for 3 <= n <= 3037000500, isPrime(n) returns false whenever
    some a in [1, 1000000) coprime to n has a ^ (n-1) mod n <> 1 (so for every
    composite with such a Fermat witness, not for a Carmichael number); and
    isPrime(p) returns true for every prime 3 <= p < 54772. *)
Theorem isPrime_fermat :
  (forall n a : Z,
      3 <= n <= modpowLimit ->
      1 <= a < 1000000 -> Z.gcd a n = 1 -> a ^ (n - 1) mod n <> 1 ->
      forall fuel : nat, (Z.to_nat (n + 1000001) <= fuel)%nat ->
        isPrime fuel n = Done false) /\
  (forall p : Z,
      Z.prime p -> 3 <= p < 54772 ->
      forall fuel : nat, (Z.to_nat (p + 1000001) <= fuel)%nat ->
        isPrime fuel p = Done true).
Proof.
  split.
  - intros n a Hn Ha Hg Hw fuel Hfuel.
    rewrite isPrime_spec by assumption. f_equal.
    apply all_pass_false. exists a. repeat split; try assumption; lia.
  - intros p Hp Hr fuel Hfuel.
    rewrite isPrime_spec by (unfold modpowLimit; lia). f_equal.
    apply all_pass_true. intros x _ Hg.
    apply fermat_little; [exact Hp|].
    apply Z.coprime_prime_l_iff; [exact Hp|].
    unfold Z.coprime. now rewrite Z.gcd_comm.
Qed.

Lemma isPrime_fermat_witness :
  isPrime (Z.to_nat 1000010) 9 = Done false /\
  isPrime (Z.to_nat 1000062) 61 = Done true.
Proof.
  split.
  - apply (proj1 isPrime_fermat 9 2).
    + unfold modpowLimit; lia.
    + lia.
    + reflexivity.
    + vm_compute. discriminate.
    + lia.
  - apply (proj2 isPrime_fermat 61).
    + apply trial_division_prime. vm_compute. reflexivity.
    + lia.
    + lia.
Defined.

(** ** Key generation *)

Lemma byte_val_range (c : ascii) : 0 <= byte_val c < 256.
Proof.
  unfold byte_val. pose proof (N_ascii_bounded c). lia.
Qed.

Lemma uint16_of_range (b0 b1 : ascii) : 0 <= uint16_of b0 b1 <= 65535.
Proof.
  unfold uint16_of.
  pose proof (byte_val_range b0) as H0. pose proof (byte_val_range b1) as H1.
  set (lo := byte_val b0) in *.
  set (hi := Z.shiftl (byte_val b1) 8 mod 2 ^ 16).
  assert (Hhi : 0 <= hi < 2 ^ 16) by (apply Z.mod_pos_bound; lia).
  assert (Hnn : 0 <= Z.lor lo hi) by (apply Z.lor_nonneg; lia).
  split; [exact Hnn|].
  destruct (Z.eq_dec (Z.lor lo hi) 0) as [->|Hnz]; [lia|].
  assert (Z.lor lo hi < 2 ^ 16); [|lia].
  apply Z.log2_lt_pow2; [lia|].
  rewrite Z.log2_lor by lia.
  assert (Hl : Z.log2 lo < 16).
  { destruct (Z.eq_dec lo 0) as [->|]; [reflexivity|].
    apply Z.log2_lt_pow2; lia. }
  assert (Hh : Z.log2 hi < 16).
  { destruct (Z.eq_dec hi 0) as [->|]; [reflexivity|].
    apply Z.log2_lt_pow2; lia. }
  lia.
Qed.

Lemma generateRandomPrime_inv (fuel : nat) (rnd : tape) :
  forall (p : Z) (rnd' : tape),
    generateRandomPrime fuel rnd = Done (p, rnd') ->
    0 <= p <= 54772 /\ isPrime fuel p = Done true.
Proof.
  induction rnd as [|[b0 b1] rnd IH]; intros p rnd' H; [discriminate|].
  cbn [generateRandomPrime] in H. cbv zeta in H.
  destruct (Z.gtb_spec (uint16_of b0 b1) 54772) as [Hgt|Hle].
  - now apply IH with rnd'.
  - destruct (isPrime fuel (uint16_of b0 b1)) as [[|]| |] eqn:E;
      cbn [bind] in H; try discriminate.
    + injection H as <- <-. pose proof (uint16_of_range b0 b1). split; [lia | exact E].
    + now apply IH with rnd'.
Qed.

Lemma generateE_inv (fuel : nat) (phi : Z) (rnd : tape) :
  forall (e : Z) (rnd' : tape),
    generateE fuel phi rnd = Done (e, rnd') ->
    0 <= e <= 65535 /\ mdc fuel e phi = Done 1.
Proof.
  induction rnd as [|[b0 b1] rnd IH]; intros e rnd' H; [discriminate|].
  cbn [generateE] in H. cbv zeta in H.
  destruct (mdc fuel (uint16_of b0 b1) phi) as [g| |] eqn:E;
    cbn [bind] in H; try discriminate.
  destruct (Z.eqb_spec g 1) as [->|Hg].
  - injection H as <- <-. split; [apply uint16_of_range | exact E].
  - now apply IH with rnd'.
Qed.

(* The private exponent is the inverse of e modulo phi, in [0, phi). *)
Lemma privateExponent_spec (e phi : Z) :
  0 <= e -> int64 e -> 2 <= phi -> int64 phi -> Z.gcd e phi = 1 ->
  exists d : Z,
    (forall fuel : nat, (Z.to_nat phi < fuel)%nat ->
       privateExponent fuel e phi = Done d) /\
    0 <= d < phi /\ (e * d) mod phi = 1.
Proof.
  intros He Hei Hphi Hphii Hg.
  destruct (mdcExtended_spec e phi He ltac:(lia) Hei Hphii (S (Z.to_nat phi))
              ltac:(lia)) as (s & t & Hrun & Heq & Hs & _).
  rewrite Hg in Heq. rewrite Z.max_l in Hs by lia.
  assert (Hs1 : s <> phi).
  { intros ->. assert (phi * (e + t) = 1) by lia.
    apply Z.mul_eq_1 in H. lia. }
  assert (Hs2 : s <> - phi).
  { intros ->. assert (phi * (t - e) = 1) by lia.
    apply Z.mul_eq_1 in H. lia. }
  assert (Hrun' : forall fuel, (Z.to_nat phi < fuel)%nat ->
                    mdcExtended fuel e phi = Done (s, t)).
  { intros fuel Hfuel.
    apply (mdcExtended_fuel e phi (S (Z.to_nat phi)) fuel);
      [lia | exact Hrun | discriminate]. }
  destruct (Z.ltb_spec s 0) as [Hneg|Hpos].
  - exists (s + phi). split; [|split; [lia|]].
    + intros fuel Hfuel. unfold privateExponent. rewrite Hrun' by exact Hfuel.
      cbn [bind]. destruct (Z.ltb_spec s 0); [|lia].
      unfold add64. rewrite wrap64_id by int64_lia. reflexivity.
    + replace (e * (s + phi)) with (1 + (e - t) * phi) by lia.
      rewrite Z.mod_add by lia. apply Z.mod_small. lia.
  - exists s. split; [|split; [lia|]].
    + intros fuel Hfuel. unfold privateExponent. rewrite Hrun' by exact Hfuel.
      cbn [bind]. destruct (Z.ltb_spec s 0); [lia | reflexivity].
    + replace (e * s) with (1 + (- t) * phi) by lia.
      rewrite Z.mod_add by lia. apply Z.mod_small. lia.
Qed.

Lemma privateExponent_fuel (e phi : Z) :
  fuel_monotone (fun fuel => privateExponent fuel e phi).
Proof.
  intros n m r Hle H Hr. unfold privateExponent in *.
  apply bind_fuel with (x := mdcExtended n e phi)
    (k := fun x : Z * Z => let (s, _) := x in
                           if s <? 0 then Done (add64 s phi) else Done s); auto.
  intros Hne. apply (mdcExtended_fuel e phi n m); [exact Hle | reflexivity | exact Hne].
Qed.

(* What a returned run of genereateRSAKeys tells about its values. *)
Lemma genereateRSAKeys_run_inv (fuel : nat) (rnd : tape) (p q n e d : Z) :
  genereateRSAKeys_run fuel rnd = Done (p, q, (n, e, d)) ->
  (3 <= p <= 54772 /\ isPrime fuel p = Done true) /\
  (3 <= q <= 54772 /\ isPrime fuel q = Done true) /\
  n = p * q /\
  0 < e <= 65535 /\ Z.gcd e ((p - 1) * (q - 1)) = 1 /\
  0 <= d < (p - 1) * (q - 1) /\ (e * d) mod ((p - 1) * (q - 1)) = 1.
Proof.
  unfold genereateRSAKeys_run. intros H.
  destruct (generateRandomPrime fuel rnd) as [[p' rnd1]| |] eqn:Ep;
    cbn [bind] in H; try discriminate.
  destruct (generateRandomPrime fuel rnd1) as [[q' rnd2]| |] eqn:Eq;
    cbn [bind] in H; try discriminate.
  cbv zeta in H.
  destruct (generateE fuel (mul64 (sub64 p' 1) (sub64 q' 1)) rnd2)
    as [[e' rnd3]| |] eqn:Ee; cbn [bind] in H; try discriminate.
  destruct (privateExponent fuel e' (mul64 (sub64 p' 1) (sub64 q' 1)))
    as [d'| |] eqn:Ed; cbn [bind] in H; try discriminate.
  injection H as -> -> <- -> ->.
  apply generateRandomPrime_inv in Ep. destruct Ep as [Hp Hpp].
  apply generateRandomPrime_inv in Eq. destruct Eq as [Hq Hqp].
  pose proof (isPrime_true_ge_3 fuel p ltac:(lia) Hpp) as Hp3.
  pose proof (isPrime_true_ge_3 fuel q ltac:(lia) Hqp) as Hq3.
  assert (Hphi : 4 <= (p - 1) * (q - 1) <= 54771 * 54771)
    by (split; [nia | apply Z.mul_le_mono_nonneg; lia]).
  assert (Hn : 0 <= p * q <= 54772 * 54772)
    by (split; [nia | apply Z.mul_le_mono_nonneg; lia]).
  assert (Ephi : mul64 (sub64 p 1) (sub64 q 1) = (p - 1) * (q - 1)).
  { unfold mul64, sub64. rewrite (wrap64_id (p - 1)), (wrap64_id (q - 1)) by int64_lia.
    apply wrap64_id. int64_lia. }
  rewrite Ephi in *. set (phi := (p - 1) * (q - 1)) in *.
  apply generateE_inv in Ee. destruct Ee as [He Hg].
  assert (Hgcd : Z.gcd e phi = 1).
  { symmetry.
    apply (fuel_monotone_done _ fuel (S (Z.to_nat phi)) _ _ (mdc_fuel e phi) Hg).
    apply mdc_spec; try lia. int64_lia. }
  assert (He0 : e <> 0).
  { intros ->. rewrite Z.gcd_0_l, Z.abs_eq in Hgcd by lia. lia. }
  destruct (privateExponent_spec e phi) as (d0 & Hrun & Hd & Hinv);
    try lia; try int64_lia.
  assert (d = d0).
  { apply (fuel_monotone_done _ fuel (S (Z.to_nat phi)) _ _
             (privateExponent_fuel e phi) Ed).
    apply Hrun. lia. }
  subst d0.
  repeat split; try assumption; try lia.
  unfold mul64. apply wrap64_id. int64_lia.
Qed.

(* A run on a tape of three draws that are accepted at once. *)
Lemma genereateRSAKeys_run_three (b0 b1 c0 c1 e0 e1 : ascii) (p q e d : Z)
      (fuel : nat) :
  uint16_of b0 b1 = p -> uint16_of c0 c1 = q -> uint16_of e0 e1 = e ->
  3 <= p <= 54772 -> 3 <= q <= 54772 ->
  residues_pass p = true -> residues_pass q = true ->
  Z.gcd e ((p - 1) * (q - 1)) = 1 ->
  privateExponent 64 e ((p - 1) * (q - 1)) = Done d ->
  (Z.to_nat (2000000 + (p - 1) * (q - 1)) <= fuel)%nat ->
  genereateRSAKeys_run fuel [(b0, b1); (c0, c1); (e0, e1)]
  = Done (p, q, (p * q, e, d)).
Proof.
  intros Ep Eq Ee Hp Hq Rp Rq Hg Hd Hfuel.
  assert (Hphi : 4 <= (p - 1) * (q - 1) <= 54771 * 54771)
    by (split; [nia | apply Z.mul_le_mono_nonneg; lia]).
  assert (Hn : 0 <= p * q <= 54772 * 54772)
    by (split; [nia | apply Z.mul_le_mono_nonneg; lia]).
  assert (Ephi : mul64 (sub64 p 1) (sub64 q 1) = (p - 1) * (q - 1)).
  { unfold mul64, sub64. rewrite (wrap64_id (p - 1)), (wrap64_id (q - 1)) by int64_lia.
    apply wrap64_id. int64_lia. }
  assert (Ip : isPrime fuel p = Done true).
  { rewrite isPrime_spec by (unfold modpowLimit; lia).
    rewrite residues_pass_all; [reflexivity | unfold modpowLimit; lia | exact Rp]. }
  assert (Iq : isPrime fuel q = Done true).
  { rewrite isPrime_spec by (unfold modpowLimit; lia).
    rewrite residues_pass_all; [reflexivity | unfold modpowLimit; lia | exact Rq]. }
  pose proof (uint16_of_range e0 e1) as He. rewrite Ee in He.
  unfold genereateRSAKeys_run.
  cbn [generateRandomPrime]. cbv zeta. rewrite Ep.
  destruct (Z.gtb_spec p 54772); [lia|]. rewrite Ip. cbn [bind].
  cbn [generateRandomPrime]. cbv zeta. rewrite Eq.
  destruct (Z.gtb_spec q 54772); [lia|]. rewrite Iq. cbn [bind].
  rewrite Ephi. cbn [generateE]. cbv zeta. rewrite Ee.
  rewrite mdc_spec by (lia || int64_lia). cbn [bind]. rewrite Hg.
  change (1 =? 1) with true. cbv iota. cbn [bind].
  rewrite (privateExponent_fuel e _ 64%nat fuel (Done d)); [|lia|exact Hd|discriminate].
  cbn [bind]. unfold mul64. rewrite wrap64_id by int64_lia. reflexivity.
Qed.

(** ** C6: the key pair data model *)

(** C6, as stated, fails on e < phi(n): generateE draws any 16-bit e coprime
    to phi.  On the draws 3, 5 and 9 the keys are (15, 9, 1) with
    phi = 8 < e = 9. *)
Lemma keypair_exponent_counterexample :
  genereateRSAKeys (Z.to_nat 2000008) [("003", "000"); ("005", "000"); ("009", "000")]%char
  = Done (15, 9, 1) /\
  15 = 3 * 5 /\ ~ (9 < (3 - 1) * (5 - 1)).
Proof.
  split; [|split; [reflexivity | lia]].
  unfold genereateRSAKeys.
  rewrite (genereateRSAKeys_run_three _ _ _ _ _ _ 3 5 9 1);
    try reflexivity; try lia.
Qed.

(** C6, amended: every triple (n, e, d) returned by genereateRSAKeys has
    n = p * q for the two numbers p, q that generateRandomPrime returned
    (both in [3, 54772] and accepted by isPrime), 0 < e <= 65535 with
    gcd(e, phi) = 1, and 0 <= d < phi with e * d mod phi = 1, where
    phi = (p - 1) * (q - 1); e need not be below phi. *)
Theorem keypair_model (fuel : nat) (rnd : tape) (n e d : Z) :
  genereateRSAKeys fuel rnd = Done (n, e, d) ->
  exists p q : Z,
    genereateRSAKeys_run fuel rnd = Done (p, q, (n, e, d)) /\
    (3 <= p <= 54772 /\ isPrime fuel p = Done true) /\
    (3 <= q <= 54772 /\ isPrime fuel q = Done true) /\
    n = p * q /\
    0 < e <= 65535 /\ Z.gcd e ((p - 1) * (q - 1)) = 1 /\
    0 <= d < (p - 1) * (q - 1) /\ (e * d) mod ((p - 1) * (q - 1)) = 1.
Proof.
  unfold genereateRSAKeys. intros H.
  destruct (genereateRSAKeys_run fuel rnd) as [[[p q] k]| |] eqn:E;
    cbn [bind snd] in H; try discriminate.
  injection H as ->. exists p, q. split; [reflexivity|].
  now apply genereateRSAKeys_run_inv with rnd.
Qed.

(* The textbook keys: the draws 61, 53 and 17 give (3233, 17, 2753). *)
Lemma textbook_run (fuel : nat) :
  (Z.to_nat 2003120 <= fuel)%nat ->
  genereateRSAKeys_run fuel [("061", "000"); ("053", "000"); ("017", "000")]%char
  = Done (61, 53, (3233, 17, 2753)).
Proof.
  intros Hfuel.
  rewrite (genereateRSAKeys_run_three _ _ _ _ _ _ 61 53 17 2753);
    try reflexivity; try lia.
Qed.

Lemma keypair_model_witness :
  exists p q : Z,
    genereateRSAKeys_run (Z.to_nat 2003120)
      [("061", "000"); ("053", "000"); ("017", "000")]%char
    = Done (p, q, (3233, 17, 2753)) /\
    (3 <= p <= 54772 /\ isPrime (Z.to_nat 2003120) p = Done true) /\
    (3 <= q <= 54772 /\ isPrime (Z.to_nat 2003120) q = Done true) /\
    3233 = p * q /\
    0 < 17 <= 65535 /\ Z.gcd 17 ((p - 1) * (q - 1)) = 1 /\
    0 <= 2753 < (p - 1) * (q - 1) /\ (17 * 2753) mod ((p - 1) * (q - 1)) = 1.
Proof.
  apply (keypair_model (Z.to_nat 2003120)
           [("061", "000"); ("053", "000"); ("017", "000")]%char).
  unfold genereateRSAKeys. rewrite textbook_run by apply Nat.le_refl.
  reflexivity.
Defined.

(** ** C2: encryption followed by decryption of a residue *)

(** C2, as stated, fails: genereateRSAKeys does not check that its two draws
    differ (nor that they are prime rather than Carmichael numbers).  On the
    draws 3, 3 and 3 the keys are (9, 3, 3) and x = 3 comes back as 0. *)
Lemma rsa_roundtrip_counterexample :
  genereateRSAKeys (Z.to_nat 2000004) [("003", "000"); ("003", "000"); ("003", "000")]%char
  = Done (9, 3, 3) /\
  0 <= 3 < 9 /\
  modpow 10 3 3 9 = Done 0 /\ modpow 10 0 3 9 = Done 0.
Proof.
  split; [|split; [lia | split; vm_compute; reflexivity]].
  unfold genereateRSAKeys.
  rewrite (genereateRSAKeys_run_three _ _ _ _ _ _ 3 3 3 3);
    try reflexivity; try lia.
Qed.

(* Encryption then decryption of a residue, under keys from distinct
   primes. *)
Lemma rsa_modpow_roundtrip (fuel : nat) (rnd : tape) (p q n e d x : Z) :
  genereateRSAKeys_run fuel rnd = Done (p, q, (n, e, d)) ->
  Z.prime p -> Z.prime q -> p <> q ->
  0 <= x < n ->
  0 <= x ^ e mod n < n /\
  forall fuel' : nat, (Z.to_nat (n + 65536) <= fuel')%nat ->
    modpow fuel' x e n = Done (x ^ e mod n) /\
    modpow fuel' (x ^ e mod n) d n = Done x.
Proof.
  intros Hrun Hp Hq Hne Hx.
  apply genereateRSAKeys_run_inv in Hrun.
  destruct Hrun as ((Hp3 & _) & (Hq3 & _) & -> & He & Hg & Hd & Hinv).
  assert (Hphi : 4 <= (p - 1) * (q - 1) < p * q) by nia.
  assert (Hn : 9 <= p * q <= 54772 * 54772)
    by (split; [nia | apply Z.mul_le_mono_nonneg; lia]).
  assert (Hlim : 1 <= p * q <= modpowLimit) by (unfold modpowLimit; lia).
  assert (Hd0 : d <> 0).
  { intros ->. rewrite Z.mul_0_r, Z.mod_0_l in Hinv by lia. lia. }
  pose proof (Z.mod_pos_bound (x ^ e) (p * q) ltac:(lia)) as Hc.
  split; [exact Hc|]. intros fuel' Hfuel. split.
  - apply modpow_pow_mod; try lia. int64_lia.
  - rewrite modpow_pow_mod; try lia; [|int64_lia].
    f_equal. rewrite Z.mod_pow_l, <- Z.pow_mul_r by lia.
    apply rsa_identity; try assumption. nia.
Qed.

(** C2, amended: for every triple (n, e, d) returned by genereateRSAKeys from
    two draws p and q that are distinct primes, and every 0 <= x < n,
    modpow(modpow(x, e, n), d, n) = x. *)
Theorem rsa_roundtrip (fuel : nat) (rnd : tape) (p q n e d x : Z) :
  genereateRSAKeys_run fuel rnd = Done (p, q, (n, e, d)) ->
  Z.prime p -> Z.prime q -> p <> q ->
  0 <= x < n ->
  exists c : Z,
    forall fuel' : nat, (Z.to_nat (n + 65536) <= fuel')%nat ->
      modpow fuel' x e n = Done c /\ modpow fuel' c d n = Done x.
Proof.
  intros Hrun Hp Hq Hne Hx. exists (x ^ e mod n).
  now apply (rsa_modpow_roundtrip fuel rnd p q).
Qed.

Lemma rsa_roundtrip_witness :
  exists c : Z,
    forall fuel' : nat, (Z.to_nat (3233 + 65536) <= fuel')%nat ->
      modpow fuel' 65 17 3233 = Done c /\ modpow fuel' c 2753 3233 = Done 65.
Proof.
  apply (rsa_roundtrip (Z.to_nat 2003120)
           [("061", "000"); ("053", "000"); ("017", "000")]%char 61 53 3233 17 2753 65).
  - apply textbook_run. apply Nat.le_refl.
  - apply trial_division_prime. vm_compute. reflexivity.
  - apply trial_division_prime. vm_compute. reflexivity.
  - discriminate.
  - lia.
Defined.

(** ** Key recovery *)

(* The proper divisors of a product of two primes are the two primes. *)
Lemma semiprime_divisor (p q i : Z) :
  Z.prime p -> Z.prime q -> 2 <= i < p * q -> (i | p * q) -> i = p \/ i = q.
Proof.
  intros Hp Hq Hi Hd.
  pose proof (Z.prime_ge_2 p Hp) as Hp2. pose proof (Z.prime_ge_2 q Hq) as Hq2.
  assert (Hdec : (q | i) \/ ~ (q | i)).
  { destruct (Z.eq_dec (i mod q) 0) as [H0|H0].
    - left. apply Z.mod_divide; [lia | exact H0].
    - right. intros H. apply H0. apply Z.mod_divide; [lia | exact H]. }
  destruct Hdec as [[c Hc]|Hnd].
  - subst i. assert (Hcp : (c | p)).
    { destruct Hd as [k Hk]. exists k. nia. }
    apply (Z.divide_prime_r c p Hp) in Hcp.
    destruct Hcp as [-> | [-> | [-> | ->]]]; nia.
  - left. assert (Hip : (i | p)).
    { apply Z.gauss with q.
      - now rewrite Z.mul_comm.
      - rewrite Z.gcd_comm. now apply Z.coprime_prime_l. }
    apply (Z.divide_prime_r i p Hp) in Hip. lia.
Qed.

(* The scan stops on the larger prime. *)
Lemma findPrivateKey_scan_spec (p q : Z) :
  Z.prime p -> Z.prime q -> p < q -> int64 (p * q) ->
  forall (k : nat) (i : Z) (fuel : nat),
    i = q + Z.of_nat k -> i < p * q -> (k < fuel)%nat ->
    findPrivateKey_scan fuel (p * q) i = Done (q, p).
Proof.
  intros Hp Hq Hlt Hn.
  pose proof (Z.prime_ge_2 p Hp) as Hp2. pose proof (Z.prime_ge_2 q Hq) as Hq2.
  induction k as [|k IH]; intros i fuel Hi Hin Hfuel;
    (destruct fuel as [|fuel]; [lia|]); cbn [findPrivateKey_scan];
    (destruct (Z.geb_spec i 2); [|lia]);
    rewrite rem64_nonneg by nia; cbn [bind].
  - replace i with q by lia.
    rewrite Z.mod_mul by lia. change (0 =? 0) with true. cbv iota.
    rewrite div64_nonneg by (nia || exact Hn).
    cbn [bind]. rewrite Z.div_mul by lia. reflexivity.
  - destruct (Z.eqb_spec ((p * q) mod i) 0) as [H0|_].
    + exfalso. apply Z.mod_divide in H0; [|lia].
      apply semiprime_divisor in H0; try assumption; lia.
    + assert (Ei : sub64 i 1 = i - 1) by (apply wrap64_id; int64_lia).
      rewrite Ei. apply IH; lia.
Qed.

Lemma findPrivateKey_spec (p q e : Z) :
  Z.prime p -> Z.prime q -> p < q -> int64 (p * q) ->
  0 <= e -> int64 e -> Z.gcd e ((p - 1) * (q - 1)) = 1 ->
  exists d : Z,
    (forall fuel : nat, (Z.to_nat (p * q) <= fuel)%nat ->
       findPrivateKey fuel (p * q) e = Done d) /\
    0 <= d < (p - 1) * (q - 1) /\ (e * d) mod ((p - 1) * (q - 1)) = 1.
Proof.
  intros Hp Hq Hlt Hn He Hei Hg.
  pose proof (Z.prime_ge_2 p Hp) as Hp2. pose proof (Z.prime_ge_2 q Hq) as Hq2.
  assert (Hphi : 2 <= (p - 1) * (q - 1) < p * q) by nia.
  destruct (privateExponent_spec e ((p - 1) * (q - 1))) as (d & Hrun & Hd & Hinv);
    try assumption; try lia; try int64_lia.
  exists d. split; [|split; assumption].
  intros fuel Hfuel. unfold findPrivateKey.
  assert (En : sub64 (p * q) 1 = p * q - 1) by (apply wrap64_id; int64_lia).
  rewrite En.
  rewrite (findPrivateKey_scan_spec p q Hp Hq Hlt Hn (Z.to_nat (p * q - 1 - q)));
    try lia.
  cbn [bind]. cbv zeta.
  assert (Ephi : mul64 (sub64 q 1) (sub64 p 1) = (p - 1) * (q - 1)).
  { unfold mul64, sub64. rewrite (wrap64_id (p - 1)), (wrap64_id (q - 1)) by int64_lia.
    rewrite wrap64_id by (rewrite Z.mul_comm; int64_lia). ring. }
  rewrite Ephi. apply Hrun. lia.
Qed.

(** ** C7: the recovered private key *)

(** C7, as stated, fails on a negative e: gcd(-1, 3120) = 1, yet
    findPrivateKey(3233, -1) returns 1 and -1 * 1 = 3119 modulo 3120. *)
Lemma findPrivateKey_negative_counterexample :
  Z.prime 61 /\ Z.prime 53 /\ 61 <> 53 /\ 3233 = 61 * 53 /\
  Z.gcd (-1) ((61 - 1) * (53 - 1)) = 1 /\
  findPrivateKey 4000 3233 (-1) = Done 1 /\
  (-1 * 1) mod ((61 - 1) * (53 - 1)) = 3119.
Proof.
  split; [apply trial_division_prime; vm_compute; reflexivity|].
  split; [apply trial_division_prime; vm_compute; reflexivity|].
  split; [discriminate|]. split; [reflexivity|]. split; [reflexivity|].
  split; vm_compute; reflexivity.
Qed.

(** C7, amended: for every int64 n = p * q with p and q prime, p <> q, and
    every e >= 0 with gcd(e, (p-1) * (q-1)) = 1, findPrivateKey(n, e) returns
    a d with 0 <= d < (p-1) * (q-1) and e * d = 1 modulo (p-1) * (q-1); for
    n = 3233 and e = 17 it returns 2753, and 17 * 2753 = 1 modulo 3120. *)
Theorem findPrivateKey_correct :
  (forall p q e : Z,
      Z.prime p -> Z.prime q -> p <> q -> int64 (p * q) ->
      0 <= e -> int64 e -> Z.gcd e ((p - 1) * (q - 1)) = 1 ->
      exists d : Z,
        (forall fuel : nat, (Z.to_nat (p * q) <= fuel)%nat ->
           findPrivateKey fuel (p * q) e = Done d) /\
        0 <= d < (p - 1) * (q - 1) /\ (e * d) mod ((p - 1) * (q - 1)) = 1) /\
  findPrivateKey 4000 3233 17 = Done 2753 /\
  (17 * 2753) mod 3120 = 1.
Proof.
  split; [|split; vm_compute; reflexivity].
  intros p q e Hp Hq Hne Hn He Hei Hg.
  destruct (Z.lt_total p q) as [Hlt | [Heq | Hgt]]; [| contradiction |].
  - now apply findPrivateKey_spec.
  - rewrite (Z.mul_comm p q) in *. rewrite (Z.mul_comm (p - 1) (q - 1)) in *.
    now apply findPrivateKey_spec.
Qed.

Lemma findPrivateKey_correct_witness :
  exists d : Z,
    (forall fuel : nat, (Z.to_nat (61 * 53) <= fuel)%nat ->
       findPrivateKey fuel (61 * 53) 17 = Done d) /\
    0 <= d < (61 - 1) * (53 - 1) /\ (17 * d) mod ((61 - 1) * (53 - 1)) = 1.
Proof.
  apply (proj1 findPrivateKey_correct 61 53 17).
  - apply trial_division_prime. vm_compute. reflexivity.
  - apply trial_division_prime. vm_compute. reflexivity.
  - discriminate.
  - int64_lia.
  - lia.
  - int64_lia.
  - reflexivity.
Defined.

(** ** Decimal strings: Sprintf and Atoi *)

Lemma byte_val_ascii_of_Z (z : Z) : byte_val (ascii_of_Z z) = z mod 256.
Proof.
  unfold byte_val, ascii_of_Z.
  pose proof (Z.mod_pos_bound z 256 ltac:(lia)) as Hm.
  rewrite N_ascii_embedding by lia. lia.
Qed.

Lemma digit_val_digitChar (d : Z) :
  0 <= d <= 9 -> digit_val (digitChar d) = Some d.
Proof.
  intros Hd. unfold digit_val, digitChar. cbv zeta.
  rewrite byte_val_ascii_of_Z, Z.mod_small by lia.
  destruct (Z.leb_spec 48 (48 + d)); [|lia].
  destruct (Z.leb_spec (48 + d) 57); [|lia].
  cbn [andb]. f_equal. lia.
Qed.

Lemma parseUint_app (s t : gostring) :
  forall acc : Z,
    parseUint acc (s ++ t)
    = match parseUint acc s with
      | Value v => parseUint v t
      | r => r
      end.
Proof.
  induction s as [|c s IH]; intros acc; cbn [app parseUint]; [reflexivity|].
  destruct (digit_val c) as [d|]; [|reflexivity].
  destruct (acc * 10 + d >? 2 ^ 64 - 1); [reflexivity | apply IH].
Qed.

Lemma digits_w_length (w : nat) : forall u : Z, length (digits_w w u) = w.
Proof.
  induction w as [|w IH]; intros u; cbn [digits_w]; [reflexivity|].
  rewrite length_app, IH. simpl. lia.
Qed.

Lemma digits_w_split (a b : nat) :
  forall u : Z,
    digits_w (a + b) u = digits_w a (u / 10 ^ Z.of_nat b) ++ digits_w b u.
Proof.
  induction b as [|b IH]; intros u.
  - rewrite Nat.add_0_r. cbn [digits_w Z.of_nat]. rewrite Z.pow_0_r, Z.div_1_r.
    now rewrite app_nil_r.
  - rewrite Nat.add_succ_r. cbn [digits_w]. rewrite IH, <- app_assoc.
    rewrite Z.div_div by (try apply Z.pow_pos_nonneg; lia).
    rewrite Nat2Z.inj_succ, Z.pow_succ_r by lia. reflexivity.
Qed.

Lemma parseUint_digits_w (w : nat) :
  forall u acc : Z,
    0 <= u -> 0 <= acc ->
    acc * 10 ^ Z.of_nat w + u mod 10 ^ Z.of_nat w <= 2 ^ 64 - 1 ->
    parseUint acc (digits_w w u)
    = Value (acc * 10 ^ Z.of_nat w + u mod 10 ^ Z.of_nat w).
Proof.
  induction w as [|w IH]; intros u acc Hu Hacc Hfit.
  - cbn [digits_w parseUint Z.of_nat]. rewrite Z.pow_0_r, Z.mod_1_r. f_equal. lia.
  - cbn [digits_w]. rewrite parseUint_app.
    rewrite Nat2Z.inj_succ, Z.pow_succ_r in * by lia.
    assert (Hpow : 0 < 10 ^ Z.of_nat w) by (apply Z.pow_pos_nonneg; lia).
    pose proof (Z.rem_mul_r u 10 (10 ^ Z.of_nat w) ltac:(lia) Hpow) as Hsplit.
    pose proof (Z.mod_pos_bound u 10 ltac:(lia)) as Hd.
    pose proof (Z.mod_pos_bound (u / 10) (10 ^ Z.of_nat w) Hpow) as Hq.
    rewrite IH; [| apply Z.div_pos; lia | lia | nia].
    cbn [parseUint]. rewrite digit_val_digitChar by lia.
    destruct (Z.gtb_spec ((acc * 10 ^ Z.of_nat w + (u / 10) mod 10 ^ Z.of_nat w) * 10
                          + u mod 10) (2 ^ 64 - 1)) as [Hover|_]; [nia|].
    f_equal. nia.
Qed.

Lemma digitChar_not_sign (d : Z) :
  0 <= d <= 9 ->
  Ascii.eqb (digitChar d) "-" = false /\ Ascii.eqb (digitChar d) "+" = false.
Proof.
  intros Hd.
  assert (Hv : byte_val (digitChar d) = 48 + d).
  { unfold digitChar. rewrite byte_val_ascii_of_Z. apply Z.mod_small. lia. }
  split; apply Ascii.eqb_neq; intros E; rewrite E in Hv.
  - change (byte_val "-") with 45 in Hv. lia.
  - change (byte_val "+") with 43 in Hv. lia.
Qed.

(* Reading back a zero-padded number. *)
Lemma Atoi_digits_w (w : nat) (u : Z) :
  (1 <= w)%nat -> 0 <= u < 10 ^ Z.of_nat w -> u <= maxInt64 ->
  Atoi (digits_w w u) = u.
Proof.
  intros Hw Hu Hmax.
  assert (Hparse : parseUint 0 (digits_w w u) = Value u).
  { rewrite parseUint_digits_w; try lia.
    - rewrite Z.mod_small by lia. f_equal.
    - rewrite Z.mod_small by lia. unfold maxInt64 in Hmax. lia. }
  destruct w as [|w]; [lia|].
  replace (S w) with (1 + w)%nat in * by lia.
  rewrite digits_w_split in *. cbn [digits_w app] in *.
  set (d := (u / 10 ^ Z.of_nat w) mod 10) in *.
  assert (Hd : 0 <= d <= 9) by (pose proof (Z.mod_pos_bound (u / 10 ^ Z.of_nat w) 10); lia).
  destruct (digitChar_not_sign d Hd) as [E1 E2].
  unfold Atoi. rewrite E1, E2. cbn [orb]. rewrite Hparse.
  unfold maxInt64 in Hmax.
  destruct (Z.geb_spec u (2 ^ 63)); [lia | reflexivity].
Qed.

Lemma numDigits_from_le (fuel : nat) :
  forall (w : nat) (u : Z),
    (1 <= w)%nat -> u < 10 ^ Z.of_nat w -> (numDigits_from fuel u <= w)%nat.
Proof.
  induction fuel as [|fuel IH]; intros w u Hw Hu; cbn [numDigits_from]; [lia|].
  destruct (Z.ltb_spec u 10); [lia|].
  destruct w as [|[|w]]; [lia | simpl in Hu; lia |].
  apply le_n_S. apply IH; [lia|].
  rewrite Nat2Z.inj_succ, Z.pow_succ_r in Hu by lia.
  apply Z.div_lt_upper_bound; lia.
Qed.

Lemma numDigits_from_upper (fuel : nat) :
  forall u : Z,
    u < 10 ^ Z.of_nat (S fuel) -> u < 10 ^ Z.of_nat (numDigits_from fuel u).
Proof.
  induction fuel as [|fuel IH]; intros u Hu; cbn [numDigits_from]; [exact Hu|].
  destruct (Z.ltb_spec u 10); [simpl; lia|].
  rewrite Nat2Z.inj_succ, Z.pow_succ_r by lia.
  rewrite (Nat2Z.inj_succ (S fuel)), Z.pow_succ_r in Hu by lia.
  assert (u / 10 < 10 ^ Z.of_nat (numDigits_from fuel (u / 10))).
  { apply IH. apply Z.div_lt_upper_bound; lia. }
  pose proof (Z.div_mod u 10 ltac:(lia)). pose proof (Z.mod_pos_bound u 10 ltac:(lia)).
  lia.
Qed.

Lemma numDigits_pos (u : Z) : (1 <= numDigits u)%nat.
Proof.
  unfold numDigits. cbn [numDigits_from]. destruct (u <? 10); lia.
Qed.

(* A non-negative number below 10^w, formatted with width w >= 1, is its w
   decimal digits. *)
Lemma Sprintf_0d_small (w : nat) (v : Z) :
  (1 <= w)%nat -> 0 <= v < 10 ^ Z.of_nat w -> Sprintf_0d w v = digits_w w v.
Proof.
  intros Hw Hv. unfold Sprintf_0d, fmtInteger.
  destruct (Z.ltb_spec v 0); [lia|].
  rewrite Z.abs_eq by lia.
  rewrite Nat.max_l; [reflexivity|].
  apply numDigits_from_le; [exact Hw | lia].
Qed.

Lemma countDigits_nonneg (n : Z) :
  0 <= n -> int64 n ->
  countDigits n = Z.of_nat (numDigits n) /\ n < 10 ^ Z.of_nat (numDigits n).
Proof.
  intros Hn Hi. split.
  - unfold countDigits, Sprintf_d, fmtInteger, len.
    destruct (Z.ltb_spec n 0); [lia|].
    rewrite Z.abs_eq by lia. rewrite digits_w_length. reflexivity.
  - apply numDigits_from_upper.
    apply Z.le_lt_trans with maxInt64; [int64_lia|].
    unfold maxInt64. vm_compute. reflexivity.
Qed.

Lemma countDigits_pos (n : Z) : 1 <= countDigits n.
Proof.
  unfold countDigits, Sprintf_d, fmtInteger, len.
  pose proof (numDigits_pos (Z.abs n)).
  destruct (n <? 0); cbn [length]; rewrite digits_w_length; lia.
Qed.

(** ** blockSize *)

Lemma all25_length (k : nat) : length (all25 k) = (2 * k)%nat.
Proof.
  induction k as [|k IH]; cbn [all25]; [reflexivity|].
  rewrite length_app, IH. simpl. lia.
Qed.

Lemma Atoi_all25 (k : nat) : (k <= 9)%nat -> Atoi (all25 k) = full25 k.
Proof.
  intros Hk. do 10 (destruct k as [|k]; [vm_compute; reflexivity|]). lia.
Qed.

Lemma Atoi_all25_10 : Atoi (all25 10) = maxInt64.
Proof. vm_compute. reflexivity. Qed.

Lemma full25_mono (k : nat) : 0 <= full25 k < full25 (S k).
Proof.
  induction k as [|k IH]; cbn [full25] in *; lia.
Qed.

Lemma parseUint_nonneg (s : gostring) :
  forall acc u : Z, 0 <= acc -> parseUint acc s = Value u -> 0 <= u.
Proof.
  induction s as [|c s IH]; intros acc u Hacc H; cbn [parseUint] in H.
  - injection H as <-. exact Hacc.
  - unfold digit_val in H. cbv zeta in H.
    destruct ((48 <=? byte_val c) && (byte_val c <=? 57)) eqn:E; [|discriminate].
    apply andb_true_iff in E. destruct E as [E1 E2].
    apply Z.leb_le in E1. apply Z.leb_le in E2.
    destruct (byte_val c - 48 + acc * 10 >? 2 ^ 64 - 1) eqn:E3;
      rewrite (Z.add_comm (acc * 10)) in H; rewrite E3 in H; [discriminate|].
    apply IH in H; [exact H | lia].
Qed.

Lemma Atoi_int64 (s : gostring) : int64 (Atoi s).
Proof.
  assert (Hbody : forall (neg : bool) (body : gostring),
             int64 match body with
                   | [] => 0
                   | _ :: _ =>
                       match parseUint 0 body with
                       | SyntaxError => 0
                       | RangeError => if neg then minInt64 else maxInt64
                       | Value u =>
                           if neg then (if u >? 2 ^ 63 then minInt64 else - u)
                           else (if u >=? 2 ^ 63 then maxInt64 else u)
                       end
                   end).
  { intros neg [|b body']; [int64_lia|].
    destruct (parseUint 0 (b :: body')) as [u| |] eqn:E.
    - apply parseUint_nonneg in E; [|lia].
      destruct neg.
      + destruct (Z.gtb_spec u (2 ^ 63)); int64_lia.
      + destruct (Z.geb_spec u (2 ^ 63)); int64_lia.
    - int64_lia.
    - destruct neg; int64_lia. }
  unfold Atoi. destruct s as [|c rest]; [int64_lia|]. cbv zeta. apply Hbody.
Qed.

Lemma blockSize_loop_fuel (n : Z) (blockI : gostring) :
  fuel_monotone (fun fuel => blockSize_loop fuel n blockI).
Proof.
  unfold fuel_monotone. intros k. revert blockI.
  induction k as [|k IH]; intros blockI m r Hle H Hr; [simpl in H; congruence|].
  destruct m as [|m]; [lia|]. cbn [blockSize_loop] in *. cbv zeta in *.
  destruct (Atoi (blockI ++ lit "25") >? n); [exact H|].
  apply IH; [lia | exact H | exact Hr].
Qed.

Lemma blockSize_fuel (n : Z) : fuel_monotone (fun fuel => blockSize fuel n).
Proof.
  intros k m r Hle H Hr. unfold blockSize in *.
  apply bind_fuel with (x := blockSize_loop k n []) (k := fun b => Done (len b)); auto.
  intros Hne. apply (blockSize_loop_fuel n [] k m); [exact Hle | reflexivity | exact Hne].
Qed.

(* Below the largest int64 the loop stops within ten turns, on the last
   all-25 number that does not exceed n. *)
Lemma blockSize_loop_spec (n : Z) :
  n < maxInt64 ->
  forall (fuel k : nat),
    (k <= 9)%nat -> (11 <= fuel + k)%nat ->
    exists h : nat,
      (k <= h <= 9)%nat /\
      blockSize_loop fuel n (all25 k) = Done (all25 h) /\
      ((k < h)%nat -> full25 h <= n) /\
      (forall j, (h < j <= 9)%nat -> n < full25 j).
Proof.
  intros Hn. induction fuel as [|fuel IH]; intros k Hk Hfuel; [lia|].
  cbn [blockSize_loop]. cbv zeta. change (all25 k ++ lit "25") with (all25 (S k)).
  destruct (Z.gtb_spec (Atoi (all25 (S k))) n) as [Hgt|Hle].
  - exists k. split; [lia|]. split; [reflexivity|]. split; [lia|].
    intros j Hj.
    assert (Hmono : forall i : nat, full25 (S k) <= full25 (S k + i)).
    { induction i as [|i IHi]; [rewrite Nat.add_0_r; lia|].
      rewrite Nat.add_succ_r. pose proof (full25_mono (S k + i)). lia. }
    destruct (Nat.eq_dec k 9) as [->|Hk9]; [lia|].
    rewrite Atoi_all25 in Hgt by lia.
    specialize (Hmono (j - S k)%nat). replace (S k + (j - S k))%nat with j in Hmono by lia.
    lia.
  - destruct (Nat.eq_dec k 9) as [->|Hk9].
    + rewrite Atoi_all25_10 in Hle. lia.
    + rewrite Atoi_all25 in Hle by lia.
      destruct (IH (S k) ltac:(lia) ltac:(lia)) as (h & Hh & Hrun & Hfull & Hnext).
      exists h. split; [lia|]. split; [exact Hrun|]. split; [|exact Hnext].
      intros _. destruct (Nat.eq_dec h (S k)) as [->|]; [exact Hle|].
      apply Hfull. lia.
Qed.

(* On the largest int64 the loop never stops. *)
Lemma blockSize_loop_diverges (n : Z) :
  maxInt64 <= n ->
  forall (fuel : nat) (blockI : gostring), blockSize_loop fuel n blockI = OutOfFuel.
Proof.
  intros Hn. induction fuel as [|fuel IH]; intros blockI; [reflexivity|].
  cbn [blockSize_loop]. cbv zeta.
  pose proof (Atoi_int64 (blockI ++ lit "25")) as Hi.
  destruct (Z.gtb_spec (Atoi (blockI ++ lit "25")) n); [int64_lia | apply IH].
Qed.

(* What a returned blockSize tells. *)
Lemma blockSize_inv (fuel : nat) (n bSize : Z) :
  blockSize fuel n = Done bSize ->
  exists h : nat,
    (h <= 9)%nat /\ bSize = 2 * Z.of_nat h /\ n < maxInt64 /\
    (forall fuel', (11 <= fuel')%nat -> blockSize fuel' n = Done bSize) /\
    ((1 <= h)%nat -> full25 h <= n) /\
    (forall j, (h < j <= 9)%nat -> n < full25 j).
Proof.
  intros H.
  destruct (Z.lt_ge_cases n maxInt64) as [Hn|Hn].
  - destruct (blockSize_loop_spec n Hn 11 0 ltac:(lia) ltac:(lia))
      as (h & Hh & Hrun & Hfull & Hnext).
    assert (Hbs : blockSize 11 n = Done (2 * Z.of_nat h)).
    { unfold blockSize. change (@nil ascii) with (all25 0). rewrite Hrun.
      cbn [bind]. unfold len. rewrite all25_length. f_equal. lia. }
    pose proof (fuel_monotone_done _ _ _ _ _ (blockSize_fuel n) H Hbs) as ->.
    exists h. split; [lia|]. split; [reflexivity|]. split; [exact Hn|].
    split; [|split; [intros; apply Hfull; lia | exact Hnext]].
    intros fuel' Hf. apply (blockSize_fuel n 11%nat fuel'); [lia | exact Hbs | discriminate].
  - unfold blockSize in H. rewrite blockSize_loop_diverges in H by lia. discriminate.
Qed.

(** ** Letters, codes and blocks *)

Lemma isUpper_check (s : gostring) :
  forallb (fun c => (65 <=? byte_val c) && (byte_val c <=? 90)) s = true ->
  Forall isUpper s.
Proof.
  intros H. rewrite forallb_forall in H. apply Forall_forall. intros c Hc.
  specialize (H c Hc). apply andb_true_iff in H. unfold isUpper. lia.
Qed.

Lemma ascii_of_byte_val (c : ascii) : ascii_of_Z (byte_val c) = c.
Proof.
  unfold ascii_of_Z. pose proof (byte_val_range c) as H.
  rewrite Z.mod_small by lia. unfold byte_val.
  rewrite N2Z.id. apply ascii_N_embedding.
Qed.

Lemma string_of_rune_byte (c : ascii) :
  byte_val c < 128 -> string_of_rune (byte_val c) = [c].
Proof.
  intros Hc. pose proof (byte_val_range c) as Hr. unfold string_of_rune.
  destruct (Z.ltb_spec (byte_val c) 0); [lia|].
  destruct (Z.ltb_spec 1114111 (byte_val c)); [lia|].
  destruct (Z.leb_spec 55296 (byte_val c)); [lia|]. cbn [orb andb].
  destruct (Z.ltb_spec (byte_val c) 128); [|lia].
  now rewrite ascii_of_byte_val.
Qed.

Lemma decodeRune_byte (c : ascii) (s : gostring) :
  byte_val c < 128 -> decodeRune (c :: s) = (byte_val c, 1%nat).
Proof.
  intros Hc. unfold decodeRune. cbn [map].
  destruct (Z.ltb_spec (byte_val c) 128); [reflexivity | lia].
Qed.

Lemma runes_from_ascii (s : gostring) :
  forall fuel : nat,
    (length s <= fuel)%nat -> Forall (fun c => byte_val c < 128) s ->
    runes_from fuel s = map byte_val s.
Proof.
  induction s as [|c s IH]; intros fuel Hfuel Hs.
  - destruct fuel; reflexivity.
  - destruct fuel as [|fuel]; [simpl in Hfuel; lia|].
    inversion Hs as [|? ? Hc Hs']; subst.
    cbn [runes_from]. rewrite decodeRune_byte by exact Hc. cbn [skipn map].
    f_equal. apply IH; [simpl in Hfuel; lia | exact Hs'].
Qed.

Lemma letterDigit_upper (v : Z) : 65 <= v <= 90 -> letterDigit v = v - 65.
Proof.
  intros Hv.
  assert (Hall : forallb (fun k => letterDigit (65 + Z.of_nat k) =? Z.of_nat k)
                         (seq 0 26) = true) by (vm_compute; reflexivity).
  rewrite forallb_forall in Hall.
  specialize (Hall (Z.to_nat (v - 65))). rewrite in_seq in Hall.
  specialize (Hall ltac:(lia)). apply Z.eqb_eq in Hall.
  rewrite Z2Nat.id in Hall by lia.
  replace (65 + (v - 65)) with v in Hall by lia. exact Hall.
Qed.

Lemma letter_code (c : ascii) : isUpper c -> letter (code c) = c.
Proof.
  unfold isUpper, code, letter. intros Hc.
  assert (Hall : forallb (fun k => byte_val (nth k alphabet zero) =? 65 + Z.of_nat k)
                         (seq 0 26) = true) by (vm_compute; reflexivity).
  rewrite forallb_forall in Hall.
  specialize (Hall (Z.to_nat (byte_val c - 65))). rewrite in_seq in Hall.
  specialize (Hall ltac:(lia)). apply Z.eqb_eq in Hall.
  rewrite Z2Nat.id in Hall by lia.
  rewrite <- (ascii_of_byte_val (nth _ alphabet zero)), Hall.
  replace (65 + (byte_val c - 65)) with (byte_val c) by lia.
  apply ascii_of_byte_val.
Qed.

Lemma letter_ascii (k : Z) : byte_val (letter k) < 128.
Proof.
  unfold letter.
  assert (Hall : forallb (fun c => byte_val c <? 128) (zero :: alphabet) = true)
    by (vm_compute; reflexivity).
  rewrite forallb_forall in Hall. apply Z.ltb_lt, Hall.
  destruct (nth_in_or_default (Z.to_nat k) alphabet zero) as [Hin | ->];
    [now right | now left].
Qed.

Lemma letterCodes_upper (msg : gostring) :
  Forall isUpper msg ->
  letterCodes msg = map (fun c => digits_w 2 (code c)) msg.
Proof.
  intros Hmsg. unfold letterCodes, runes.
  rewrite runes_from_ascii; [| lia |].
  - rewrite map_map. apply map_ext_in. intros c Hc.
    rewrite Forall_forall in Hmsg. specialize (Hmsg c Hc). unfold isUpper in Hmsg.
    rewrite letterDigit_upper by exact Hmsg.
    apply Sprintf_0d_small; [lia|]. simpl. unfold code. lia.
  - eapply Forall_impl; [|exact Hmsg]. unfold isUpper. intros c Hc. lia.
Qed.

Lemma digitChar_val (d : Z) : 0 <= d <= 9 -> byte_val (digitChar d) = 48 + d.
Proof.
  intros Hd. unfold digitChar. rewrite byte_val_ascii_of_Z. apply Z.mod_small. lia.
Qed.

Lemma digits_w_isDigit (w : nat) : forall u : Z, Forall isDigit (digits_w w u).
Proof.
  induction w as [|w IH]; intros u; cbn [digits_w]; [constructor|].
  apply Forall_app. split; [apply IH|]. constructor; [|constructor].
  unfold isDigit. pose proof (Z.mod_pos_bound u 10 ltac:(lia)).
  rewrite digitChar_val by lia. lia.
Qed.

Lemma digits_w_mod (w : nat) :
  forall u : Z, digits_w w (u mod 10 ^ Z.of_nat w) = digits_w w u.
Proof.
  induction w as [|w IH]; intros u; cbn [digits_w]; [reflexivity|].
  rewrite Nat2Z.inj_succ, Z.pow_succ_r by lia.
  assert (Hpow : 0 < 10 ^ Z.of_nat w) by (apply Z.pow_pos_nonneg; lia).
  pose proof (Z.rem_mul_r u 10 (10 ^ Z.of_nat w) ltac:(lia) Hpow) as Hsplit.
  pose proof (Z.mod_pos_bound u 10 ltac:(lia)) as Hd.
  set (x := u mod (10 * 10 ^ Z.of_nat w)) in *.
  assert (Hx10 : x mod 10 = u mod 10).
  { rewrite Hsplit, (Z.mul_comm 10), Z.mod_add by lia. apply Z.mod_mod. lia. }
  assert (Hxq : x / 10 = (u / 10) mod 10 ^ Z.of_nat w).
  { rewrite Hsplit, (Z.mul_comm 10), Z.div_add by lia.
    rewrite (Z.div_small (u mod 10)) by lia. lia. }
  rewrite Hx10, Hxq, IH. reflexivity.
Qed.

Lemma pow100 (k : nat) : 100 ^ Z.of_nat k = 10 ^ Z.of_nat (2 * k).
Proof.
  rewrite Nat2Z.inj_mul, Z.pow_mul_r by lia. reflexivity.
Qed.

Lemma full25_alt (k : nat) : full25 (S k) = 25 * 100 ^ Z.of_nat k + full25 k.
Proof.
  induction k as [|k IH]; [reflexivity|].
  cbn [full25] in *. rewrite Nat2Z.inj_succ, Z.pow_succ_r by lia. lia.
Qed.

Lemma full25_lt (k : nat) : full25 k < 100 ^ Z.of_nat k.
Proof.
  induction k as [|k IH]; [simpl; lia|].
  cbn [full25]. rewrite Nat2Z.inj_succ, Z.pow_succ_r by lia. lia.
Qed.

Lemma block_value_bound (codes : list Z) :
  Forall isCode codes -> 0 <= block_value codes <= full25 (length codes).
Proof.
  induction 1 as [|c codes Hc _ IH]; cbn [block_value length]; [simpl; lia|].
  rewrite full25_alt. unfold isCode in Hc. unfold len.
  assert (0 < 100 ^ Z.of_nat (length codes)) by (apply Z.pow_pos_nonneg; lia).
  nia.
Qed.

Lemma pairs_length (codes : list Z) : length (pairs codes) = (2 * length codes)%nat.
Proof.
  unfold pairs. induction codes as [|c codes IH]; [reflexivity|].
  cbn [map concat length]. rewrite length_app, digits_w_length, IH. lia.
Qed.

(* A block string is the zero-padded decimal writing of its value. *)
Lemma pairs_digits (codes : list Z) :
  Forall isCode codes ->
  pairs codes = digits_w (2 * length codes) (block_value codes).
Proof.
  induction 1 as [|c codes Hc Hcodes IH]; [reflexivity|].
  unfold pairs in *. cbn [map concat block_value length]. rewrite IH.
  replace (2 * S (length codes))%nat with (2 + 2 * length codes)%nat by lia.
  rewrite digits_w_split. unfold len. rewrite <- pow100.
  pose proof (block_value_bound codes Hcodes) as Hb.
  pose proof (full25_lt (length codes)) as Hf.
  assert (Hpow : 0 < 100 ^ Z.of_nat (length codes)) by (apply Z.pow_pos_nonneg; lia).
  f_equal.
  - f_equal. rewrite Z.div_add_l by lia.
    rewrite Z.div_small by lia. lia.
  - rewrite <- (digits_w_mod _ (c * _ + _)), <- pow100.
    rewrite Z.add_comm, Z.mod_add by lia. rewrite Z.mod_small by lia. reflexivity.
Qed.

Lemma Atoi_pairs (codes : list Z) :
  Forall isCode codes -> (1 <= length codes <= 9)%nat ->
  Atoi (pairs codes) = block_value codes.
Proof.
  intros Hc Hl. rewrite pairs_digits by exact Hc.
  pose proof (block_value_bound codes Hc) as Hb.
  pose proof (full25_lt (length codes)) as Hf.
  assert (Hmax : full25 (length codes) <= full25 9).
  { assert (Hmono : forall i j : nat, (i <= j)%nat -> full25 i <= full25 j).
    { intros i j Hij. induction Hij as [|j _ IHj]; [lia|].
      pose proof (full25_mono j). lia. }
    apply Hmono. lia. }
  apply Atoi_digits_w; [lia | rewrite <- pow100; lia |].
  change (full25 9) with 252525252525252525 in Hmax. unfold maxInt64. lia.
Qed.

(** ** The loops of encodeMessage *)

Lemma skipn_cons_nth {A : Type} (d : A) (l : list A) :
  forall k : nat, (k < length l)%nat -> skipn k l = nth k l d :: skipn (S k) l.
Proof.
  induction l as [|x l IH]; intros k Hk; [simpl in Hk; lia|].
  destruct k as [|k]; [reflexivity|].
  cbn [skipn nth]. apply IH. simpl in Hk. lia.
Qed.

Lemma pairs_cons (c : Z) (codes : list Z) :
  pairs (c :: codes) = digits_w 2 c ++ pairs codes.
Proof. reflexivity. Qed.

Lemma block_loop_spec (codes : list Z) (count : nat) :
  forall (k : nat) (i j : Z) (block : gostring),
    i + j = Z.of_nat k ->
    block_loop count i j (map (digits_w 2) codes) block
    = block ++ pairs (take_pad count (skipn k codes)).
Proof.
  induction count as [|count IH]; intros k i j block Hk; cbn [block_loop take_pad].
  - unfold pairs. simpl. now rewrite app_nil_r.
  - unfold len. rewrite length_map, Hk, Nat2Z.id.
    destruct (Z.ltb_spec (Z.of_nat k) (Z.of_nat (length codes))) as [Hlt|Hge].
    + rewrite (skipn_cons_nth 0 codes k) by lia.
      rewrite (IH (S k)) by lia.
      rewrite (nth_indep _ _ (digits_w 2 0)) by (rewrite length_map; lia).
      rewrite map_nth, pairs_cons, <- app_assoc. reflexivity.
    + assert (Hnil : forall m, (length codes <= m)%nat -> skipn m codes = [])
        by (intros m Hm; apply skipn_all2; exact Hm).
      rewrite (Hnil k) by lia. rewrite (IH (S k)) by lia.
      rewrite (Hnil (S k)) by lia.
      rewrite pairs_cons, <- app_assoc. reflexivity.
Qed.

Lemma windows_nil (fuel h : nat) : windows fuel h [] = [].
Proof. destruct fuel; reflexivity. Qed.

Lemma blocks_loop_S (fuel : nat) (half i : Z) (ms blocks : list gostring) :
  blocks_loop (S fuel) half i ms blocks
  = if i <? len ms then
      blocks_loop fuel half (add64 i half) ms
        (blocks ++ [block_loop (Z.to_nat half) i 0 ms []])
    else Done blocks.
Proof. reflexivity. Qed.

Lemma blocks_loop_spec (codes : list Z) (h : nat) :
  (1 <= h <= 9)%nat -> inMemory codes ->
  forall (fuel k : nat) (blocks : list gostring),
    (length (skipn k codes) <= fuel)%nat -> (k <= length codes + h)%nat ->
    blocks_loop (S fuel) (Z.of_nat h) (Z.of_nat k) (map (digits_w 2) codes) blocks
    = Done (blocks ++ map pairs (windows fuel h (skipn k codes))).
Proof.
  intros Hh Hmem. unfold inMemory, len in Hmem.
  change (2 ^ 48) with 281474976710656 in Hmem.
  induction fuel as [|fuel IH]; intros k blocks Hfuel Hk;
    rewrite blocks_loop_S; unfold len; rewrite length_map.
  - rewrite length_skipn in Hfuel.
    destruct (Z.ltb_spec (Z.of_nat k) (Z.of_nat (length codes))); [lia|].
    cbn [windows map]. now rewrite app_nil_r.
  - destruct (Z.ltb_spec (Z.of_nat k) (Z.of_nat (length codes))) as [Hlt|Hge].
    + rewrite Nat2Z.id.
      rewrite (block_loop_spec codes h k (Z.of_nat k) 0 []) by lia.
      assert (Ei : add64 (Z.of_nat k) (Z.of_nat h) = Z.of_nat (k + h))
        by (unfold add64; rewrite wrap64_id by int64_lia; lia).
      rewrite Ei.
      assert (Hrem : skipn k codes <> []).
      { intros E. apply (f_equal (@length Z)) in E. rewrite length_skipn in E.
        simpl in E. lia. }
      rewrite IH.
      * rewrite <- app_assoc. f_equal. cbn [app].
        destruct (skipn k codes) as [|x rem] eqn:Erem; [contradiction|].
        cbn [windows map]. rewrite <- Erem.
        rewrite skipn_skipn. replace (h + k)%nat with (k + h)%nat by lia. reflexivity.
      * rewrite length_skipn in *. lia.
      * lia.
    + assert (Hnil : skipn k codes = []) by (apply skipn_all2; lia).
      rewrite Hnil, windows_nil. cbn [map]. now rewrite app_nil_r.
Qed.

Lemma crypt_blocks_map (fuel : nat) (n k : Z) (w : nat) (f : gostring -> Z)
      (bs : list gostring) :
  (forall b, In b bs -> modpow fuel (Atoi b) k n = Done (f b)) ->
  crypt_blocks fuel n k w bs = Done (map (fun b => Sprintf_0d w (f b)) bs).
Proof.
  induction bs as [|b bs IH]; intros H; cbn [crypt_blocks map]; [reflexivity|].
  rewrite H by now left. cbn [bind].
  rewrite IH by (intros b' Hb'; apply H; now right). reflexivity.
Qed.

Lemma take_pad_length (count : nat) : forall l, length (take_pad count l) = count.
Proof.
  induction count as [|count IH]; intros l; [reflexivity|].
  destruct l; cbn [take_pad length]; now rewrite IH.
Qed.

Lemma take_pad_isCode (count : nat) :
  forall l, Forall isCode l -> Forall isCode (take_pad count l).
Proof.
  induction count as [|count IH]; intros l Hl; cbn [take_pad]; [constructor|].
  destruct Hl as [|x l Hx Hl].
  - constructor; [unfold isCode; lia | apply IH; constructor].
  - constructor; [exact Hx | now apply IH].
Qed.

Lemma take_pad_firstn (count : nat) :
  forall l, take_pad count l = firstn count l ++ repeat 23 (count - length l).
Proof.
  induction count as [|count IH]; intros l; [reflexivity|].
  destruct l as [|x l]; cbn [take_pad firstn length app].
  - rewrite IH. cbn [firstn length app]. rewrite firstn_nil.
    replace (S count - 0)%nat with (S (count - 0)) by lia. reflexivity.
  - rewrite IH. reflexivity.
Qed.

Lemma windows_In (fuel h : nat) :
  forall (l : list Z) (w : list Z),
    Forall isCode l -> In w (windows fuel h l) ->
    length w = h /\ Forall isCode w.
Proof.
  induction fuel as [|fuel IH]; intros l w Hl Hw; [destruct Hw|].
  destruct l as [|x l]; [destruct Hw|]. cbn [windows] in Hw.
  destruct Hw as [<-|Hw].
  - split; [apply take_pad_length | now apply take_pad_isCode].
  - apply IH with (skipn h (x :: l)); [|exact Hw].
    rewrite <- (firstn_skipn h (x :: l)) in Hl. apply Forall_app in Hl. tauto.
Qed.

(* The blocks, put end to end, are the message and its padding. *)
Lemma windows_concat (h : nat) :
  (1 <= h)%nat ->
  forall (fuel : nat) (l : list Z),
    (length l <= fuel)%nat ->
    concat (windows fuel h l)
    = l ++ repeat 23 ((h - length l mod h) mod h).
Proof.
  intros Hh. induction fuel as [|fuel IH]; intros l Hfuel.
  - destruct l; [|simpl in Hfuel; lia]. cbn [windows concat length app].
    rewrite Nat.Div0.mod_0_l, Nat.sub_0_r, Nat.Div0.mod_same. reflexivity.
  - destruct l as [|x l].
    + cbn [windows concat length app].
      rewrite Nat.Div0.mod_0_l, Nat.sub_0_r, Nat.Div0.mod_same. reflexivity.
    + cbn [windows concat]. cbn [length] in Hfuel.
      assert (Hm : length (x :: l) = S (length l)) by reflexivity.
      set (m := x :: l) in *.
      rewrite IH by (rewrite length_skipn; lia).
      rewrite take_pad_firstn, length_skipn.
      destruct (Nat.le_gt_cases h (length m)) as [Hge|Hlt].
      * replace (h - length m)%nat with 0%nat by lia. cbn [repeat].
        rewrite app_nil_r, app_assoc, firstn_skipn. do 2 f_equal.
        replace (length m) with ((length m - h) + 1 * h)%nat at 2 by lia.
        now rewrite Nat.Div0.mod_add.
      * rewrite skipn_all2 by lia. rewrite firstn_all2 by lia.
        replace (length m - h)%nat with 0%nat by lia.
        rewrite Nat.Div0.mod_0_l, Nat.sub_0_r, Nat.Div0.mod_same.
        cbn [repeat app]. rewrite app_nil_r. f_equal. f_equal.
        rewrite (Nat.mod_small (length m)) by lia.
        rewrite Nat.mod_small; [reflexivity|]. lia.
Qed.

(** ** The loops of decodeMessage *)

Lemma split_chunks_S (fuel cb : nat) (l : gostring) :
  l <> [] ->
  split_chunks (S fuel) cb l
  = if (length l <? cb)%nat then None
    else option_map (cons (chunk_text (firstn cb l)))
                    (split_chunks fuel cb (skipn cb l)).
Proof. destruct l; [contradiction | reflexivity]. Qed.

Lemma nonempty_length {A : Type} (l : list A) : (1 <= length l)%nat -> l <> [].
Proof. destruct l; simpl; [lia | discriminate]. Qed.

Lemma chunk_text_ascii (l : gostring) :
  Forall (fun c => byte_val c < 128) l -> chunk_text l = l.
Proof.
  unfold chunk_text. induction 1 as [|c l Hc _ IH]; [reflexivity|].
  cbn [map concat]. rewrite IH, string_of_rune_byte by exact Hc. reflexivity.
Qed.

Lemma chunk_text_app (l l' : gostring) :
  chunk_text (l ++ l') = chunk_text l ++ chunk_text l'.
Proof. unfold chunk_text. now rewrite map_app, concat_app. Qed.

Lemma chunk_loop_spec (msg : gostring) (count : nat) :
  forall (k : nat) (i j : Z) (block : gostring),
    i + j = Z.of_nat k ->
    ((k + count <= length msg)%nat ->
     chunk_loop count i j msg block
     = Done (block ++ chunk_text (firstn count (skipn k msg)))) /\
    ((k <= length msg < k + count)%nat ->
     chunk_loop count i j msg block = Abort BadBlockLength).
Proof.
  induction count as [|count IH]; intros k i j block Hk; cbn [chunk_loop].
  - split; [|lia]. intros _. cbn [firstn]. unfold chunk_text. simpl.
    now rewrite app_nil_r.
  - unfold len. rewrite Hk, Nat2Z.id.
    destruct (Z.geb_spec (Z.of_nat k) (Z.of_nat (length msg))) as [Hge|Hlt].
    + split; [lia | reflexivity].
    + destruct (IH (S k) i (j + 1)
                  (block ++ string_of_rune (byte_val (nth k msg zero)))
                  ltac:(lia)) as [Hdone Habort].
      split; intros Hlen.
      * rewrite Hdone by lia.
        rewrite (skipn_cons_nth zero msg k) by lia. cbn [firstn].
        rewrite <- app_assoc. reflexivity.
      * apply Habort. lia.
Qed.

Lemma chunks_loop_S (fuel : nat) (cbSize i : Z) (msg : gostring)
      (cBlocks : list gostring) :
  chunks_loop (S fuel) cbSize i msg cBlocks
  = if i <? len msg then
      block <- chunk_loop (Z.to_nat cbSize) i 0 msg [] ;;
      chunks_loop fuel cbSize (add64 i cbSize) msg (cBlocks ++ [block])
    else Done cBlocks.
Proof. reflexivity. Qed.

Lemma chunks_loop_spec (msg : gostring) (cb : nat) :
  (1 <= cb)%nat -> len msg <= maxInt64 ->
  forall (fuel k : nat) (cBlocks : list gostring),
    (k <= length msg)%nat -> (length (skipn k msg) <= fuel)%nat ->
    chunks_loop (S fuel) (Z.of_nat cb) (Z.of_nat k) msg cBlocks
    = match split_chunks fuel cb (skipn k msg) with
      | Some cs => Done (cBlocks ++ cs)
      | None => Abort BadBlockLength
      end.
Proof.
  intros Hcb Hmem. unfold len in Hmem.
  induction fuel as [|fuel IH]; intros k cBlocks Hk Hfuel;
    rewrite chunks_loop_S; unfold len; rewrite length_skipn in Hfuel.
  - destruct (Z.ltb_spec (Z.of_nat k) (Z.of_nat (length msg))); [lia|].
    cbn [split_chunks]. now rewrite app_nil_r.
  - destruct (Z.ltb_spec (Z.of_nat k) (Z.of_nat (length msg))) as [Hlt|Hge].
    + rewrite Nat2Z.id.
      destruct (chunk_loop_spec msg cb k (Z.of_nat k) 0 [] ltac:(lia))
        as [Hdone Habort].
      assert (Hrem : length (skipn k msg) = (length msg - k)%nat)
        by apply length_skipn.
      rewrite split_chunks_S by (apply nonempty_length; lia).
      destruct (Nat.ltb_spec (length (skipn k msg)) cb) as [Hshort|Hfull].
      * rewrite Habort by lia. reflexivity.
      * rewrite Hdone by lia. cbn [bind app].
        assert (Ei : add64 (Z.of_nat k) (Z.of_nat cb) = Z.of_nat (k + cb))
          by (unfold add64; rewrite wrap64_id by int64_lia; lia).
        rewrite Ei, IH by (try rewrite length_skipn; lia).
        rewrite skipn_skipn. replace (cb + k)%nat with (k + cb)%nat by lia.
        destruct (split_chunks fuel cb (skipn (k + cb) msg)) as [cs|];
          cbn [option_map]; [|reflexivity].
        now rewrite <- app_assoc.
    + rewrite skipn_all2 by lia. cbn [split_chunks]. now rewrite app_nil_r.
Qed.

Lemma split_chunks_none (cb : nat) :
  (1 <= cb)%nat ->
  forall (fuel : nat) (l : gostring),
    (length l <= fuel)%nat ->
    (split_chunks fuel cb l = None <-> (length l mod cb <> 0)%nat).
Proof.
  intros Hcb. induction fuel as [|fuel IH]; intros l Hfuel.
  - destruct l; [|simpl in Hfuel; lia]. cbn [split_chunks length].
    rewrite Nat.Div0.mod_0_l. split; [discriminate | congruence].
  - destruct l as [|x l].
    + cbn [split_chunks length]. rewrite Nat.Div0.mod_0_l.
      split; [discriminate | congruence].
    + cbn [length] in Hfuel.
      assert (Hm : length (x :: l) = S (length l)) by reflexivity.
      set (m := x :: l) in *.
      rewrite split_chunks_S by (apply nonempty_length; lia).
      destruct (Nat.ltb_spec (length m) cb) as [Hshort|Hfull].
      * rewrite Nat.mod_small by lia. split; [lia | reflexivity].
      * specialize (IH (skipn cb m)). rewrite length_skipn in IH.
        specialize (IH ltac:(lia)).
        assert (Emod : (length m mod cb = (length m - cb) mod cb)%nat).
        { replace (length m) with ((length m - cb) + 1 * cb)%nat at 1 by lia.
          apply Nat.Div0.mod_add. }
        rewrite Emod, <- IH.
        destruct (split_chunks fuel cb (skipn cb m)); cbn [option_map];
          split; congruence.
Qed.

Lemma split_chunks_concat (cb : nat) (cbs : list gostring) :
  (1 <= cb)%nat ->
  Forall (fun b => length b = cb /\ Forall (fun c => byte_val c < 128) b) cbs ->
  forall fuel : nat,
    (length (concat cbs) <= fuel)%nat ->
    split_chunks fuel cb (concat cbs) = Some cbs.
Proof.
  intros Hcb. induction 1 as [|b cbs [Hlen Hascii] _ IH]; intros fuel Hfuel.
  - destruct fuel; reflexivity.
  - cbn [concat] in *. rewrite length_app in Hfuel.
    destruct fuel as [|fuel]; [lia|].
    rewrite split_chunks_S by (apply nonempty_length; rewrite length_app; lia).
    destruct (Nat.ltb_spec (length (b ++ concat cbs)) cb) as [Hshort|_].
    { rewrite length_app in Hshort. lia. }
    rewrite firstn_app, skipn_app, Hlen, Nat.sub_diag.
    rewrite firstn_all2, skipn_all2 by lia. cbn [firstn skipn app].
    rewrite app_nil_r, chunk_text_ascii by exact Hascii.
    rewrite IH by lia. reflexivity.
Qed.

Lemma chunks_loop_fuel (cbSize : Z) (msg : gostring) :
  forall (i : Z) (cBlocks : list gostring),
    fuel_monotone (fun fuel => chunks_loop fuel cbSize i msg cBlocks).
Proof.
  unfold fuel_monotone. intros i cBlocks k. revert i cBlocks.
  induction k as [|k IH]; intros i cBlocks m r Hle H Hr; [simpl in H; congruence|].
  destruct m as [|m]; [lia|]. rewrite chunks_loop_S in *.
  destruct (i <? len msg); [|exact H].
  destruct (chunk_loop (Z.to_nat cbSize) i 0 msg []) as [b|f|];
    cbn [bind] in *; try exact H.
  apply IH; [lia | exact H | exact Hr].
Qed.

Lemma digits_w_2 (c : Z) :
  digits_w 2 c = [digitChar ((c / 10) mod 10); digitChar (c mod 10)].
Proof. reflexivity. Qed.

Lemma digitChar_ascii (d : Z) : 0 <= d <= 9 -> byte_val (digitChar d) < 128.
Proof. intros Hd. rewrite digitChar_val by exact Hd. lia. Qed.

Lemma block_letters_cons (c0 c1 : ascii) (b : gostring) :
  block_letters (c0 :: c1 :: b)
  = let letterint := Atoi (string_of_rune (byte_val c0) ++ string_of_rune (byte_val c1)) in
    if (letterint <? 0) || (len alphabet <=? letterint) then Abort IndexOutOfRange
    else
      rest <- block_letters b ;;
      Done (string_of_rune (byte_val (nth (Z.to_nat letterint) alphabet zero)) ++ rest).
Proof. reflexivity. Qed.

Lemma block_letters_pairs (codes : list Z) :
  Forall isCode codes -> block_letters (pairs codes) = Done (map letter codes).
Proof.
  induction 1 as [|c codes Hc _ IH]; [reflexivity|].
  rewrite pairs_cons, digits_w_2. cbn [app]. rewrite block_letters_cons. cbv zeta.
  unfold isCode in Hc.
  pose proof (Z.mod_pos_bound c 10 ltac:(lia)) as H0.
  pose proof (Z.mod_pos_bound (c / 10) 10 ltac:(lia)) as H1.
  rewrite !string_of_rune_byte by (apply digitChar_ascii; lia).
  change ([digitChar ((c / 10) mod 10)] ++ [digitChar (c mod 10)])
    with (digits_w 2 c).
  rewrite Atoi_digits_w; [| lia | simpl; lia | unfold maxInt64; simpl; lia].
  change (len alphabet) with 26.
  destruct (Z.ltb_spec c 0); [lia|]. destruct (Z.leb_spec 26 c); [lia|].
  cbn [orb]. rewrite IH. cbn [bind map].
  fold (letter c). rewrite string_of_rune_byte by apply letter_ascii. reflexivity.
Qed.

Lemma blocks_letters_pairs (ws : list (list Z)) :
  Forall (Forall isCode) ws ->
  blocks_letters (map pairs ws) = Done (map letter (concat ws)).
Proof.
  induction 1 as [|w ws Hw _ IH]; [reflexivity|].
  cbn [map blocks_letters concat].
  rewrite block_letters_pairs by exact Hw. cbn [bind]. rewrite IH. cbn [bind].
  now rewrite map_app.
Qed.

Lemma removeSpaces_digits (cbs : list gostring) :
  Forall (Forall isDigit) cbs ->
  removeSpaces (concat (map (fun cb => cb ++ lit " ") cbs)) = concat cbs.
Proof.
  unfold removeSpaces. induction 1 as [|b cbs Hb _ IH]; [reflexivity|].
  cbn [map concat]. rewrite !filter_app, IH. cbn [lit filter].
  change (negb (Ascii.eqb " " " ")) with false. cbv iota. rewrite app_nil_r.
  f_equal. apply forallb_filter_id. apply forallb_forall. intros c Hc.
  rewrite Forall_forall in Hb. specialize (Hb c Hc). unfold isDigit in Hb.
  apply negb_true_iff, Ascii.eqb_neq. intros ->.
  change (byte_val " ") with 32 in Hb. lia.
Qed.

(** ** encodeMessage returns on every message *)

Lemma blocks_loop_fuel (half : Z) (ms : list gostring) :
  forall (i : Z) (blocks : list gostring),
    fuel_monotone (fun fuel => blocks_loop fuel half i ms blocks).
Proof.
  unfold fuel_monotone. intros i blocks k. revert i blocks.
  induction k as [|k IH]; intros i blocks m r Hle H Hr; [simpl in H; congruence|].
  destruct m as [|m]; [lia|]. rewrite blocks_loop_S in *.
  destruct (i <? len ms); [|exact H].
  apply IH; [lia | exact H | exact Hr].
Qed.

Lemma crypt_blocks_fuel (n k : Z) (w : nat) (bs : list gostring) :
  fuel_monotone (fun fuel => crypt_blocks fuel n k w bs).
Proof.
  unfold fuel_monotone. induction bs as [|b bs IH]; intros f m r Hle H Hr;
    cbn [crypt_blocks] in *; [exact H|].
  apply bind_fuel with (x := modpow f (Atoi b) k n) (k := fun c =>
    rest <- crypt_blocks f n k w bs ;; Done (Sprintf_0d w c :: rest)); auto.
  - intros Hne. apply (modpow_fuel (Atoi b) k n f m); [exact Hle | reflexivity | exact Hne].
  - intros c _ Hc.
    apply bind_fuel with (x := crypt_blocks f n k w bs) (k := fun rest =>
      Done (Sprintf_0d w c :: rest)); auto.
    intros Hne. apply (IH f m); [exact Hle | reflexivity | exact Hne].
Qed.

Lemma encodeMessage_fuel (n e : Z) (msg : gostring) :
  fuel_monotone (fun fuel => encodeMessage fuel n e msg).
Proof.
  intros f m r Hle H Hr. unfold encodeMessage in *. cbv zeta in *.
  apply bind_fuel with (x := blockSize f n) (k := fun bSize =>
    blocks <- blocks_loop f (Z.quot bSize 2) 0 (letterCodes msg) [] ;;
    cblocks <- crypt_blocks f n e (Z.to_nat (countDigits n)) blocks ;;
    Done (concat (map (fun cb => cb ++ lit " ") cblocks))); auto.
  - intros Hne. apply (blockSize_fuel n f m); [exact Hle | reflexivity | exact Hne].
  - intros bSize _ Hb.
    apply bind_fuel with (x := blocks_loop f (Z.quot bSize 2) 0 (letterCodes msg) [])
      (k := fun blocks =>
        cblocks <- crypt_blocks f n e (Z.to_nat (countDigits n)) blocks ;;
        Done (concat (map (fun cb => cb ++ lit " ") cblocks))); auto.
    + intros Hne.
      apply (blocks_loop_fuel _ _ _ _ f m); [exact Hle | reflexivity | exact Hne].
    + intros blocks _ Hbl.
      apply bind_fuel with
        (x := crypt_blocks f n e (Z.to_nat (countDigits n)) blocks)
        (k := fun cblocks => Done (concat (map (fun cb => cb ++ lit " ") cblocks)));
        auto.
      intros Hne.
      apply (crypt_blocks_fuel n e _ blocks f m); [exact Hle | reflexivity | exact Hne].
Qed.

Lemma runes_from_length (fuel : nat) :
  forall s : gostring, (length (runes_from fuel s) <= fuel)%nat.
Proof.
  induction fuel as [|fuel IH]; intros s.
  - destruct s; simpl; lia.
  - destruct s as [|c s]; [simpl; lia|].
    cbn [runes_from]. destruct (decodeRune (c :: s)) as [r w].
    cbn [length]. specialize (IH (skipn w (c :: s))). lia.
Qed.

Lemma letterCodes_length (msg : gostring) :
  (length (letterCodes msg) <= length msg)%nat.
Proof.
  unfold letterCodes, runes. rewrite length_map. apply runes_from_length.
Qed.

Lemma blocks_loop_total (ms : list gostring) (h : nat) :
  (1 <= h <= 9)%nat -> inMemory ms ->
  forall (fuel k : nat) (blocks : list gostring),
    (length ms - k < fuel)%nat -> (k <= length ms + h)%nat ->
    exists out, blocks_loop fuel (Z.of_nat h) (Z.of_nat k) ms blocks = Done out.
Proof.
  intros Hh Hmem. unfold inMemory, len in Hmem.
  change (2 ^ 48) with 281474976710656 in Hmem.
  induction fuel as [|fuel IH]; intros k blocks Hfuel Hk; [lia|].
  rewrite blocks_loop_S. unfold len.
  destruct (Z.ltb_spec (Z.of_nat k) (Z.of_nat (length ms))) as [Hlt|Hge].
  - assert (Ei : add64 (Z.of_nat k) (Z.of_nat h) = Z.of_nat (k + h))
      by (unfold add64; rewrite wrap64_id by int64_lia; lia).
    rewrite Ei. apply IH; lia.
  - eexists. reflexivity.
Qed.

Lemma mod_total (a n : Z) : n <> 0 -> exists r, mod_ a n = Done r.
Proof.
  intros Hn. unfold mod_, rem64.
  destruct (Z.eqb_spec n 0); [contradiction|]. cbn [bind].
  destruct ((Z.rem a n <? 0) && (n >? 0) || (Z.rem a n >? 0) && (n <? 0));
    eexists; reflexivity.
Qed.

(* With an exponent b >= 1 and a modulus n <> 0 modpow returns, whatever
   the base. *)
Lemma modpow_total (fuel : nat) :
  forall a b n : Z,
    1 <= b -> int64 b -> n <> 0 -> (Z.to_nat b <= fuel)%nat ->
    exists v, modpow fuel a b n = Done v.
Proof.
  induction fuel as [|fuel IH]; intros a b n Hb Hbi Hn Hfuel; [lia|].
  cbn [modpow]. destruct (Z.eqb_spec b 1) as [->|Hb1]; [eexists; reflexivity|].
  assert (Hh : 1 <= b / 2) by (apply Z.div_le_lower_bound; lia).
  assert (Hh2 : b / 2 < b) by (apply Z.div_lt; lia).
  rewrite div64_nonneg by (assumption || lia). cbn [bind].
  destruct (IH a (b / 2) n) as [y Hy]; try lia; [int64_lia|].
  rewrite Hy. cbn [bind].
  destruct (mod_total y n Hn) as [x Hx]. rewrite Hx. cbn [bind].
  rewrite rem64_nonneg by lia. cbn [bind].
  destruct (mod_total (mul64 x x) n Hn) as [m Hm]. rewrite Hm.
  destruct (b mod 2 =? 0); [eexists; reflexivity|]. cbn [bind].
  apply mod_total. exact Hn.
Qed.

Lemma crypt_blocks_total (fuel : nat) (n k : Z) (w : nat) (bs : list gostring) :
  1 <= k -> int64 k -> n <> 0 -> (Z.to_nat k <= fuel)%nat ->
  exists out, crypt_blocks fuel n k w bs = Done out.
Proof.
  intros Hk Hki Hn Hfuel. induction bs as [|b bs [rest IH]]; cbn [crypt_blocks].
  - eexists; reflexivity.
  - destruct (modpow_total fuel (Atoi b) k n Hk Hki Hn Hfuel) as [c Hc].
    rewrite Hc, IH. cbn [bind]. eexists; reflexivity.
Qed.

(** ** Characters outside the alphabet *)

Lemma Index_from_head_absent (s : gostring) :
  forall (i : Z) (c : ascii) (rest : gostring),
    ~ In c s -> Index_from i s (c :: rest) = -1.
Proof.
  induction s as [|a s IH]; intros i c rest Hc; cbn [Index_from hasPrefix].
  - reflexivity.
  - destruct (Ascii.eqb_spec c a) as [->|_]; [elim Hc; now left|].
    cbn [andb]. apply IH. intros H. apply Hc. now right.
Qed.

Lemma high_byte_absent (z : Z) (rest : gostring) :
  Z.testbit z 7 = true -> Index alphabet (ascii_of_Z z :: rest) = -1.
Proof.
  intros Hbit. apply Index_from_head_absent. intros Hin.
  assert (Hlow : forall c, In c alphabet -> byte_val c < 128).
  { assert (Hall : forallb (fun c => byte_val c <? 128) alphabet = true)
      by (vm_compute; reflexivity).
    rewrite forallb_forall in Hall. intros c Hc. apply Z.ltb_lt. now apply Hall. }
  apply Hlow in Hin. rewrite byte_val_ascii_of_Z in Hin.
  change 256 with (2 ^ 8) in Hin.
  assert (Hb : Z.testbit (z mod 2 ^ 8) 7 = true)
    by (rewrite Z.mod_pow2_bits_low by lia; exact Hbit).
  pose proof (Z.mod_pos_bound z (2 ^ 8) ltac:(lia)) as Hm.
  apply Z.testbit_true in Hb; [|lia].
  change (2 ^ 7) with 128 in Hb. change (2 ^ 8) with 256 in *.
  rewrite Z.div_small in Hb by lia. discriminate.
Qed.

(* strings.Index gives -1 for every rune that is not one of A..Z. *)
Lemma letterDigit_other (c : Z) : ~ (65 <= c <= 90) -> letterDigit c = -1.
Proof.
  intros Hc. unfold letterDigit, string_of_rune.
  set (invalid := (c <? 0) || (1114111 <? c) || ((55296 <=? c) && (c <=? 57343))).
  assert (Hsmall : forall k, 0 <= k < 128 -> ~ (65 <= k <= 90) ->
                     Index alphabet [ascii_of_Z k] = -1).
  { intros k Hk Hout.
    assert (Hall : forallb (fun j => (65 <=? Z.of_nat j) && (Z.of_nat j <=? 90)
                                     || (Index alphabet [ascii_of_Z (Z.of_nat j)] =? -1))
                           (seq 0 128) = true) by (vm_compute; reflexivity).
    rewrite forallb_forall in Hall. specialize (Hall (Z.to_nat k)).
    rewrite in_seq in Hall. specialize (Hall ltac:(lia)).
    rewrite Z2Nat.id in Hall by lia.
    apply orb_true_iff in Hall. destruct Hall as [Hall|Hall].
    - apply andb_true_iff in Hall. lia.
    - now apply Z.eqb_eq. }
  assert (Hhigh : forall x y, x = 192 \/ x = 224 \/ x = 240 ->
                    Z.testbit (Z.lor x y) 7 = true).
  { intros x y Hx. rewrite Z.lor_spec.
    destruct Hx as [-> | [-> | ->]]; reflexivity. }
  destruct invalid eqn:Einv; cbv zeta.
  - change (RuneError <? 128) with false. change (RuneError <? 2048) with false.
    change (RuneError <? 65536) with true. cbv iota.
    apply high_byte_absent, Hhigh. auto.
  - unfold invalid in Einv.
    apply orb_false_iff in Einv. destruct Einv as [Einv _].
    apply orb_false_iff in Einv. destruct Einv as [E0 _].
    apply Z.ltb_ge in E0.
    destruct (Z.ltb_spec c 128); [apply Hsmall; lia|].
    destruct (c <? 2048); [apply high_byte_absent, Hhigh; auto|].
    destruct (c <? 65536); apply high_byte_absent, Hhigh; auto.
Qed.

(** ** C10: encodeMessage is total *)

(** C10: for every n with blockSize(n) >= 2, every e >= 1 and every message
    (held in memory), encodeMessage returns a string; a character outside
    A..Z gets the index -1, written "-1", and no error is raised. *)
Theorem encodeMessage_total (f0 : nat) (n e bSize : Z) (msg : gostring) :
  int64 e -> 1 <= e -> inMemory msg ->
  blockSize f0 n = Done bSize -> 2 <= bSize ->
  (exists out : gostring,
      forall fuel : nat, (11 + length msg + Z.to_nat e <= fuel)%nat ->
        encodeMessage fuel n e msg = Done out) /\
  (forall c : Z, In c (runes msg) -> ~ (65 <= c <= 90) ->
      letterDigit c = -1 /\ Sprintf_0d 2 (letterDigit c) = lit "-1").
Proof.
  intros Hei He Hmem Hbs Hb2. split.
  - destruct (blockSize_inv f0 n bSize Hbs)
      as (h & Hh & -> & Hn & Hrun & Hfull & _).
    assert (Hh1 : (1 <= h)%nat) by lia.
    assert (Hn25 : 25 <= n).
    { specialize (Hfull Hh1).
      assert (Hmono : forall i j : nat, (i <= j)%nat -> full25 i <= full25 j).
      { intros i j Hij. induction Hij as [|j _ IHj]; [lia|].
        pose proof (full25_mono j). lia. }
      specialize (Hmono 1%nat h Hh1). change (full25 1) with 25 in Hmono. lia. }
    set (K := (11 + length msg + Z.to_nat e)%nat).
    assert (HK : exists out, encodeMessage K n e msg = Done out).
    { unfold encodeMessage. cbv zeta. rewrite Hrun by (unfold K; lia). cbn [bind].
      replace (Z.quot (2 * Z.of_nat h) 2) with (Z.of_nat h)
        by (rewrite Z.mul_comm, Z.quot_mul; lia).
      pose proof (letterCodes_length msg) as Hlen.
      destruct (blocks_loop_total (letterCodes msg) h ltac:(lia)
                  ltac:(unfold inMemory, len in *; lia) K 0 []
                  ltac:(unfold K; lia) ltac:(lia)) as [blocks Hblocks].
      change (Z.of_nat 0) with 0 in Hblocks. rewrite Hblocks. cbn [bind].
      destruct (crypt_blocks_total K n e (Z.to_nat (countDigits n)) blocks
                  He Hei ltac:(lia) ltac:(unfold K; lia)) as [cblocks Hc].
      rewrite Hc. cbn [bind]. eexists. reflexivity. }
    destruct HK as [out Hout]. exists out. intros fuel Hfuel.
    apply (encodeMessage_fuel n e msg K fuel); [exact Hfuel | exact Hout | discriminate].
  - intros c _ Hc. rewrite (letterDigit_other c Hc). split; reflexivity.
Qed.

Lemma encodeMessage_total_witness :
  (exists out : gostring,
      forall fuel : nat, (11 + length (lit "He l") + Z.to_nat 17 <= fuel)%nat ->
        encodeMessage fuel 3233 17 (lit "He l") = Done out) /\
  (forall c : Z, In c (runes (lit "He l")) -> ~ (65 <= c <= 90) ->
      letterDigit c = -1 /\ Sprintf_0d 2 (letterDigit c) = lit "-1").
Proof.
  apply (encodeMessage_total 11 3233 17 4 (lit "He l")).
  - int64_lia.
  - lia.
  - unfold inMemory. vm_compute. discriminate.
  - vm_compute. reflexivity.
  - lia.
Defined.

(** ** C9: plaintext blocks and the modulus *)

(** C9, as stated, fails when n is itself an all-25 number: blockSize keeps
    a width while the all-25 number does not exceed n, so for n = 25 the
    width is 2 and the block of the message Z is 25, not below n. *)
Lemma block_equals_modulus_counterexample :
  blockSize 11 25 = Done 2 /\ 2 <= 2 /\
  blocks_loop 11 (Z.quot 2 2) 0 (letterCodes (lit "Z")) [] = Done [lit "25"] /\
  Atoi (lit "25") = 25 /\ ~ (25 < 25).
Proof.
  split; [vm_compute; reflexivity|]. split; [lia|].
  split; [vm_compute; reflexivity|]. split; [vm_compute; reflexivity | lia].
Qed.

(** C9, amended: for every n with blockSize(n) >= 2, every block that
    encodeMessage builds from a message of letters A..Z is a digit string of
    width blockSize(n) whose pairs are at most 25 and whose value is at most
    n; it is strictly less than n unless n is itself an all-25 number (25,
    2525, 252525, ...). *)
Theorem plaintext_block_bound (fuel fuel' : nat) (n bSize : Z) (msg : gostring)
        (blocks : list gostring) (b : gostring) :
  blockSize fuel n = Done bSize -> 2 <= bSize ->
  Forall isUpper msg -> inMemory msg ->
  blocks_loop fuel' (Z.quot bSize 2) 0 (letterCodes msg) [] = Done blocks ->
  In b blocks ->
  len b = bSize /\
  (exists codes : list Z, b = pairs codes /\ Forall isCode codes) /\
  0 <= Atoi b <= n /\
  ((forall k : nat, n <> full25 k) -> Atoi b < n).
Proof.
  intros Hbs Hb2 Hup Hmem Hblocks Hin.
  destruct (blockSize_inv fuel n bSize Hbs) as (h & Hh & -> & Hn & _ & Hfull & _).
  assert (Hh1 : (1 <= h)%nat) by lia. specialize (Hfull Hh1).
  replace (Z.quot (2 * Z.of_nat h) 2) with (Z.of_nat h) in Hblocks
    by (rewrite Z.mul_comm, Z.quot_mul; lia).
  rewrite letterCodes_upper in Hblocks by exact Hup. rewrite <- map_map in Hblocks.
  set (codes := map code msg) in *.
  assert (Hcodes : Forall isCode codes).
  { unfold codes. apply Forall_map. eapply Forall_impl; [|exact Hup].
    unfold isUpper, isCode, code. intros c Hc. lia. }
  assert (Hspec := blocks_loop_spec codes h ltac:(lia)
                     ltac:(unfold inMemory, len, codes in *; rewrite length_map; exact Hmem)
                     (length codes) 0 [] ltac:(simpl; lia) ltac:(lia)).
  change (Z.of_nat 0) with 0 in Hspec. cbn [skipn app] in Hspec.
  pose proof (fuel_monotone_done _ _ _ _ _
                (blocks_loop_fuel _ _ _ _) Hblocks Hspec) as ->.
  apply in_map_iff in Hin. destruct Hin as (w & <- & Hw).
  apply windows_In in Hw; [|exact Hcodes]. destruct Hw as [Hlen Hw].
  pose proof (block_value_bound w Hw) as Hv. rewrite Hlen in Hv.
  rewrite Atoi_pairs by (assumption || lia).
  split; [unfold len; rewrite pairs_length; lia|].
  split; [exists w; split; [reflexivity | exact Hw]|].
  split; [lia|]. intros Hne. specialize (Hne h). lia.
Qed.

Lemma plaintext_block_bound_witness :
  len (lit "0704") = 4 /\
  (exists codes : list Z, lit "0704" = pairs codes /\ Forall isCode codes) /\
  0 <= Atoi (lit "0704") <= 3233 /\
  ((forall k : nat, 3233 <> full25 k) -> Atoi (lit "0704") < 3233).
Proof.
  apply (plaintext_block_bound 11 11 3233 4 (lit "HELLO")
           [lit "0704"; lit "1111"; lit "1423"] (lit "0704")).
  - vm_compute. reflexivity.
  - lia.
  - apply isUpper_check. vm_compute. reflexivity.
  - unfold inMemory. vm_compute. discriminate.
  - vm_compute. reflexivity.
  - now left.
Defined.

(** ** C8: the fatal error of decodeMessage *)

Lemma mod_abort (a b : Z) (f : fatal) : mod_ a b = Abort f -> f = DivideByZero.
Proof.
  unfold mod_, rem64. destruct (b =? 0); cbn [bind].
  - now intros [= <-].
  - destruct ((Z.rem a b <? 0) && (b >? 0) || (Z.rem a b >? 0) && (b <? 0));
      discriminate.
Qed.

Lemma modpow_abort (fuel : nat) :
  forall (a b n : Z) (f : fatal),
    modpow fuel a b n = Abort f -> f = DivideByZero.
Proof.
  induction fuel as [|fuel IH]; intros a b n f H; [discriminate|].
  cbn [modpow] in H. destruct (b =? 1); [discriminate|].
  unfold div64, rem64 in H. cbn [Z.eqb bind] in H.
  destruct (modpow fuel a (wrap64 (Z.quot b 2)) n) as [y|g|] eqn:Ey;
    cbn [bind] in H; [| injection H as <-; now apply IH in Ey | discriminate].
  destruct (mod_ y n) as [x|g|] eqn:Ex; cbn [bind] in H;
    [| injection H as <-; now apply mod_abort in Ex | discriminate].
  destruct (Z.rem b 2 =? 0); [now apply mod_abort in H|].
  destruct (mod_ (mul64 x x) n) as [m|g|] eqn:Em; cbn [bind] in H;
    [now apply mod_abort in H | injection H as <-; now apply mod_abort in Em
     | discriminate].
Qed.

Lemma crypt_blocks_abort (fuel : nat) (n k : Z) (w : nat) (bs : list gostring) :
  forall f : fatal, crypt_blocks fuel n k w bs = Abort f -> f = DivideByZero.
Proof.
  induction bs as [|b bs IH]; intros f H; cbn [crypt_blocks] in H; [discriminate|].
  destruct (modpow fuel (Atoi b) k n) as [c|g|] eqn:Ec; cbn [bind] in H;
    [| injection H as <-; now apply modpow_abort in Ec | discriminate].
  destruct (crypt_blocks fuel n k w bs) as [rest|g|]; cbn [bind] in H;
    [discriminate | injection H as <-; now apply IH | discriminate].
Qed.

Lemma block_letters_abort (fuel : nat) :
  forall (b : gostring) (f : fatal),
    (length b <= fuel)%nat -> block_letters b = Abort f -> f = IndexOutOfRange.
Proof.
  induction fuel as [|fuel IH]; intros b f Hlen H.
  - destruct b; [discriminate | simpl in Hlen; lia].
  - destruct b as [|c0 [|c1 b]]; [discriminate | now injection H as <- |].
    rewrite block_letters_cons in H. cbv zeta in H.
    destruct ((_ <? 0) || (len alphabet <=? _)); [now injection H as <-|].
    destruct (block_letters b) as [rest|g|] eqn:Er; cbn [bind] in H;
      [discriminate | injection H as <- | discriminate].
    apply IH with b; [simpl in Hlen; lia | exact Er].
Qed.

Lemma blocks_letters_abort (blocks : list gostring) :
  forall f : fatal, blocks_letters blocks = Abort f -> f = IndexOutOfRange.
Proof.
  induction blocks as [|b blocks IH]; intros f H; cbn [blocks_letters] in H;
    [discriminate|].
  destruct (block_letters b) as [s|g|] eqn:Es; cbn [bind] in H;
    [| injection H as <-; now apply (block_letters_abort (length b) b) | discriminate].
  destruct (blocks_letters blocks) as [rest|g|]; cbn [bind] in H;
    [discriminate | injection H as <-; now apply IH | discriminate].
Qed.

Lemma blockSize_loop_no_abort (fuel : nat) :
  forall (n : Z) (blockI : gostring) (f : fatal),
    blockSize_loop fuel n blockI <> Abort f.
Proof.
  induction fuel as [|fuel IH]; intros n blockI f; [discriminate|].
  cbn [blockSize_loop]. cbv zeta.
  destruct (Atoi (blockI ++ lit "25") >? n); [discriminate | apply IH].
Qed.

(* Only the loop that cuts the message raises the block-length error. *)
Lemma decodeMessage_bad_length (fuel : nat) (n d : Z) (msg : gostring) :
  decodeMessage fuel n d msg = Abort BadBlockLength ->
  chunks_loop fuel (countDigits n) 0 (removeSpaces msg) [] = Abort BadBlockLength.
Proof.
  unfold decodeMessage. cbv zeta. intros H.
  destruct (chunks_loop fuel (countDigits n) 0 (removeSpaces msg) [])
    as [cBlocks|f|]; cbn [bind] in H;
    [exfalso | now injection H as -> | discriminate].
  unfold blockSize in H.
  destruct (blockSize_loop fuel n []) as [blockI|f|] eqn:Eb; cbn [bind] in H;
    [| now apply blockSize_loop_no_abort in Eb | discriminate].
  destruct (crypt_blocks fuel n d (Z.to_nat (len blockI)) cBlocks)
    as [blocks|f|] eqn:Ec; cbn [bind] in H;
    [| injection H as ->; apply crypt_blocks_abort in Ec | ]; try discriminate.
  apply blocks_letters_abort in H. discriminate.
Qed.

(** C8, as stated, fails: an input of the right length can still abort.
    With n = 3233 and d = 1 the message "2600" has the four digits of one
    block, decodes to the pair 26 and alphabet[26] is out of range. *)
Lemma decodeMessage_index_counterexample :
  countDigits 3233 = 4 /\
  len (removeSpaces (lit "2600")) mod countDigits 3233 = 0 /\
  decodeMessage 20 3233 1 (lit "2600") = Abort IndexOutOfRange.
Proof.
  split; [reflexivity|]. split; [reflexivity|]. vm_compute. reflexivity.
Qed.

(** C8, amended: decodeMessage aborts with its block-length fatal error if
    and only if the length of msg without its spaces is not a multiple of
    the digit count of n.  An input of such a length never raises that
    error; it can still fail otherwise (index out of range on a decoded pair
    above 25, division by zero for n = 0) or not return (d <= 0). *)
Theorem decodeMessage_block_length (n d : Z) (msg : gostring) :
  len msg <= maxInt64 ->
  (len (removeSpaces msg) mod countDigits n <> 0 ->
   forall fuel : nat, (length msg < fuel)%nat ->
     decodeMessage fuel n d msg = Abort BadBlockLength) /\
  (len (removeSpaces msg) mod countDigits n = 0 ->
   forall fuel : nat, decodeMessage fuel n d msg <> Abort BadBlockLength).
Proof.
  intros Hmem.
  pose proof (countDigits_pos n) as Hcb.
  set (cb := Z.to_nat (countDigits n)).
  assert (Ecb : countDigits n = Z.of_nat cb) by (unfold cb; lia).
  set (m := removeSpaces msg).
  assert (Hm : (length m <= length msg)%nat) by apply filter_length_le.
  assert (Hmod : len m mod countDigits n = Z.of_nat (length m mod cb)).
  { rewrite Ecb. unfold len. rewrite Nat2Z.inj_mod. reflexivity. }
  assert (Hspec : forall fuel, (length m <= fuel)%nat ->
            chunks_loop (S fuel) (countDigits n) 0 m []
            = match split_chunks fuel cb m with
              | Some cs => Done cs
              | None => Abort BadBlockLength
              end).
  { intros fuel Hfuel. rewrite Ecb.
    apply (chunks_loop_spec m cb ltac:(lia) ltac:(unfold len in *; lia) fuel 0 []);
      simpl; lia. }
  split.
  - intros Hne fuel Hfuel. destruct fuel as [|fuel]; [lia|].
    unfold decodeMessage. cbv zeta. fold m. rewrite Hspec by lia.
    assert (Hnone : split_chunks fuel cb m = None).
    { apply split_chunks_none; [lia | lia |]. rewrite Hmod in Hne. lia. }
    rewrite Hnone. reflexivity.
  - intros Heq fuel H. apply decodeMessage_bad_length in H. fold m in H.
    assert (H' : chunks_loop (S (Nat.max fuel (length m))) (countDigits n) 0 m []
                 = Abort BadBlockLength).
    { apply (chunks_loop_fuel (countDigits n) m 0 [] fuel); [lia | exact H | discriminate]. }
    rewrite Hspec in H' by lia.
    destruct (split_chunks (Nat.max fuel (length m)) cb m) as [cs|] eqn:E;
      [discriminate|].
    apply split_chunks_none in E; [|lia|lia]. rewrite Hmod in Heq. lia.
Qed.

Lemma decodeMessage_block_length_witness :
  (len (removeSpaces (lit "260")) mod countDigits 3233 <> 0 ->
   forall fuel : nat, (length (lit "260") < fuel)%nat ->
     decodeMessage fuel 3233 1 (lit "260") = Abort BadBlockLength) /\
  (len (removeSpaces (lit "260")) mod countDigits 3233 = 0 ->
   forall fuel : nat, decodeMessage fuel 3233 1 (lit "260") <> Abort BadBlockLength).
Proof.
  apply (decodeMessage_block_length 3233 1 (lit "260")).
  unfold maxInt64. vm_compute. discriminate.
Defined.

(** ** C1: encodeMessage then decodeMessage *)

Lemma full25_div25 (k : nat) : (25 | full25 k).
Proof.
  induction k as [|k [c Hc]]; cbn [full25].
  - exists 0. reflexivity.
  - exists (c * 100 + 1). lia.
Qed.

Lemma semiprime_not_div25 (p q : Z) :
  Z.prime p -> Z.prime q -> p <> q -> ~ (25 | p * q).
Proof.
  intros Hp Hq Hne H25.
  assert (H5 : Z.prime 5) by (apply trial_division_prime; vm_compute; reflexivity).
  assert (Hfive : forall r, Z.prime r -> (5 | r) -> r = 5).
  { intros r Hr Hd. pose proof (Z.prime_ge_2 r Hr).
    apply (Z.divide_prime_r 5 r Hr) in Hd. lia. }
  assert (Hd : (5 | p * q)).
  { destruct H25 as [c Hc]. exists (c * 5). lia. }
  apply Z.divide_prime_mul in Hd; [|exact H5].
  destruct Hd as [Hd|Hd]; apply Hfive in Hd; try assumption; subst.
  - assert (Hd : (5 | q)) by (destruct H25 as [c Hc]; exists c; lia).
    apply Hfive in Hd; [congruence | assumption].
  - assert (Hd : (5 | p)) by (destruct H25 as [c Hc]; exists c; lia).
    apply Hfive in Hd; [congruence | assumption].
Qed.

Lemma windows_length (h : nat) :
  (1 <= h)%nat ->
  forall (fuel : nat) (l : list Z), (length (windows fuel h l) <= length l)%nat.
Proof.
  intros Hh. induction fuel as [|fuel IH]; intros l; [simpl; lia|].
  destruct l as [|x l]; [simpl; lia|]. cbn [windows length].
  specialize (IH (skipn h (x :: l))). rewrite length_skipn in IH.
  cbn [length] in IH. lia.
Qed.

(* What keys drawn from two distinct primes provide. *)
Lemma keys_facts (fuel : nat) (rnd : tape) (p q n e d : Z) :
  genereateRSAKeys_run fuel rnd = Done (p, q, (n, e, d)) ->
  Z.prime p -> Z.prime q -> p <> q ->
  n = p * q /\ 9 <= n <= 54772 * 54772 /\
  1 <= e <= 65535 /\ 1 <= d < n /\
  forall x, 0 <= x < n -> (x ^ e mod n) ^ d mod n = x.
Proof.
  intros Hrun Hp Hq Hne.
  apply genereateRSAKeys_run_inv in Hrun.
  destruct Hrun as ((Hp3 & _) & (Hq3 & _) & -> & He & Hg & Hd & Hinv).
  assert (Hphi : 4 <= (p - 1) * (q - 1) < p * q) by nia.
  assert (Hn : 9 <= p * q <= 54772 * 54772)
    by (split; [nia | apply Z.mul_le_mono_nonneg; lia]).
  assert (Hd0 : d <> 0).
  { intros ->. rewrite Z.mul_0_r, Z.mod_0_l in Hinv by lia. lia. }
  split; [reflexivity|]. split; [exact Hn|]. split; [lia|]. split; [lia|].
  intros x Hx. rewrite Z.mod_pow_l, <- Z.pow_mul_r by lia.
  apply rsa_identity; try assumption. nia.
Qed.

Section RoundTrip.

Variables (n e d : Z) (h cb : nat) (F : nat).
Hypothesis Hn : 25 <= n <= 54772 * 54772.
Hypothesis He : 1 <= e <= 65535.
Hypothesis Hd : 1 <= d < n.
Hypothesis Hid : forall x, 0 <= x < n -> (x ^ e mod n) ^ d mod n = x.
Hypothesis Hh : (1 <= h <= 9)%nat.
Hypothesis Hfull : full25 h < n.
Hypothesis Hblock : forall fuel, (11 <= fuel)%nat -> blockSize fuel n = Done (2 * Z.of_nat h).
Hypothesis Hcb : countDigits n = Z.of_nat cb.
Hypothesis Hcb1 : (1 <= cb <= 10)%nat.
Hypothesis Hwidth : n < 10 ^ Z.of_nat cb.
Hypothesis HF : (Z.to_nat (n + 65536) + 11 <= F)%nat.

Lemma isBlock_value (w : list Z) : isBlock h w -> 0 <= block_value w < n.
Proof.
  intros [Hlen Hw]. pose proof (block_value_bound w Hw) as Hv.
  rewrite Hlen in Hv. lia.
Qed.

Lemma modpow_block (x k : Z) :
  0 <= x < n -> 1 <= k < n \/ 1 <= k <= 65535 ->
  modpow F x k n = Done (x ^ k mod n).
Proof.
  intros Hx Hk. apply modpow_pow_mod.
  - unfold modpowLimit. lia.
  - exact Hx.
  - lia.
  - int64_lia.
  - lia.
Qed.

Lemma encrypt_blocks (ws : list (list Z)) :
  Forall (isBlock h) ws ->
  crypt_blocks F n e (Z.to_nat (countDigits n)) (map pairs ws)
  = Done (map (enc_block n e cb) ws).
Proof.
  intros Hws.
  rewrite (crypt_blocks_map F n e _ (fun b => Atoi b ^ e mod n)).
  - f_equal. rewrite map_map. apply map_ext_in. intros w Hw.
    rewrite Forall_forall in Hws. specialize (Hws w Hw).
    pose proof (isBlock_value w Hws) as Hv. destruct Hws as [Hlen Hcodes].
    rewrite Atoi_pairs by (assumption || lia).
    rewrite Hcb, Nat2Z.id. unfold enc_block.
    pose proof (Z.mod_pos_bound (block_value w ^ e) n ltac:(lia)).
    apply Sprintf_0d_small; lia.
  - intros b Hb. apply in_map_iff in Hb. destruct Hb as (w & <- & Hw).
    rewrite Forall_forall in Hws. specialize (Hws w Hw).
    pose proof (isBlock_value w Hws) as Hv. destruct Hws as [Hlen Hcodes].
    rewrite Atoi_pairs by (assumption || lia).
    apply modpow_block; lia.
Qed.

Lemma decrypt_blocks (ws : list (list Z)) :
  Forall (isBlock h) ws ->
  crypt_blocks F n d (2 * h) (map (enc_block n e cb) ws) = Done (map pairs ws).
Proof.
  intros Hws.
  rewrite (crypt_blocks_map F n d _ (fun b => Atoi b ^ d mod n)).
  - f_equal. rewrite map_map. apply map_ext_in. intros w Hw.
    rewrite Forall_forall in Hws. specialize (Hws w Hw).
    pose proof (isBlock_value w Hws) as Hv. destruct Hws as [Hlen Hcodes].
    pose proof (Z.mod_pos_bound (block_value w ^ e) n ltac:(lia)) as Hc.
    unfold enc_block. rewrite Atoi_digits_w; [| lia | lia | unfold maxInt64; lia].
    rewrite Hid by exact Hv.
    pose proof (block_value_bound w Hcodes) as Hb.
    pose proof (full25_lt (length w)) as Hlt. rewrite pow100 in Hlt.
    rewrite pairs_digits by exact Hcodes. rewrite Hlen in *.
    apply Sprintf_0d_small; lia.
  - intros b Hb. apply in_map_iff in Hb. destruct Hb as (w & <- & Hw).
    rewrite Forall_forall in Hws. specialize (Hws w Hw).
    pose proof (isBlock_value w Hws) as Hv.
    pose proof (Z.mod_pos_bound (block_value w ^ e) n ltac:(lia)) as Hc.
    unfold enc_block. rewrite Atoi_digits_w; [| lia | lia | unfold maxInt64; lia].
    apply modpow_block; lia.
Qed.

Lemma enc_blocks_shape (ws : list (list Z)) :
  Forall (Forall isDigit) (map (enc_block n e cb) ws) /\
  Forall (fun b => length b = cb /\ Forall (fun c => byte_val c < 128) b)
         (map (enc_block n e cb) ws) /\
  length (concat (map (enc_block n e cb) ws)) = (cb * length ws)%nat.
Proof.
  induction ws as [|w ws (IH1 & IH2 & IH3)]; cbn [map concat length].
  - repeat split; try constructor. lia.
  - pose proof (digits_w_isDigit cb (block_value w ^ e mod n)) as Hdig.
    split; [constructor; assumption|]. split.
    + constructor; [|exact IH2]. split; [apply digits_w_length|].
      eapply Forall_impl; [|exact Hdig]. unfold isDigit. intros c Hc. lia.
    + rewrite length_app, IH3. unfold enc_block. rewrite digits_w_length. lia.
Qed.

(* decodeMessage on the encoded blocks of a list of blocks. *)
Lemma decode_blocks (ws : list (list Z)) :
  Forall (isBlock h) ws -> (cb * length ws < F)%nat -> len ws <= 2 ^ 48 ->
  decodeMessage F n d (concat (map (fun c => c ++ lit " ") (map (enc_block n e cb) ws)))
  = Done (map letter (concat ws)).
Proof.
  intros Hws Hfuel Hmem. unfold len in Hmem.
  change (2 ^ 48) with 281474976710656 in Hmem.
  destruct (enc_blocks_shape ws) as (Hdig & Hshape & Hlen).
  unfold decodeMessage. cbv zeta.
  rewrite removeSpaces_digits by exact Hdig.
  set (m := concat (map (enc_block n e cb) ws)) in *.
  assert (Hchunks : chunks_loop F (countDigits n) 0 m [] = Done (map (enc_block n e cb) ws)).
  { apply (chunks_loop_fuel (countDigits n) m 0 [] (S (length m)) F);
      [lia | | discriminate].
    rewrite Hcb.
    pose proof (chunks_loop_spec m cb ltac:(lia)
                  ltac:(unfold len, maxInt64; rewrite Hlen; nia)
                  (length m) 0 [] ltac:(lia) ltac:(simpl; lia)) as Hs.
    change (Z.of_nat 0) with 0 in Hs. rewrite Hs.
    cbn [skipn app]. unfold m. rewrite split_chunks_concat; try (exact Hshape || lia).
    reflexivity. }
  rewrite Hchunks. cbn [bind]. rewrite Hblock by lia. cbn [bind].
  replace (Z.to_nat (2 * Z.of_nat h)) with (2 * h)%nat by lia.
  rewrite decrypt_blocks by exact Hws. cbn [bind].
  apply blocks_letters_pairs.
  eapply Forall_impl; [|exact Hws]. intros w [_ Hw]. exact Hw.
Qed.

(* encodeMessage on a message of upper-case letters. *)
Lemma encode_blocks (msg : gostring) :
  Forall isUpper msg -> inMemory msg -> (length msg < F)%nat ->
  let ws := windows (length msg) h (map code msg) in
  Forall (isBlock h) ws /\
  encodeMessage F n e msg
  = Done (concat (map (fun c => c ++ lit " ") (map (enc_block n e cb) ws))).
Proof.
  intros Hup Hmem Hfuel ws.
  set (codes := map code msg) in *.
  assert (Hcodes : Forall isCode codes).
  { unfold codes. apply Forall_map. eapply Forall_impl; [|exact Hup].
    unfold isUpper, isCode, code. intros c Hc. lia. }
  assert (Hlen : length codes = length msg) by apply length_map.
  assert (Hws : Forall (isBlock h) ws).
  { apply Forall_forall. intros w Hw. now apply (windows_In (length msg) h codes). }
  split; [exact Hws|].
  unfold encodeMessage. cbv zeta. rewrite Hblock by lia. cbn [bind].
  replace (Z.quot (2 * Z.of_nat h) 2) with (Z.of_nat h)
    by (rewrite Z.mul_comm, Z.quot_mul; lia).
  rewrite letterCodes_upper by exact Hup. rewrite <- (map_map code (digits_w 2)).
  fold codes.
  assert (Hblocks : blocks_loop F (Z.of_nat h) 0 (map (digits_w 2) codes) []
                    = Done (map pairs ws)).
  { apply (blocks_loop_fuel _ _ 0 [] (S (length msg)) F); [lia | | discriminate].
    pose proof (blocks_loop_spec codes h ltac:(lia)
                  ltac:(unfold inMemory, len in *; rewrite Hlen; exact Hmem)
                  (length msg) 0 [] ltac:(simpl; lia) ltac:(lia)) as Hs.
    change (Z.of_nat 0) with 0 in Hs. rewrite Hs. reflexivity. }
  rewrite Hblocks. cbn [bind]. rewrite encrypt_blocks by exact Hws. reflexivity.
Qed.

End RoundTrip.

Lemma blockSize_spec (n : Z) :
  n < maxInt64 ->
  exists h : nat,
    (h <= 9)%nat /\
    (forall fuel, (11 <= fuel)%nat -> blockSize fuel n = Done (2 * Z.of_nat h)) /\
    ((1 <= h)%nat -> full25 h <= n) /\
    (forall j, (h < j <= 9)%nat -> n < full25 j).
Proof.
  intros Hn.
  destruct (blockSize_loop_spec n Hn 11 0 ltac:(lia) ltac:(lia))
    as (h & Hh & Hrun & Hfull & Hnext).
  assert (Hbs : blockSize 11 n = Done (2 * Z.of_nat h)).
  { unfold blockSize. change (@nil ascii) with (all25 0). rewrite Hrun.
    cbn [bind]. unfold len. rewrite all25_length. f_equal. lia. }
  exists h. split; [lia|]. split; [|split; [intros; apply Hfull; lia | exact Hnext]].
  intros fuel Hf. apply (blockSize_fuel n 11%nat fuel); [lia | exact Hbs | discriminate].
Qed.

(** C1, as stated, fails: a message whose length is not a multiple of
    blockSize(n)/2 comes back with the padding letters X (and for p = q, or
    n below 25, nothing comes back right).  Under the keys (3233, 17, 2753),
    drawn from 61 and 53, the message A is decoded as AX. *)
Lemma roundtrip_padding_counterexample :
  genereateRSAKeys (Z.to_nat 2003120) [("061", "000"); ("053", "000"); ("017", "000")]%char
  = Done (3233, 17, 2753) /\
  encodeMessage 100 3233 17 (lit "A") = Done (lit "2037 ") /\
  decodeMessage 100 3233 2753 (lit "2037 ") = Done (lit "AX") /\
  lit "AX" <> lit "A".
Proof.
  split.
  { unfold genereateRSAKeys. rewrite textbook_run by apply Nat.le_refl. reflexivity. }
  split; [vm_compute; reflexivity|]. split; [vm_compute; reflexivity|].
  discriminate.
Qed.

(** C1, amended: for every key pair (n, e, d) that genereateRSAKeys returns
    from two draws p and q that are distinct primes, with n >= 25, and every
    message of letters A..Z, decodeMessage(n, d, encodeMessage(n, e, msg))
    returns msg followed by the letters X that fill its last block of
    blockSize(n)/2 letters: exactly msg when its length is a multiple of
    blockSize(n)/2. *)
Theorem encode_decode_roundtrip (fuel : nat) (rnd : tape) (p q n e d : Z)
        (msg : gostring) :
  genereateRSAKeys_run fuel rnd = Done (p, q, (n, e, d)) ->
  Z.prime p -> Z.prime q -> p <> q -> 25 <= n ->
  Forall isUpper msg -> inMemory msg ->
  exists (h : nat) (cipher : gostring),
    (1 <= h <= 9)%nat /\
    (forall fuel', (11 <= fuel')%nat -> blockSize fuel' n = Done (2 * Z.of_nat h)) /\
    forall fuel' : nat,
      (Z.to_nat (n + 65536) + 10 * length msg + 11 <= fuel')%nat ->
      encodeMessage fuel' n e msg = Done cipher /\
      decodeMessage fuel' n d cipher
      = Done (msg ++ repeat "X"%char ((h - length msg mod h) mod h)) /\
      ((length msg mod h = 0)%nat -> decodeMessage fuel' n d cipher = Done msg).
Proof.
  intros Hrun Hp Hq Hne Hn25 Hup Hmem.
  destruct (keys_facts fuel rnd p q n e d Hrun Hp Hq Hne)
    as (En & Hn & He & Hd & Hid).
  destruct (blockSize_spec n ltac:(unfold maxInt64; lia))
    as (h & Hh9 & Hblock & Hfull & Hnext).
  assert (Hh1 : (1 <= h)%nat).
  { destruct h as [|h]; [|lia]. specialize (Hnext 1%nat ltac:(lia)).
    change (full25 1) with 25 in Hnext. lia. }
  assert (Hlt : full25 h < n).
  { specialize (Hfull Hh1).
    assert (n <> full25 h); [|lia].
    intros E. apply (semiprime_not_div25 p q Hp Hq Hne).
    rewrite <- En, E. apply full25_div25. }
  destruct (countDigits_nonneg n ltac:(lia) ltac:(int64_lia)) as [Hcb Hwidth].
  set (cb := numDigits n) in *.
  assert (Hcb1 : (1 <= cb <= 10)%nat).
  { split; [apply numDigits_pos|]. apply numDigits_from_le; [lia|].
    change (10 ^ Z.of_nat 10) with 10000000000. lia. }
  set (ws := windows (length msg) h (map code msg)).
  exists h, (concat (map (fun c => c ++ lit " ") (map (enc_block n e cb) ws))).
  split; [lia|]. split; [exact Hblock|].
  intros F HF.
  assert (HnR : 25 <= n <= 54772 * 54772) by lia.
  assert (HhR : (1 <= h <= 9)%nat) by lia.
  assert (HFR : (Z.to_nat (n + 65536) + 11 <= F)%nat) by lia.
  destruct (encode_blocks n e h cb F HnR He HhR Hlt Hblock Hcb Hcb1 Hwidth HFR
              msg Hup Hmem ltac:(lia)) as [Hws Henc].
  fold ws in Hws, Henc.
  assert (Hwl : (length ws <= length msg)%nat).
  { unfold ws. etransitivity; [apply windows_length; lia|].
    rewrite length_map. lia. }
  assert (Hdec : decodeMessage F n d
                   (concat (map (fun c => c ++ lit " ") (map (enc_block n e cb) ws)))
                 = Done (msg ++ repeat "X"%char ((h - length msg mod h) mod h))).
  { rewrite (decode_blocks n e d h cb F HnR He Hd Hid HhR Hlt Hblock Hcb Hcb1
               Hwidth HFR ws Hws).
    - f_equal. unfold ws.
      rewrite windows_concat by (try rewrite length_map; lia).
      rewrite map_app, map_map, map_repeat, length_map. f_equal.
      rewrite <- (map_id msg) at 2. apply map_ext_in. intros c Hc.
      apply letter_code. rewrite Forall_forall in Hup. now apply Hup.
    - nia.
    - unfold inMemory, len in *. lia. }
  split; [exact Henc|]. split; [exact Hdec|].
  intros Hmul. rewrite Hdec, Hmul, Nat.sub_0_r, Nat.Div0.mod_same.
  cbn [repeat]. now rewrite app_nil_r.
Qed.

Lemma encode_decode_roundtrip_witness :
  exists (h : nat) (cipher : gostring),
    (1 <= h <= 9)%nat /\
    (forall fuel', (11 <= fuel')%nat -> blockSize fuel' 3233 = Done (2 * Z.of_nat h)) /\
    forall fuel' : nat,
      (Z.to_nat (3233 + 65536) + 10 * length (lit "HELLO") + 11 <= fuel')%nat ->
      encodeMessage fuel' 3233 17 (lit "HELLO") = Done cipher /\
      decodeMessage fuel' 3233 2753 cipher
      = Done (lit "HELLO" ++ repeat "X"%char ((h - length (lit "HELLO") mod h) mod h)) /\
      ((length (lit "HELLO") mod h = 0)%nat ->
       decodeMessage fuel' 3233 2753 cipher = Done (lit "HELLO")).
Proof.
  apply (encode_decode_roundtrip (Z.to_nat 2003120)
           [("061", "000"); ("053", "000"); ("017", "000")]%char 61 53 3233 17 2753
           (lit "HELLO")).
  - apply textbook_run. apply Nat.le_refl.
  - apply trial_division_prime. vm_compute. reflexivity.
  - apply trial_division_prime. vm_compute. reflexivity.
  - discriminate.
  - lia.
  - apply isUpper_check. vm_compute. reflexivity.
  - unfold inMemory. vm_compute. discriminate.
Defined.

(** * Further properties

    What the functions do outside the cases above: arguments of either
    sign, the draws 0 and 1, moduli without a block size, keys that the
    program did not generate, and the signatures that main makes by calling
    encodeMessage under the private exponent and decodeMessage under the
    public one. *)

(** ** mod, modpow and mdc on all their arguments *)

Lemma mod_neg (a b : Z) : b < 0 -> int64 b -> mod_ a b = Done (a mod b).
Proof.
  intros Hb Hi. apply -> int64_bounds in Hi.
  unfold mod_, rem64. destruct (Z.eqb_spec b 0) as [->|_]; [lia|]. cbn [bind].
  pose proof (Z.quot_rem' a b) as Hq.
  pose proof (Z.rem_bound_abs a b ltac:(lia)) as Hr.
  destruct (Z.ltb_spec (Z.rem a b) 0) as [Hneg|Hpos]; cbn [andb orb].
  - destruct (Z.gtb_spec b 0); [lia|]. cbn [andb orb].
    destruct (Z.gtb_spec (Z.rem a b) 0); [lia|]. cbn [andb].
    f_equal. apply Z.mod_unique with (q := Z.quot a b); lia.
  - destruct (Z.gtb_spec (Z.rem a b) 0) as [Hgt|Hle]; cbn [andb].
    + destruct (Z.ltb_spec b 0); [|lia].
      unfold add64. rewrite wrap64_id by (apply <- int64_bounds; lia).
      f_equal. apply Z.mod_unique with (q := Z.quot a b - 1); lia.
    + f_equal. apply Z.mod_unique with (q := Z.quot a b); lia.
Qed.

Lemma mod_nonzero (a b : Z) : b <> 0 -> int64 b -> mod_ a b = Done (a mod b).
Proof.
  intros Hb Hi. destruct (Z.lt_total b 0) as [H | [H | H]];
    [now apply mod_neg | contradiction | now apply mod_pos].
Qed.

(** X1: mod(a, b) panics with a division by zero when b = 0; otherwise it
    returns the remainder r of the floored division, the one with the sign
    of the divisor: 0 <= r < b for b > 0, b < r <= 0 for b < 0, and b
    divides a - r.  (For a negative divisor this is not the Euclidean
    remainder the comment of the function names.) *)
Theorem mod_floored (a b : Z) :
  int64 b ->
  (b = 0 -> mod_ a b = Abort DivideByZero) /\
  (0 < b -> exists r, mod_ a b = Done r /\ 0 <= r < b /\ (b | a - r)) /\
  (b < 0 -> exists r, mod_ a b = Done r /\ b < r <= 0 /\ (b | a - r)).
Proof.
  intros Hi. split; [intros ->; reflexivity|].
  assert (Hdiv : b <> 0 -> (b | a - a mod b)).
  { intros Hb. exists (a / b). pose proof (Z.div_mod a b Hb). lia. }
  split; intros Hb; exists (a mod b).
  - split; [apply mod_pos; assumption|]. split; [apply Z.mod_pos_bound; lia|].
    apply Hdiv. lia.
  - split; [apply mod_neg; assumption|]. split; [apply Z.mod_neg_bound; lia|].
    apply Hdiv. lia.
Qed.

Lemma mod_floored_witness :
  (-3 = 0 -> mod_ 7 (-3) = Abort DivideByZero) /\
  (0 < -3 -> exists r, mod_ 7 (-3) = Done r /\ 0 <= r < -3 /\ (-3 | 7 - r)) /\
  (-3 < 0 -> exists r, mod_ 7 (-3) = Done r /\ -3 < r <= 0 /\ (-3 | 7 - r)).
Proof.
  apply (mod_floored 7 (-3)). int64_lia.
Defined.

(* A zero modulus: the first reduction panics. *)
Lemma modpow_zero_modulus (fuel : nat) :
  forall a b : Z,
    2 <= b -> int64 b -> (Z.to_nat b <= fuel)%nat ->
    modpow fuel a b 0 = Abort DivideByZero.
Proof.
  induction fuel as [|fuel IH]; intros a b Hb Hbi Hfuel; [lia|].
  cbn [modpow]. destruct (Z.eqb_spec b 1) as [->|_]; [lia|].
  assert (Hh : 1 <= b / 2) by (apply Z.div_le_lower_bound; lia).
  assert (Hh2 : b / 2 < b) by (apply Z.div_lt; lia).
  rewrite div64_nonneg by (assumption || lia). cbn [bind].
  destruct (Z.eq_dec (b / 2) 1) as [E|E].
  - rewrite E. destruct fuel as [|fuel]; [lia|]. reflexivity.
  - rewrite IH; [reflexivity | lia | int64_lia | lia].
Qed.

(* From exponent 2 on the result is reduced, whatever the base. *)
Lemma modpow_reduced (fuel : nat) (a b n : Z) :
  2 <= b -> int64 b -> n <> 0 -> int64 n -> (Z.to_nat b <= fuel)%nat ->
  exists v, modpow fuel a b n = Done v /\ v mod n = v.
Proof.
  intros Hb Hbi Hn Hni Hfuel. destruct fuel as [|fuel]; [lia|].
  cbn [modpow]. destruct (Z.eqb_spec b 1) as [->|_]; [lia|].
  assert (Hh : 1 <= b / 2) by (apply Z.div_le_lower_bound; lia).
  assert (Hh2 : b / 2 < b) by (apply Z.div_lt; lia).
  rewrite div64_nonneg by (assumption || lia). cbn [bind].
  destruct (modpow_total fuel a (b / 2) n) as [y Hy]; try lia; [int64_lia|].
  rewrite Hy. cbn [bind]. rewrite !mod_nonzero by assumption. cbn [bind].
  rewrite rem64_nonneg by lia. cbn [bind].
  destruct (b mod 2 =? 0).
  - eexists. split; [apply mod_nonzero; assumption|]. apply Z.mod_mod. exact Hn.
  - rewrite mod_nonzero by assumption. cbn [bind].
    eexists. split; [apply mod_nonzero; assumption|]. apply Z.mod_mod. exact Hn.
Qed.

(** X2: modpow(a, b, n) comes to an end (a value or a panic) exactly when
    b >= 1: for b <= 0 the halving b/2 never meets the base case b == 1 and
    the recursion goes on for ever, whatever a and n. *)
Theorem modpow_terminates_iff (a b n : Z) :
  int64 b ->
  (exists fuel : nat, modpow fuel a b n <> OutOfFuel) <-> 1 <= b.
Proof.
  intros Hbi. split.
  - intros [fuel H]. destruct (Z.le_gt_cases 1 b) as [|Hb]; [assumption|].
    elim H. apply modpow_diverges; [lia | exact Hbi].
  - intros Hb. exists (Z.to_nat b).
    destruct (Z.eq_dec n 0) as [->|Hn].
    + destruct (Z.eq_dec b 1) as [->|Hb1]; [discriminate|].
      rewrite modpow_zero_modulus; [discriminate | lia | exact Hbi | lia].
    + destruct (modpow_total (Z.to_nat b) a b n Hb Hbi Hn) as [v Hv]; [lia|].
      rewrite Hv. discriminate.
Qed.

Lemma modpow_terminates_iff_witness :
  (exists fuel : nat, modpow fuel 2 0 5 <> OutOfFuel) <-> 1 <= 0.
Proof.
  apply (modpow_terminates_iff 2 0 5). int64_lia.
Defined.

(** X3: for an exponent b >= 2 and any base a, modpow(a, b, n) panics with
    a division by zero when n = 0 and otherwise returns a reduced value:
    0 <= v < n for n > 0, n < v <= 0 for n < 0, also where the products
    wrap around. *)
Theorem modpow_outcome (fuel : nat) (a b n : Z) :
  int64 n -> int64 b -> 2 <= b -> (Z.to_nat b <= fuel)%nat ->
  (n = 0 -> modpow fuel a b n = Abort DivideByZero) /\
  (0 < n -> exists v, modpow fuel a b n = Done v /\ 0 <= v < n) /\
  (n < 0 -> exists v, modpow fuel a b n = Done v /\ n < v <= 0).
Proof.
  intros Hni Hbi Hb Hfuel. split; [|split]; intros Hn.
  - subst n. now apply modpow_zero_modulus.
  - destruct (modpow_reduced fuel a b n Hb Hbi ltac:(lia) Hni Hfuel) as (v & Hv & Hr).
    exists v. split; [exact Hv|]. rewrite <- Hr. apply Z.mod_pos_bound. exact Hn.
  - destruct (modpow_reduced fuel a b n Hb Hbi ltac:(lia) Hni Hfuel) as (v & Hv & Hr).
    exists v. split; [exact Hv|]. rewrite <- Hr. apply Z.mod_neg_bound. exact Hn.
Qed.

Lemma modpow_outcome_witness :
  (9223372036854775807 = 0 ->
   modpow 2 4294967296 2 9223372036854775807 = Abort DivideByZero) /\
  (0 < 9223372036854775807 ->
   exists v, modpow 2 4294967296 2 9223372036854775807 = Done v /\
             0 <= v < 9223372036854775807) /\
  (9223372036854775807 < 0 ->
   exists v, modpow 2 4294967296 2 9223372036854775807 = Done v /\
             9223372036854775807 < v <= 0).
Proof.
  apply (modpow_outcome 2 4294967296 2 9223372036854775807).
  - int64_lia.
  - int64_lia.
  - lia.
  - vm_compute. lia.
Defined.

(* mdc on arguments of either sign. *)
Lemma mdc_abs (fuel : nat) :
  forall a b : Z,
    int64 b -> (Z.to_nat (Z.abs b) < fuel)%nat ->
    exists g, mdc fuel a b = Done g /\ Z.abs g = Z.gcd a b.
Proof.
  induction fuel as [|fuel IH]; intros a b Hbi Hfuel; [lia|].
  cbn [mdc]. destruct (Z.eqb_spec b 0) as [->|Hb0].
  - exists a. split; [reflexivity|]. now rewrite Z.gcd_0_r.
  - rewrite mod_nonzero by assumption. cbn [bind].
    assert (Hm : Z.abs (a mod b) < Z.abs b).
    { destruct (Z.lt_total b 0) as [H | [H | H]]; [| contradiction |].
      - pose proof (Z.mod_neg_bound a b H). lia.
      - pose proof (Z.mod_pos_bound a b H). lia. }
    destruct (IH b (a mod b)) as (g & Hg & Hgcd); [int64_lia | lia |].
    exists g. split; [exact Hg|]. rewrite Hgcd.
    rewrite Z.gcd_comm, Z.gcd_mod by lia. apply Z.gcd_comm.
Qed.

(** X4: mdc(a, b) never panics (a zero divisor ends the recursion) and
    returns the greatest common divisor of a and b up to its sign; for
    a >= 0 and b >= 0 it returns gcd(a, b) itself. *)
Theorem mdc_gcd (fuel : nat) (a b : Z) :
  int64 b -> (Z.to_nat (Z.abs b) < fuel)%nat ->
  exists g : Z,
    mdc fuel a b = Done g /\ Z.abs g = Z.gcd a b /\
    (0 <= a -> 0 <= b -> g = Z.gcd a b).
Proof.
  intros Hbi Hfuel. destruct (mdc_abs fuel a b Hbi Hfuel) as (g & Hg & Hgcd).
  exists g. split; [exact Hg|]. split; [exact Hgcd|].
  intros Ha Hb. rewrite mdc_spec in Hg by (assumption || lia). congruence.
Qed.

Lemma mdc_gcd_witness :
  exists g : Z,
    mdc 7 4 (-6) = Done g /\ Z.abs g = Z.gcd 4 (-6) /\
    (0 <= 4 -> 0 <= -6 -> g = Z.gcd 4 (-6)).
Proof.
  apply (mdc_gcd 7 4 (-6)).
  - int64_lia.
  - vm_compute. lia.
Defined.

(** ** mdcExtended on arguments of either sign *)

Lemma wrap64_mod (z : Z) : wrap64 z mod 2 ^ 64 = z mod 2 ^ 64.
Proof.
  unfold wrap64. rewrite Zminus_mod_idemp_l. f_equal. lia.
Qed.

Lemma wrap64_congr (x y : Z) : x mod 2 ^ 64 = y mod 2 ^ 64 -> wrap64 x = wrap64 y.
Proof.
  intros H. unfold wrap64. f_equal.
  rewrite <- (Z.add_mod_idemp_l x), H, Z.add_mod_idemp_l by lia. reflexivity.
Qed.

(* old - quotient * cur in int64 arithmetic, the quotient itself wrapped. *)
Lemma sub_mul_wrap (x q y : Z) :
  sub64 x (mul64 (wrap64 q) y) = wrap64 (x - q * y).
Proof.
  unfold sub64, mul64. apply wrap64_congr.
  rewrite <- Zminus_mod_idemp_r, wrap64_mod.
  rewrite <- Z.mul_mod_idemp_l, wrap64_mod, Z.mul_mod_idemp_l by lia.
  apply Zminus_mod_idemp_r.
Qed.

Lemma wrap64_shift (z k : Z) : wrap64 (z + k * 2 ^ 64) = wrap64 z.
Proof. unfold wrap64. f_equal. rewrite <- Z.add_assoc, (Z.add_comm (k * 2 ^ 64)), Z.add_assoc. apply Z.mod_add. lia. Qed.

Lemma wrap64_ex (z : Z) : exists k, wrap64 z = z + k * 2 ^ 64.
Proof.
  exists (- ((z + 2 ^ 63) / 2 ^ 64)). unfold wrap64.
  pose proof (Z.div_mod (z + 2 ^ 63) (2 ^ 64) ltac:(lia)). lia.
Qed.

Lemma combination_wrap (a b s t q cs ct : Z) :
  wrap64 (a * wrap64 (s - q * cs) + b * wrap64 (t - q * ct))
  = wrap64 (wrap64 (a * s + b * t) - q * wrap64 (a * cs + b * ct)).
Proof.
  destruct (wrap64_ex (s - q * cs)) as [k1 ->].
  destruct (wrap64_ex (t - q * ct)) as [k2 ->].
  destruct (wrap64_ex (a * s + b * t)) as [k3 ->].
  destruct (wrap64_ex (a * cs + b * ct)) as [k4 ->].
  rewrite <- (wrap64_shift (a * s + b * t + k3 * 2 ^ 64 - _) (a * k1 + b * k2 - k3 + q * k4)).
  f_equal. ring.
Qed.

Lemma bezout_wrap_step (a b : Z) (st : bezout) :
  bezout_wrap_inv a b st -> curR st <> 0 ->
  exists quotient,
    div64 (oldR st) (curR st) = Done quotient /\
    let st' := mkBezout (curR st) (sub64 (oldR st) (mul64 quotient (curR st)))
                        (curS st) (sub64 (oldS st) (mul64 quotient (curS st)))
                        (curT st) (sub64 (oldT st) (mul64 quotient (curT st))) in
    bezout_wrap_inv a b st' /\ Z.abs (curR st') < Z.abs (curR st).
Proof.
  intros (HoR & HcR & HoS & HoT & HcS & HcT & Ho & Hc & Hg) Hnz.
  exists (wrap64 (Z.quot (oldR st) (curR st))). unfold div64.
  destruct (Z.eqb_spec (curR st) 0); [contradiction|]. split; [reflexivity|].
  cbv zeta.
  pose proof (Z.rem_bound_abs (oldR st) (curR st) Hnz) as Hrem.
  pose proof (Z.quot_rem' (oldR st) (curR st)) as Hqr.
  assert (Er : sub64 (oldR st) (mul64 (wrap64 (Z.quot (oldR st) (curR st))) (curR st))
               = Z.rem (oldR st) (curR st)).
  { rewrite sub_mul_wrap.
    replace (oldR st - Z.quot (oldR st) (curR st) * curR st)
      with (Z.rem (oldR st) (curR st)) by lia.
    apply wrap64_id. int64_lia. }
  unfold bezout_wrap_inv. cbn [oldR curR oldS curS oldT curT].
  rewrite Er. split; [|lia].
  split; [exact HcR|]. split; [int64_lia|].
  split; [exact HcS|]. split; [exact HcT|].
  split; [apply wrap64_int64|]. split; [apply wrap64_int64|].
  split; [exact Hc|]. split.
  - rewrite !sub_mul_wrap, combination_wrap, Ho, Hc.
    replace (oldR st - Z.quot (oldR st) (curR st) * curR st)
      with (Z.rem (oldR st) (curR st)) by lia.
    apply wrap64_id. int64_lia.
  - rewrite Z.gcd_comm, Z.gcd_rem by exact Hnz. rewrite Z.gcd_comm. exact Hg.
Qed.

Lemma mdcExtended_loop_wrap (a b : Z) (fuel : nat) :
  forall st : bezout,
    bezout_wrap_inv a b st -> (Z.to_nat (Z.abs (curR st)) < fuel)%nat ->
    exists s t : Z,
      mdcExtended_loop fuel st = Done (s, t) /\
      int64 s /\ int64 t /\
      Z.abs (wrap64 (a * s + b * t)) = Z.gcd a b.
Proof.
  induction fuel as [|fuel IH]; intros st Hinv Hfuel; [lia|].
  cbn [mdcExtended_loop]. destruct (Z.eqb_spec (curR st) 0) as [E0|Hnz].
  - destruct Hinv as (_ & _ & HoS & HoT & _ & _ & Ho & _ & Hg).
    exists (oldS st), (oldT st). split; [reflexivity|].
    split; [exact HoS|]. split; [exact HoT|].
    rewrite Ho, <- Hg, E0. now rewrite Z.gcd_0_r.
  - destruct (bezout_wrap_step a b st Hinv Hnz) as (quotient & Hq & Hinv' & Hlt).
    rewrite Hq. cbn [bind]. apply IH; [exact Hinv'|]. cbn [curR] in *. lia.
Qed.

(** X5: for all int64 a and b, of either sign, mdcExtended(a, b) returns
    without a panic a pair (s, t) for which a*s + b*t, computed in int64
    arithmetic, is gcd(a, b) up to its sign. *)
Theorem mdcExtended_wraps (a b : Z) (fuel : nat) :
  int64 a -> int64 b -> (Z.to_nat (Z.abs b) < fuel)%nat ->
  exists s t : Z,
    mdcExtended fuel a b = Done (s, t) /\
    int64 s /\ int64 t /\
    Z.abs (add64 (mul64 a s) (mul64 b t)) = Z.gcd a b.
Proof.
  intros Ha Hb Hfuel.
  destruct (mdcExtended_loop_wrap a b fuel (mkBezout a b 1 0 0 1)) as (s & t & Hrun & Hs & Ht & Hg).
  - unfold bezout_wrap_inv. cbn [oldR curR oldS curS oldT curT].
    repeat split; try assumption; try int64_lia.
    + replace (a * 1 + b * 0) with a by lia. now apply wrap64_id.
    + replace (a * 0 + b * 1) with b by lia. now apply wrap64_id.
  - exact Hfuel.
  - exists s, t. split; [exact Hrun|]. split; [exact Hs|]. split; [exact Ht|].
    rewrite <- Hg. f_equal. unfold add64, mul64. apply wrap64_congr.
    rewrite Z.add_mod, !wrap64_mod, <- Z.add_mod by lia. reflexivity.
Qed.

Lemma mdcExtended_wraps_witness :
  exists s t : Z,
    mdcExtended 4 (-7) 3 = Done (s, t) /\
    int64 s /\ int64 t /\
    Z.abs (add64 (mul64 (-7) s) (mul64 3 t)) = Z.gcd (-7) 3.
Proof.
  apply (mdcExtended_wraps (-7) 3 4).
  - int64_lia.
  - int64_lia.
  - vm_compute. lia.
Defined.

(** ** The draws of the key generator *)

(* isPrime on 0 and on 1: the first witness is coprime to n and modpow is
   called with the exponent n - 1 <= 0. *)
Lemma isPrime_below_2 (fuel : nat) (n : Z) :
  0 <= n <= 1 -> isPrime fuel n = OutOfFuel.
Proof.
  intros Hn. unfold isPrime. destruct fuel as [|fuel]; [reflexivity|].
  cbn [isPrime_loop]. change (1 <? 1000000) with true. cbv iota.
  assert (Hg : mdc fuel 1 n = OutOfFuel \/ mdc fuel 1 n = Done 1).
  { assert (Hc : n = 0 \/ n = 1) by lia.
    destruct Hc as [-> | ->]; destruct fuel as [|[|fuel]]; auto. }
  destruct Hg as [-> | ->]; [reflexivity|]. cbn [bind].
  change (1 =? 1) with true. cbv iota.
  rewrite modpow_diverges; [reflexivity | | apply wrap64_int64].
  unfold sub64. rewrite wrap64_id by int64_lia. lia.
Qed.

(** X6: when the two random bytes give 0 or 1, isPrime calls modpow with the
    exponent n - 1 <= 0 and never returns, and so generateRandomPrime never
    returns either, whatever bytes would follow. *)
Theorem generateRandomPrime_stuck (fuel : nat) (b0 b1 : ascii) (rnd : tape) :
  uint16_of b0 b1 <= 1 ->
  isPrime fuel (uint16_of b0 b1) = OutOfFuel /\
  generateRandomPrime fuel ((b0, b1) :: rnd) = OutOfFuel.
Proof.
  intros Hle. pose proof (uint16_of_range b0 b1) as Hr.
  assert (Hp : isPrime fuel (uint16_of b0 b1) = OutOfFuel)
    by (apply isPrime_below_2; lia).
  split; [exact Hp|].
  cbn [generateRandomPrime]. cbv zeta.
  destruct (Z.gtb_spec (uint16_of b0 b1) 54772); [lia|].
  rewrite Hp. reflexivity.
Qed.

Lemma generateRandomPrime_stuck_witness :
  isPrime 1000 (uint16_of "001" "000") = OutOfFuel /\
  generateRandomPrime 1000 [("001", "000"); ("061", "000")]%char = OutOfFuel.
Proof.
  apply (generateRandomPrime_stuck 1000 "001" "000" [("061", "000")]%char).
  vm_compute. discriminate.
Defined.

(* n - 1 to an odd power is n - 1 modulo n. *)
Lemma pow_pred_odd (n k : Z) :
  2 <= n -> 0 <= k -> (n - 1) ^ (2 * k + 1) mod n = n - 1.
Proof.
  intros Hn Hk.
  assert (Hsq : (n - 1) ^ 2 mod n = 1).
  { replace ((n - 1) ^ 2) with (1 + (n - 2) * n) by ring.
    rewrite Z.mod_add by lia. apply Z.mod_small. lia. }
  rewrite Z.pow_add_r, Z.pow_mul_r, Z.pow_1_r by lia.
  rewrite Z.mul_mod, <- Z.mod_pow_l, Hsq, Z.pow_1_l by lia.
  rewrite Z.mod_1_l, Z.mul_1_l, Z.mod_mod by lia. apply Z.mod_small. lia.
Qed.

Lemma isPrime_even_false (n : Z) (fuel : nat) :
  2 <= n <= 1000000 -> Z.even n = true ->
  (Z.to_nat (n + 1000001) <= fuel)%nat ->
  isPrime fuel n = Done false.
Proof.
  intros Hn Hev Hfuel.
  destruct (Z.eq_dec n 2) as [->|Hn2].
  - apply (isPrime_fuel 2 10%nat fuel); [lia | vm_compute; reflexivity | discriminate].
  - apply Z.even_spec in Hev. destruct Hev as [m Hm].
    rewrite isPrime_spec by (unfold modpowLimit; lia). f_equal.
    apply all_pass_false. exists (n - 1). split; [lia|]. split.
    + apply Z.bezout_1_gcd. exists (-1), 1. lia.
    + replace (n - 1) with (2 * (m - 1) + 1) at 2 by lia.
      rewrite pow_pred_odd by lia. lia.
Qed.

(** X7: isPrime(n) returns false for every even n from 2 to 1000000 (the
    witness n - 1, and 3 for n = 2), so generateRandomPrime never returns
    an even number. *)
Theorem isPrime_rejects_even (n : Z) (fuel : nat) :
  2 <= n <= 1000000 -> Z.even n = true ->
  (Z.to_nat (n + 1000001) <= fuel)%nat ->
  isPrime fuel n = Done false /\
  forall (rnd rnd' : tape) (p : Z),
    generateRandomPrime fuel rnd = Done (p, rnd') -> p <> n.
Proof.
  intros Hn Hev Hfuel.
  pose proof (isPrime_even_false n fuel Hn Hev Hfuel) as Hf.
  split; [exact Hf|]. intros rnd rnd' p Hrun ->.
  apply generateRandomPrime_inv in Hrun. destruct Hrun as [_ Hp]. congruence.
Qed.

Lemma isPrime_rejects_even_witness :
  isPrime (Z.to_nat 1000005) 4 = Done false /\
  forall (rnd rnd' : tape) (p : Z),
    generateRandomPrime (Z.to_nat 1000005) rnd = Done (p, rnd') -> p <> 4.
Proof.
  apply (isPrime_rejects_even 4 (Z.to_nat 1000005)).
  - lia.
  - reflexivity.
  - apply Nat.le_refl.
Defined.

(* The numbers generateRandomPrime returns are odd. *)
Lemma generateRandomPrime_odd (fuel : nat) (rnd rnd' : tape) (p : Z) :
  generateRandomPrime fuel rnd = Done (p, rnd') -> Z.odd p = true.
Proof.
  intros Hrun. apply generateRandomPrime_inv in Hrun. destruct Hrun as [Hp Hpp].
  pose proof (isPrime_true_ge_3 fuel p ltac:(lia) Hpp) as Hp3.
  destruct (Z.odd p) eqn:E; [reflexivity|exfalso].
  assert (Hev : Z.even p = true) by (rewrite <- Z.negb_odd, E; reflexivity).
  pose proof (isPrime_even_false p (Z.to_nat (p + 1000001)) ltac:(lia) Hev
                ltac:(lia)) as Hf.
  pose proof (fuel_monotone_done _ _ _ _ _ (isPrime_fuel p) Hpp Hf). discriminate.
Qed.

Lemma odd_pred_product (p q : Z) :
  Z.odd p = true -> Z.odd q = true -> exists c, (p - 1) * (q - 1) = 2 * c.
Proof.
  intros Hp Hq. apply Z.odd_spec in Hp. destruct Hp as [a ->].
  exists (a * (q - 1)). ring.
Qed.

(** X8: every triple (n, e, d) returned by genereateRSAKeys has
    9 <= n <= 54772 * 54772 = 2999971984, below the three billions the
    comment of generateRandomPrime aims at, and n, e and d are odd (so
    d >= 1). *)
Theorem generated_key_shape (fuel : nat) (rnd : tape) (n e d : Z) :
  genereateRSAKeys fuel rnd = Done (n, e, d) ->
  9 <= n <= 2999971984 /\
  Z.odd n = true /\ Z.odd e = true /\ Z.odd d = true /\ 1 <= d.
Proof.
  unfold genereateRSAKeys. intros H.
  destruct (genereateRSAKeys_run fuel rnd) as [[[p q] k]| |] eqn:Erun;
    cbn [bind snd] in H; try discriminate.
  injection H as ->.
  pose proof (genereateRSAKeys_run_inv fuel rnd p q n e d Erun)
    as ((Hp & _) & (Hq & _) & -> & He & Hg & Hd & Hinv).
  assert (Hodd : Z.odd p = true /\ Z.odd q = true).
  { unfold genereateRSAKeys_run in Erun.
    destruct (generateRandomPrime fuel rnd) as [[p' rnd1]| |] eqn:Ep;
      cbn [bind] in Erun; try discriminate.
    destruct (generateRandomPrime fuel rnd1) as [[q' rnd2]| |] eqn:Eq;
      cbn [bind] in Erun; try discriminate.
    cbv zeta in Erun.
    destruct (generateE fuel (mul64 (sub64 p' 1) (sub64 q' 1)) rnd2)
      as [[e' rnd3]| |]; cbn [bind] in Erun; try discriminate.
    destruct (privateExponent fuel e' (mul64 (sub64 p' 1) (sub64 q' 1)))
      as [d'| |]; cbn [bind] in Erun; try discriminate.
    injection Erun as -> -> _ _ _.
    split; [now apply generateRandomPrime_odd in Ep
           | now apply generateRandomPrime_odd in Eq]. }
  destruct Hodd as [Hpo Hqo].
  destruct (odd_pred_product p q Hpo Hqo) as [c Hc].
  assert (Hphi : 4 <= (p - 1) * (q - 1)) by nia.
  assert (Heo : Z.odd e = true).
  { destruct (Z.odd e) eqn:E; [reflexivity|exfalso].
    assert (Hev : Z.even e = true) by (rewrite <- Z.negb_odd, E; reflexivity).
    apply Z.even_spec in Hev. destruct Hev as [m Hm].
    assert (H2 : (2 | Z.gcd e ((p - 1) * (q - 1)))).
    { apply Z.gcd_greatest; [exists m; lia | exists c; lia]. }
    rewrite Hg in H2. destruct H2 as [x Hx]. lia. }
  assert (Hdo : Z.odd d = true).
  { destruct (Z.odd d) eqn:E; [reflexivity|exfalso].
    assert (Hev : Z.even d = true) by (rewrite <- Z.negb_odd, E; reflexivity).
    apply Z.even_spec in Hev. destruct Hev as [m Hm].
    pose proof (Z.div_mod (e * d) ((p - 1) * (q - 1)) ltac:(lia)) as Hdm.
    rewrite Hinv, Hc, Hm in Hdm.
    set (u := e * m) in *. set (v := c * ((e * (2 * m)) / (2 * c))) in *.
    assert (e * (2 * m) = 2 * u) by (unfold u; ring).
    assert (2 * c * (e * (2 * m) / (2 * c)) = 2 * v) by (unfold v; ring).
    lia. }
  split; [split; [nia|]|].
  - assert (p * q <= 54772 * 54772) by (apply Z.mul_le_mono_nonneg; lia). lia.
  - split; [|split; [exact Heo|split; [exact Hdo|]]].
    + rewrite Z.odd_mul, Hpo, Hqo. reflexivity.
    + destruct (Z.eq_dec d 0) as [->|]; [discriminate|lia].
Qed.

Lemma generated_key_shape_witness :
  9 <= 3233 <= 2999971984 /\
  Z.odd 3233 = true /\ Z.odd 17 = true /\ Z.odd 2753 = true /\ 1 <= 2753.
Proof.
  apply (generated_key_shape (Z.to_nat 2003120)
           [("061", "000"); ("053", "000"); ("017", "000")]%char 3233 17 2753).
  unfold genereateRSAKeys. rewrite textbook_run by apply Nat.le_refl. reflexivity.
Defined.

(** X9: generateE(phi) returns 1 as soon as the two random bytes give 1,
    whatever phi >= 0; the private exponent computed from e = 1 is then 1
    as well. *)
Theorem generateE_accepts_one (fuel : nat) (phi : Z) (b0 b1 : ascii) (rnd : tape) :
  uint16_of b0 b1 = 1 -> 0 <= phi -> int64 phi -> (3 <= fuel)%nat ->
  generateE fuel phi ((b0, b1) :: rnd) = Done (1, rnd) /\
  (2 <= phi -> privateExponent fuel 1 phi = Done 1).
Proof.
  intros E1 Hphi Hi Hfuel. split.
  - cbn [generateE]. cbv zeta. rewrite E1.
    assert (Hg : mdc fuel 1 phi = Done 1).
    { apply (mdc_fuel 1 phi 3%nat fuel); [exact Hfuel | | discriminate].
      cbn [mdc]. destruct (Z.eqb_spec phi 0) as [|Hnz]; [reflexivity|].
      rewrite mod_pos by (assumption || lia). cbn [bind].
      destruct (Z.eq_dec phi 1) as [->|Hn1]; [reflexivity|].
      rewrite Z.mod_1_l by lia. change (1 =? 0) with false. cbv iota.
      rewrite mod_pos by (lia || int64_lia). cbn [bind].
      rewrite Z.mod_1_r. reflexivity. }
    rewrite Hg. reflexivity.
  - intros H2.
    apply (privateExponent_fuel 1 phi 3%nat fuel); [exact Hfuel | | discriminate].
    unfold privateExponent, mdcExtended. cbn [mdcExtended_loop curR oldR oldS curS oldT curT].
    destruct (Z.eqb_spec phi 0); [lia|].
    unfold div64 at 1. destruct (Z.eqb_spec phi 0); [lia|]. cbn [bind].
    rewrite Z.quot_small by lia. change (wrap64 0) with 0.
    change (mul64 0 phi) with (wrap64 (0 * phi)). rewrite Z.mul_0_l.
    change (sub64 1 (wrap64 0)) with 1. change (1 =? 0) with false. cbv iota.
    unfold div64. change (1 =? 0) with false. cbv iota. cbn [bind].
    rewrite Z.quot_1_r, (wrap64_id phi) by exact Hi.
    unfold mul64 at 1. rewrite Z.mul_1_r, (wrap64_id phi) by exact Hi.
    unfold sub64 at 1. rewrite Z.sub_diag. change (wrap64 0 =? 0) with true. cbv iota.
    cbn [bind]. unfold mul64. rewrite Z.mul_0_l. reflexivity.
Qed.

Lemma generateE_accepts_one_witness :
  generateE 3 3120 [("001", "000"); ("017", "000")]%char
  = Done (1, [("017", "000")]%char) /\
  (2 <= 3120 -> privateExponent 3 1 3120 = Done 1).
Proof.
  apply (generateE_accepts_one 3 3120 "001" "000" [("017", "000")]%char).
  - reflexivity.
  - lia.
  - int64_lia.
  - lia.
Defined.

(** ** blockSize *)

(** X10: below the largest int64, blockSize(n) returns 2 * h with h <= 9,
    where h is the number of pairs 25 of the largest number 25, 2525,
    252525, ... that does not exceed n; it returns 0 exactly when
    n < 25. *)
Theorem blockSize_value (n : Z) :
  n < maxInt64 ->
  exists h : nat,
    (h <= 9)%nat /\
    (forall fuel, (11 <= fuel)%nat -> blockSize fuel n = Done (2 * Z.of_nat h)) /\
    (h = 0%nat <-> n < 25) /\
    ((1 <= h)%nat -> full25 h <= n) /\
    ((h < 9)%nat -> n < full25 (S h)).
Proof.
  intros Hn. destruct (blockSize_spec n Hn) as (h & Hh & Hrun & Hfull & Hnext).
  exists h. split; [exact Hh|]. split; [exact Hrun|].
  assert (Hmono : forall i j : nat, (i <= j)%nat -> full25 i <= full25 j).
  { intros i j Hij. induction Hij as [|j _ IHj]; [lia|].
    pose proof (full25_mono j). lia. }
  split; [split|split].
  - intros ->. specialize (Hnext 1%nat ltac:(lia)). exact Hnext.
  - intros H25. destruct h as [|h]; [reflexivity|exfalso].
    specialize (Hfull ltac:(lia)). specialize (Hmono 1%nat (S h) ltac:(lia)).
    change (full25 1) with 25 in Hmono. lia.
  - exact Hfull.
  - intros H9. apply Hnext. lia.
Qed.

Lemma blockSize_value_witness :
  exists h : nat,
    (h <= 9)%nat /\
    (forall fuel, (11 <= fuel)%nat -> blockSize fuel 3233 = Done (2 * Z.of_nat h)) /\
    (h = 0%nat <-> 3233 < 25) /\
    ((1 <= h)%nat -> full25 h <= 3233) /\
    ((h < 9)%nat -> 3233 < full25 (S h)).
Proof.
  apply (blockSize_value 3233). vm_compute. reflexivity.
Defined.

(** X11: blockSize(n) returns exactly when n < 2^63 - 1; on the largest
    int64 the value that Atoi gives for the twenty digits 2525...25 is
    clamped to n itself, never exceeds it, and the loop runs for ever. *)
Theorem blockSize_returns_iff (n : Z) :
  (exists fuel : nat, blockSize fuel n <> OutOfFuel) <-> n < maxInt64.
Proof.
  split.
  - intros [fuel H]. destruct (Z.lt_ge_cases n maxInt64) as [|Hge]; [assumption|].
    elim H. unfold blockSize. now rewrite blockSize_loop_diverges.
  - intros Hn. destruct (blockSize_spec n Hn) as (h & _ & Hrun & _).
    exists 11%nat. rewrite Hrun by lia. discriminate.
Qed.

(** ** countDigits *)

Lemma numDigits_from_lower (fuel : nat) :
  forall u : Z, 1 <= u -> 10 ^ (Z.of_nat (numDigits_from fuel u) - 1) <= u.
Proof.
  induction fuel as [|fuel IH]; intros u Hu; cbn [numDigits_from]; [simpl; lia|].
  destruct (Z.ltb_spec u 10); [simpl; lia|].
  assert (Hq : 1 <= u / 10) by (apply Z.div_le_lower_bound; lia).
  specialize (IH (u / 10) Hq).
  replace (Z.of_nat (S (numDigits_from fuel (u / 10))) - 1)
    with (Z.succ (Z.of_nat (numDigits_from fuel (u / 10)) - 1)) by lia.
  assert (1 <= numDigits_from fuel (u / 10))%nat
    by (destruct fuel; cbn [numDigits_from]; [lia | destruct (u / 10 <? 10); lia]).
  rewrite Z.pow_succ_r by lia.
  pose proof (Z.div_mod u 10 ltac:(lia)). pose proof (Z.mod_pos_bound u 10 ltac:(lia)).
  lia.
Qed.

(** X12: countDigits(n) is the number of decimal digits of n for n > 0, is
    1 for n = 0, and counts the minus sign for n < 0. *)
Theorem countDigits_spec (n : Z) :
  int64 n ->
  (n = 0 -> countDigits n = 1) /\
  (0 < n -> 10 ^ (countDigits n - 1) <= n < 10 ^ countDigits n) /\
  (n < 0 -> 10 ^ (countDigits n - 2) <= - n < 10 ^ (countDigits n - 1)).
Proof.
  intros Hi. split; [intros ->; reflexivity|].
  assert (Hup : forall u, 0 <= u <= 2 ^ 63 -> u < 10 ^ Z.of_nat (numDigits u)).
  { intros u Hu. apply numDigits_from_upper.
    apply Z.le_lt_trans with (2 ^ 63); [lia | vm_compute; reflexivity]. }
  split; intros Hn.
  - destruct (countDigits_nonneg n ltac:(lia) Hi) as [-> Hlt].
    split; [apply numDigits_from_lower; lia | exact Hlt].
  - assert (E : countDigits n = 1 + Z.of_nat (numDigits (- n))).
    { unfold countDigits, Sprintf_d, fmtInteger, len.
      destruct (Z.ltb_spec n 0); [|lia].
      rewrite Z.abs_neq by lia. cbn [length]. rewrite digits_w_length.
      rewrite Nat.max_r by lia. lia. }
    rewrite E.
    replace (1 + Z.of_nat (numDigits (- n)) - 2) with (Z.of_nat (numDigits (- n)) - 1) by lia.
    replace (1 + Z.of_nat (numDigits (- n)) - 1) with (Z.of_nat (numDigits (- n))) by lia.
    split; [apply numDigits_from_lower; lia | apply Hup; int64_lia].
Qed.

Lemma countDigits_spec_witness :
  (3233 = 0 -> countDigits 3233 = 1) /\
  (0 < 3233 -> 10 ^ (countDigits 3233 - 1) <= 3233 < 10 ^ countDigits 3233) /\
  (3233 < 0 -> 10 ^ (countDigits 3233 - 2) <= - 3233 < 10 ^ (countDigits 3233 - 1)).
Proof.
  apply (countDigits_spec 3233). int64_lia.
Defined.

(** ** The two random bytes *)

Lemma land_low_high (a x : Z) : 0 <= a < 2 ^ 8 -> Z.land a (Z.shiftl x 8) = 0.
Proof.
  intros Ha. apply Z.bits_inj'. intros i Hi. rewrite Z.land_spec, Z.bits_0.
  destruct (Z.lt_ge_cases i 8) as [Hlt|Hge].
  - rewrite (Z.shiftl_spec_low x 8 i Hlt). apply andb_false_r.
  - rewrite <- (Z.mod_small a (2 ^ 8)) by lia.
    rewrite Z.mod_pow2_bits_high by lia. reflexivity.
Qed.

(** X13: the number that generateRandomPrime and generateE make of the two
    random bytes is b0 + 256 * b1, and every value from 0 to 65535 is the
    number of some pair of bytes. *)
Theorem uint16_of_little_endian :
  (forall b0 b1 : ascii, uint16_of b0 b1 = byte_val b0 + 256 * byte_val b1) /\
  (forall v : Z, 0 <= v <= 65535 ->
     uint16_of (ascii_of_Z (v mod 256)) (ascii_of_Z (v / 256)) = v).
Proof.
  assert (H : forall b0 b1 : ascii, uint16_of b0 b1 = byte_val b0 + 256 * byte_val b1).
  { intros b0 b1. unfold uint16_of.
    pose proof (byte_val_range b0) as H0. pose proof (byte_val_range b1) as H1.
    rewrite Z.shiftl_mul_pow2 by lia. change (2 ^ 8) with 256. change (2 ^ 16) with 65536.
    rewrite Z.mod_small by lia.
    pose proof (Z.add_lor_land (byte_val b0) (byte_val b1 * 256)) as Hadd.
    replace (byte_val b1 * 256) with (Z.shiftl (byte_val b1) 8) in Hadd at 2
      by (rewrite Z.shiftl_mul_pow2 by lia; reflexivity).
    rewrite land_low_high in Hadd by (change (2 ^ 8) with 256; lia). lia. }
  split; [exact H|]. intros v Hv. rewrite H, !byte_val_ascii_of_Z.
  assert (0 <= v / 256 < 256)
    by (split; [apply Z.div_pos; lia | apply Z.div_lt_upper_bound; lia]).
  rewrite (Z.mod_small (v / 256)), Z.mod_mod by lia.
  pose proof (Z.div_mod v 256 ltac:(lia)). lia.
Qed.

Lemma uint16_of_little_endian_witness :
  uint16_of (ascii_of_Z (3233 mod 256)) (ascii_of_Z (3233 / 256)) = 3233.
Proof.
  apply (proj2 uint16_of_little_endian 3233). lia.
Defined.

(** ** Key recovery, further *)

(* No divisor from i down to 2: p and q keep their zero value. *)
Lemma findPrivateKey_scan_none (n : Z) :
  0 <= n ->
  forall (k : nat) (i : Z) (fuel : nat),
    i = 1 + Z.of_nat k -> int64 i -> (k < fuel)%nat ->
    (forall j, 2 <= j <= i -> n mod j <> 0) ->
    findPrivateKey_scan fuel n i = Done (0, 0).
Proof.
  intros Hn. induction k as [|k IH]; intros i fuel Hi Hi64 Hfuel Hnd;
    (destruct fuel as [|fuel]; [lia|]); cbn [findPrivateKey_scan].
  - destruct (Z.geb_spec i 2); [lia | reflexivity].
  - destruct (Z.geb_spec i 2); [|lia].
    rewrite rem64_nonneg by lia. cbn [bind].
    destruct (Z.eqb_spec (n mod i) 0) as [H0|_]; [elim (Hnd i); [lia | exact H0]|].
    assert (Ei : sub64 i 1 = i - 1) by (apply wrap64_id; int64_lia).
    rewrite Ei. apply IH; try lia; [int64_lia|].
    intros j Hj. apply Hnd. lia.
Qed.

(* The modulus phi = 1 that the zero values of p and q give. *)
Lemma privateExponent_phi_one (e : Z) (fuel : nat) :
  int64 e -> (2 <= fuel)%nat -> privateExponent fuel e 1 = Done 0.
Proof.
  intros He Hfuel.
  apply (privateExponent_fuel e 1 2%nat fuel); [exact Hfuel | | discriminate].
  unfold privateExponent, mdcExtended.
  cbn [mdcExtended_loop curR oldR oldS curS oldT curT].
  change (1 =? 0) with false. cbv iota.
  unfold div64. change (1 =? 0) with false. cbv iota. cbn [bind].
  rewrite Z.quot_1_r, (wrap64_id e) by exact He.
  unfold mul64 at 1. rewrite Z.mul_1_r, (wrap64_id e) by exact He.
  unfold sub64 at 1. rewrite Z.sub_diag. change (wrap64 0 =? 0) with true. cbv iota.
  cbn [bind]. reflexivity.
Qed.

(** X14: on a prime modulus n the scan of findPrivateKey meets no divisor,
    p and q keep their zero value, phi is (0-1)*(0-1) = 1 and
    findPrivateKey(n, e) returns 0, whatever e. *)
Theorem findPrivateKey_prime_modulus (n e : Z) (fuel : nat) :
  Z.prime n -> int64 n -> int64 e -> (Z.to_nat n <= fuel)%nat ->
  findPrivateKey_scan fuel n (n - 1) = Done (0, 0) /\
  findPrivateKey fuel n e = Done 0.
Proof.
  intros Hp Hn He Hfuel. pose proof (Z.prime_ge_2 n Hp) as Hn2.
  assert (Hscan : findPrivateKey_scan fuel n (n - 1) = Done (0, 0)).
  { apply (findPrivateKey_scan_none n ltac:(lia) (Z.to_nat (n - 2))); try lia.
    - int64_lia.
    - intros j Hj H0. apply Z.mod_divide in H0; [|lia].
      destruct Hp as [_ Hp]. apply (Hp j); [lia | exact H0]. }
  split; [exact Hscan|].
  unfold findPrivateKey.
  assert (En : sub64 n 1 = n - 1) by (apply wrap64_id; int64_lia).
  rewrite En, Hscan. cbn [bind]. cbv zeta.
  change (mul64 (sub64 0 1) (sub64 0 1)) with 1.
  apply privateExponent_phi_one; [exact He | lia].
Qed.

Lemma findPrivateKey_prime_modulus_witness :
  findPrivateKey_scan 61 61 (61 - 1) = Done (0, 0) /\
  findPrivateKey 61 61 17 = Done 0.
Proof.
  apply (findPrivateKey_prime_modulus 61 17 61).
  - apply trial_division_prime. vm_compute. reflexivity.
  - int64_lia.
  - int64_lia.
  - vm_compute. lia.
Defined.

(* The scan stops on the larger prime, the two primes equal or not. *)
Lemma findPrivateKey_scan_le (p q : Z) :
  Z.prime p -> Z.prime q -> p <= q -> int64 (p * q) ->
  forall (k : nat) (i : Z) (fuel : nat),
    i = q + Z.of_nat k -> i < p * q -> (k < fuel)%nat ->
    findPrivateKey_scan fuel (p * q) i = Done (q, p).
Proof.
  intros Hp Hq Hle Hn.
  pose proof (Z.prime_ge_2 p Hp) as Hp2. pose proof (Z.prime_ge_2 q Hq) as Hq2.
  induction k as [|k IH]; intros i fuel Hi Hin Hfuel;
    (destruct fuel as [|fuel]; [lia|]); cbn [findPrivateKey_scan];
    (destruct (Z.geb_spec i 2); [|lia]);
    rewrite rem64_nonneg by nia; cbn [bind].
  - replace i with q by lia.
    rewrite Z.mod_mul by lia. change (0 =? 0) with true. cbv iota.
    rewrite div64_nonneg by (nia || exact Hn).
    cbn [bind]. rewrite Z.div_mul by lia. reflexivity.
  - destruct (Z.eqb_spec ((p * q) mod i) 0) as [H0|_].
    + exfalso. apply Z.mod_divide in H0; [|lia].
      apply semiprime_divisor in H0; try assumption; lia.
    + assert (Ei : sub64 i 1 = i - 1) by (apply wrap64_id; int64_lia).
      rewrite Ei. apply IH; lia.
Qed.

(* The inverse of e modulo phi is unique in [0, phi). *)
Lemma inverse_unique (e phi d d' : Z) :
  0 < phi -> Z.gcd e phi = 1 ->
  0 <= d < phi -> 0 <= d' < phi ->
  (e * d) mod phi = 1 -> (e * d') mod phi = 1 -> d = d'.
Proof.
  intros Hphi Hg Hd Hd' H1 H2.
  pose proof (Z.div_mod (e * d) phi ltac:(lia)) as E1.
  pose proof (Z.div_mod (e * d') phi ltac:(lia)) as E2.
  rewrite H1 in E1. rewrite H2 in E2.
  assert (Hdiv : (phi | e * (d - d'))).
  { exists ((e * d) / phi - (e * d') / phi). lia. }
  apply Z.gauss in Hdiv; [|rewrite Z.gcd_comm; exact Hg].
  destruct Hdiv as [c Hc].
  assert (c = 0) by nia. lia.
Qed.

(** X15: for keys (n, e, d) that genereateRSAKeys made of two primes p and
    q, equal or not, findPrivateKey(n, e) returns the private exponent d
    itself. *)
Theorem findPrivateKey_recovers (fuel : nat) (rnd : tape) (p q n e d : Z) :
  genereateRSAKeys_run fuel rnd = Done (p, q, (n, e, d)) ->
  Z.prime p -> Z.prime q ->
  forall fuel' : nat, (Z.to_nat n <= fuel')%nat ->
    findPrivateKey fuel' n e = Done d.
Proof.
  intros Hrun Hp Hq fuel' Hfuel.
  apply genereateRSAKeys_run_inv in Hrun.
  destruct Hrun as ((Hp3 & _) & (Hq3 & _) & -> & He & Hg & Hd & Hinv).
  assert (Hn : 9 <= p * q <= 54772 * 54772)
    by (split; [nia | apply Z.mul_le_mono_nonneg; lia]).
  assert (Hphi : 4 <= (p - 1) * (q - 1) < p * q) by nia.
  assert (Hphi64 : int64 ((p - 1) * (q - 1))) by int64_lia.
  destruct (privateExponent_spec e ((p - 1) * (q - 1)) ltac:(lia) ltac:(int64_lia)
              ltac:(lia) Hphi64 Hg) as (d' & Hrun' & Hd' & Hinv').
  assert (d = d') by (apply (inverse_unique e ((p - 1) * (q - 1))); assumption || lia).
  subst d'.
  assert (En : sub64 (p * q) 1 = p * q - 1) by (apply wrap64_id; int64_lia).
  assert (Ephi : forall a b, 3 <= a <= 54772 -> 3 <= b <= 54772 ->
                   mul64 (sub64 a 1) (sub64 b 1) = (a - 1) * (b - 1)).
  { intros a b Ha Hb. unfold mul64, sub64.
    rewrite (wrap64_id (a - 1)), (wrap64_id (b - 1)) by int64_lia.
    apply wrap64_id.
    assert (0 <= (a - 1) * (b - 1) <= 54771 * 54771)
      by (split; [nia | apply Z.mul_le_mono_nonneg; lia]).
    int64_lia. }
  unfold findPrivateKey. rewrite En.
  destruct (Z.le_gt_cases p q) as [Hle|Hgt].
  - rewrite (findPrivateKey_scan_le p q Hp Hq Hle ltac:(int64_lia)
               (Z.to_nat (p * q - 1 - q))); try lia; try nia.
    cbn [bind]. cbv zeta. rewrite Ephi by lia.
    rewrite (Z.mul_comm (q - 1)). apply Hrun'. lia.
  - rewrite (Z.mul_comm p q) in *.
    rewrite (findPrivateKey_scan_le q p Hq Hp ltac:(lia) ltac:(int64_lia)
               (Z.to_nat (q * p - 1 - p))); try lia; try nia.
    cbn [bind]. cbv zeta. rewrite Ephi by lia.
    apply Hrun'. lia.
Qed.

Lemma findPrivateKey_recovers_witness :
  findPrivateKey (Z.to_nat 3233) 3233 17 = Done 2753.
Proof.
  apply (findPrivateKey_recovers (Z.to_nat 2003120)
           [("061", "000"); ("053", "000"); ("017", "000")]%char 61 53 3233 17 2753).
  - apply textbook_run. apply Nat.le_refl.
  - apply trial_division_prime. vm_compute. reflexivity.
  - apply trial_division_prime. vm_compute. reflexivity.
  - apply Nat.le_refl.
Defined.

(** ** The blocks of a message *)

Lemma windows_fuel_indep (h : nat) :
  (1 <= h)%nat ->
  forall (f1 f2 : nat) (l : list Z),
    (length l <= f1)%nat -> (length l <= f2)%nat -> windows f1 h l = windows f2 h l.
Proof.
  intros Hh. induction f1 as [|f1 IH]; intros f2 l H1 H2.
  - destruct l; [|simpl in H1; lia]. now rewrite !windows_nil.
  - destruct l as [|x l]; [now rewrite !windows_nil|].
    destruct f2 as [|f2]; [simpl in H2; lia|]. cbn [windows]. f_equal.
    apply IH; rewrite length_skipn; cbn [length] in *; lia.
Qed.

Lemma take_pad_full (h : nat) (w rest : list Z) :
  length w = h -> take_pad h (w ++ rest) = w.
Proof.
  intros <-. induction w as [|x w IH]; [reflexivity|].
  cbn [length app take_pad]. now rewrite IH.
Qed.

Lemma windows_blocks_app (h : nat) :
  (1 <= h)%nat ->
  forall (ws : list (list Z)) (l : list Z) (f : nat),
    Forall (fun w => length w = h) ws ->
    (length (concat ws ++ l) <= f)%nat ->
    windows f h (concat ws ++ l) = ws ++ windows (length l) h l.
Proof.
  intros Hh. induction ws as [|w ws IH]; intros l f Hws Hf.
  - cbn [concat app] in *. now apply windows_fuel_indep.
  - inversion Hws as [|w' ws' Hw Hws']; subst.
    cbn [concat] in *. rewrite <- app_assoc in *.
    destruct w as [|x w]; [simpl in Hh; lia|].
    destruct f as [|f]; [simpl in Hf; lia|].
    change ((x :: w) ++ concat ws ++ l) with (x :: (w ++ concat ws ++ l)).
    cbn [windows].
    change (x :: w ++ concat ws ++ l) with ((x :: w) ++ (concat ws ++ l)).
    rewrite take_pad_full by reflexivity.
    rewrite skipn_app, skipn_all, Nat.sub_diag. cbn [app skipn].
    f_equal. apply IH; [exact Hws'|].
    rewrite length_app in Hf. cbn [length] in Hf. lia.
Qed.

Lemma windows_app (h : nat) (l1 l2 : list Z) :
  (1 <= h)%nat -> (length l1 mod h = 0)%nat ->
  Forall isCode l1 ->
  windows (length (l1 ++ l2)) h (l1 ++ l2)
  = windows (length l1) h l1 ++ windows (length l2) h l2.
Proof.
  intros Hh Hmod Hc.
  pose proof (windows_concat h Hh (length l1) l1 ltac:(lia)) as Hcat.
  rewrite Hmod, Nat.sub_0_r, Nat.Div0.mod_same in Hcat. cbn [repeat] in Hcat.
  rewrite app_nil_r in Hcat.
  rewrite <- Hcat at 2.
  apply windows_blocks_app; [exact Hh | | rewrite Hcat; lia].
  apply Forall_forall. intros w Hw.
  now apply (windows_In (length l1) h l1 w Hc).
Qed.

Lemma windows_padded (h : nat) (l : list Z) :
  (1 <= h)%nat -> Forall isCode l ->
  windows (length (l ++ repeat 23 ((h - length l mod h) mod h))) h
          (l ++ repeat 23 ((h - length l mod h) mod h))
  = windows (length l) h l.
Proof.
  intros Hh Hc.
  pose proof (windows_concat h Hh (length l) l ltac:(lia)) as Hcat.
  rewrite <- Hcat. rewrite <- (app_nil_r (concat _)).
  rewrite windows_blocks_app; [cbn [length windows]; now rewrite app_nil_r | exact Hh | | lia].
  apply Forall_forall. intros w Hw.
  now apply (windows_In (length l) h l w Hc).
Qed.

Lemma windows_count (h : nat) :
  (1 <= h)%nat ->
  forall (fuel : nat) (l : list Z),
    (length l <= fuel)%nat ->
    length (windows fuel h l) = ((length l + h - 1) / h)%nat.
Proof.
  intros Hh. induction fuel as [|fuel IH]; intros l Hl.
  - destruct l; [|simpl in Hl; lia]. cbn [windows length].
    symmetry. apply Nat.div_small. lia.
  - destruct l as [|x l].
    + cbn [windows length]. symmetry. apply Nat.div_small. lia.
    + cbn [windows]. cbn [length]. rewrite IH by (rewrite length_skipn; cbn [length] in *; lia).
      rewrite length_skipn. cbn [length].
      destruct (Nat.le_gt_cases h (S (length l))) as [Hge|Hlt].
      * replace (S (length l) + h - 1)%nat with ((S (length l) - h + h - 1) + 1 * h)%nat by lia.
        rewrite Nat.div_add by lia. lia.
      * replace (S (length l) - h + h - 1)%nat with (h - 1)%nat by lia.
        rewrite Nat.div_small by lia.
        replace (S (length l) + h - 1)%nat with ((length l) + 1 * h)%nat by lia.
        rewrite Nat.div_add by lia. rewrite Nat.div_small by lia. reflexivity.
Qed.

(** ** encodeMessage, block by block *)

Lemma modpow_value_run (a b n : Z) (fuel : nat) :
  1 <= b -> int64 b -> n <> 0 -> (Z.to_nat b <= fuel)%nat ->
  modpow fuel a b n = Done (modpow_value a b n).
Proof.
  intros Hb Hbi Hn Hfuel.
  destruct (modpow_total (Z.to_nat b) a b n Hb Hbi Hn ltac:(lia)) as [v Hv].
  unfold modpow_value. rewrite Hv.
  apply (modpow_fuel a b n (Z.to_nat b) fuel); [exact Hfuel | exact Hv | discriminate].
Qed.

Lemma modpow_value_one (a n : Z) : modpow_value a 1 n = a.
Proof. reflexivity. Qed.

Lemma modpow_value_bound (x e n : Z) :
  0 < n -> int64 n -> 1 <= e -> int64 e -> 0 <= x <= n ->
  0 <= modpow_value x e n <= n.
Proof.
  intros Hn Hni He Hei Hx.
  destruct (Z.eq_dec e 1) as [->|He1]; [now rewrite modpow_value_one|].
  destruct (modpow_reduced (Z.to_nat e) x e n ltac:(lia) Hei ltac:(lia) Hni
              ltac:(lia)) as (v & Hv & Hr).
  unfold modpow_value. rewrite Hv.
  pose proof (Z.mod_pos_bound v n Hn). lia.
Qed.

Lemma upper_codes (msg : gostring) :
  Forall isUpper msg -> Forall isCode (map code msg).
Proof.
  intros Hup. apply Forall_map. eapply Forall_impl; [|exact Hup].
  unfold isUpper, isCode, code. intros c Hc. lia.
Qed.

(* encodeMessage on a message of letters, for any modulus with a block size
   and any exponent b >= 1. *)
Lemma encodeMessage_run (n e : Z) (h : nat) (msg : gostring) (fuel : nat) :
  (1 <= h <= 9)%nat ->
  (forall f, (11 <= f)%nat -> blockSize f n = Done (2 * Z.of_nat h)) ->
  n <> 0 -> 1 <= e -> int64 e ->
  Forall isUpper msg -> inMemory msg ->
  (11 + length msg + Z.to_nat e <= fuel)%nat ->
  encodeMessage fuel n e msg = Done (cipher_text n e h msg).
Proof.
  intros Hh Hblock Hn He Hei Hup Hmem Hfuel.
  set (codes := map code msg).
  pose proof (upper_codes msg Hup) as Hcodes. fold codes in Hcodes.
  assert (Hlen : length codes = length msg) by apply length_map.
  set (ws := windows (length msg) h codes).
  assert (Hws : Forall (isBlock h) ws).
  { apply Forall_forall. intros w Hw. now apply (windows_In (length msg) h codes). }
  unfold encodeMessage. cbv zeta. rewrite Hblock by lia. cbn [bind].
  replace (Z.quot (2 * Z.of_nat h) 2) with (Z.of_nat h)
    by (rewrite Z.mul_comm, Z.quot_mul; lia).
  rewrite letterCodes_upper by exact Hup. rewrite <- (map_map code (digits_w 2)).
  fold codes.
  assert (Hblocks : blocks_loop fuel (Z.of_nat h) 0 (map (digits_w 2) codes) []
                    = Done (map pairs ws)).
  { apply (blocks_loop_fuel _ _ 0 [] (S (length msg)) fuel); [lia | | discriminate].
    pose proof (blocks_loop_spec codes h ltac:(lia)
                  ltac:(unfold inMemory, len in *; rewrite Hlen; exact Hmem)
                  (length msg) 0 [] ltac:(simpl; lia) ltac:(lia)) as Hs.
    change (Z.of_nat 0) with 0 in Hs. rewrite Hs. reflexivity. }
  rewrite Hblocks. cbn [bind].
  rewrite (crypt_blocks_map fuel n e _ (fun b => modpow_value (Atoi b) e n)).
  - cbn [bind]. unfold cipher_text. fold codes. fold ws.
    rewrite !map_map. apply f_equal. apply f_equal. apply map_ext_in. intros w Hw.
    rewrite Forall_forall in Hws. destruct (Hws w Hw) as [Hlw Hcw].
    rewrite Atoi_pairs by (assumption || lia). reflexivity.
  - intros b _. apply modpow_value_run; try assumption. lia.
Qed.

Lemma full25_lower (k : nat) : 10 ^ Z.of_nat (2 * k + 1) <= full25 (S k).
Proof.
  rewrite full25_alt. pose proof (full25_mono k).
  replace (Z.of_nat (2 * k + 1)) with (Z.of_nat (2 * k) + 1) by lia.
  rewrite Z.pow_add_r, <- pow100 by lia.
  assert (0 < 100 ^ Z.of_nat k) by (apply Z.pow_pos_nonneg; lia). lia.
Qed.

(* The digits of a block fit in the digits of the modulus. *)
Lemma blockSize_within_width (n : Z) (h cb : nat) :
  (1 <= h)%nat -> full25 h <= n -> n < 10 ^ Z.of_nat cb -> (2 * h <= cb)%nat.
Proof.
  intros Hh Hfull Hwidth.
  destruct (Nat.le_gt_cases (2 * h) cb) as [|Hlt]; [assumption|exfalso].
  destruct h as [|k]; [lia|].
  pose proof (full25_lower k) as Hlow.
  assert (10 ^ Z.of_nat cb <= 10 ^ Z.of_nat (2 * k + 1))
    by (apply Z.pow_le_mono_r; lia).
  lia.
Qed.

Lemma blockSize_for (n : Z) :
  25 <= n < maxInt64 ->
  exists h : nat,
    (1 <= h <= 9)%nat /\
    (forall f, (11 <= f)%nat -> blockSize f n = Done (2 * Z.of_nat h)) /\
    full25 h <= n.
Proof.
  intros Hn. destruct (blockSize_spec n ltac:(lia)) as (h & Hh & Hrun & Hfull & Hnext).
  assert (Hh1 : (1 <= h)%nat).
  { destruct h as [|h]; [|lia]. specialize (Hnext 1%nat ltac:(lia)).
    change (full25 1) with 25 in Hnext. lia. }
  exists h. split; [lia|]. split; [exact Hrun|]. now apply Hfull.
Qed.

Lemma countDigits_for (n : Z) :
  0 < n < maxInt64 ->
  exists cb : nat,
    (1 <= cb)%nat /\ countDigits n = Z.of_nat cb /\ n < 10 ^ Z.of_nat cb.
Proof.
  intros Hn. destruct (countDigits_nonneg n ltac:(lia) ltac:(int64_lia)) as [Hcb Hw].
  exists (numDigits n). split; [apply numDigits_pos|]. split; assumption.
Qed.

(** X16: for 25 <= n < 2^63 - 1, an exponent e >= 1 and a message of
    letters A..Z, encodeMessage returns one group per block of
    blockSize(n)/2 letters (the last one filled up): a number v with
    0 <= v <= n written with exactly countDigits(n) digits, followed by a
    space; a block has no more digits than a group. *)
Theorem ciphertext_shape (n e : Z) (msg : gostring) :
  25 <= n < maxInt64 -> 1 <= e -> int64 e ->
  Forall isUpper msg -> inMemory msg ->
  exists (h cb : nat) (vs : list Z),
    (1 <= h <= 9)%nat /\
    (forall f, (11 <= f)%nat -> blockSize f n = Done (2 * Z.of_nat h)) /\
    countDigits n = Z.of_nat cb /\ (2 * h <= cb)%nat /\
    length vs = ((length msg + h - 1) / h)%nat /\
    Forall (fun v => 0 <= v <= n) vs /\
    forall fuel : nat, (11 + length msg + Z.to_nat e <= fuel)%nat ->
      encodeMessage fuel n e msg
      = Done (concat (map (fun v => digits_w cb v ++ lit " ") vs)).
Proof.
  intros Hn He Hei Hup Hmem.
  destruct (blockSize_for n Hn) as (h & Hh & Hblock & Hfull).
  destruct (countDigits_for n ltac:(lia)) as (cb & Hcb1 & Hcb & Hwidth).
  set (ws := windows (length msg) h (map code msg)).
  assert (Hws : Forall (isBlock h) ws).
  { apply Forall_forall. intros w Hw.
    apply (windows_In (length msg) h (map code msg)); [now apply upper_codes | exact Hw]. }
  assert (Hval : forall w, In w ws -> 0 <= modpow_value (block_value w) e n <= n).
  { intros w Hw. rewrite Forall_forall in Hws. destruct (Hws w Hw) as [Hlw Hcw].
    pose proof (block_value_bound w Hcw) as Hb. rewrite Hlw in Hb.
    apply modpow_value_bound; try assumption; try lia. int64_lia. }
  exists h, cb, (map (fun w => modpow_value (block_value w) e n) ws).
  split; [exact Hh|]. split; [exact Hblock|]. split; [exact Hcb|].
  split; [apply (blockSize_within_width n h cb); assumption || lia|]. split; [|split].
  - rewrite length_map. unfold ws.
    rewrite windows_count by (try rewrite length_map; lia).
    now rewrite length_map.
  - apply Forall_map, Forall_forall. exact Hval.
  - intros fuel Hfuel.
    rewrite (encodeMessage_run n e h msg fuel) by (assumption || lia).
    f_equal. unfold cipher_text. fold ws. rewrite map_map. f_equal.
    apply map_ext_in. intros w Hw. rewrite Hcb, Nat2Z.id.
    rewrite Sprintf_0d_small; [reflexivity | exact Hcb1 |].
    specialize (Hval w Hw). lia.
Qed.

Lemma ciphertext_shape_witness :
  exists (h cb : nat) (vs : list Z),
    (1 <= h <= 9)%nat /\
    (forall f, (11 <= f)%nat -> blockSize f 3233 = Done (2 * Z.of_nat h)) /\
    countDigits 3233 = Z.of_nat cb /\ (2 * h <= cb)%nat /\
    length vs = ((length (lit "HELLO") + h - 1) / h)%nat /\
    Forall (fun v => 0 <= v <= 3233) vs /\
    forall fuel : nat, (11 + length (lit "HELLO") + Z.to_nat 17 <= fuel)%nat ->
      encodeMessage fuel 3233 17 (lit "HELLO")
      = Done (concat (map (fun v => digits_w cb v ++ lit " ") vs)).
Proof.
  apply (ciphertext_shape 3233 17 (lit "HELLO")).
  - unfold maxInt64. lia.
  - lia.
  - int64_lia.
  - apply isUpper_check. vm_compute. reflexivity.
  - unfold inMemory. vm_compute. discriminate.
Defined.

Lemma cipher_text_app (n e : Z) (h : nat) (m1 m2 : gostring) :
  (1 <= h)%nat -> (length m1 mod h = 0)%nat -> Forall isUpper m1 ->
  cipher_text n e h (m1 ++ m2) = cipher_text n e h m1 ++ cipher_text n e h m2.
Proof.
  intros Hh Hmod Hup. unfold cipher_text.
  rewrite map_app.
  replace (length (m1 ++ m2)) with (length (map code m1 ++ map code m2))
    by (rewrite !length_app, !length_map; reflexivity).
  rewrite windows_app; [| exact Hh | now rewrite length_map | now apply upper_codes].
  rewrite !length_map, map_app, concat_app. reflexivity.
Qed.

(** X17: encodeMessage encodes block by block: when the length of m1 is a
    multiple of blockSize(n)/2, the ciphertext of m1 followed by m2 is the
    ciphertext of m1 followed by the ciphertext of m2. *)
Theorem encodeMessage_blockwise (n e : Z) :
  25 <= n < maxInt64 -> 1 <= e -> int64 e ->
  exists h : nat,
    (1 <= h <= 9)%nat /\
    (forall f, (11 <= f)%nat -> blockSize f n = Done (2 * Z.of_nat h)) /\
    forall (m1 m2 : gostring) (fuel : nat),
      Forall isUpper m1 -> Forall isUpper m2 -> inMemory (m1 ++ m2) ->
      (length m1 mod h = 0)%nat ->
      (11 + length (m1 ++ m2) + Z.to_nat e <= fuel)%nat ->
      exists c1 c2 : gostring,
        encodeMessage fuel n e m1 = Done c1 /\
        encodeMessage fuel n e m2 = Done c2 /\
        encodeMessage fuel n e (m1 ++ m2) = Done (c1 ++ c2).
Proof.
  intros Hn He Hei.
  destruct (blockSize_for n Hn) as (h & Hh & Hblock & _).
  exists h. split; [exact Hh|]. split; [exact Hblock|].
  intros m1 m2 fuel Hu1 Hu2 Hmem Hmod Hfuel.
  unfold inMemory, len in Hmem. rewrite length_app in Hmem, Hfuel.
  exists (cipher_text n e h m1), (cipher_text n e h m2).
  split; [|split].
  - apply encodeMessage_run; try assumption; try lia. unfold inMemory, len. lia.
  - apply encodeMessage_run; try assumption; try lia. unfold inMemory, len. lia.
  - rewrite <- cipher_text_app by (assumption || lia).
    apply encodeMessage_run; try assumption; try lia.
    + apply Forall_app. now split.
    + unfold inMemory, len. rewrite length_app. lia.
    + rewrite length_app. lia.
Qed.

Lemma encodeMessage_blockwise_witness :
  exists h : nat,
    (1 <= h <= 9)%nat /\
    (forall f, (11 <= f)%nat -> blockSize f 3233 = Done (2 * Z.of_nat h)) /\
    forall (m1 m2 : gostring) (fuel : nat),
      Forall isUpper m1 -> Forall isUpper m2 -> inMemory (m1 ++ m2) ->
      (length m1 mod h = 0)%nat ->
      (11 + length (m1 ++ m2) + Z.to_nat 17 <= fuel)%nat ->
      exists c1 c2 : gostring,
        encodeMessage fuel 3233 17 m1 = Done c1 /\
        encodeMessage fuel 3233 17 m2 = Done c2 /\
        encodeMessage fuel 3233 17 (m1 ++ m2) = Done (c1 ++ c2).
Proof.
  apply (encodeMessage_blockwise 3233 17).
  - unfold maxInt64. lia.
  - lia.
  - int64_lia.
Defined.

Lemma cipher_text_padded (n e : Z) (h : nat) (msg : gostring) :
  (1 <= h)%nat -> Forall isUpper msg ->
  cipher_text n e h (msg ++ repeat "X"%char ((h - length msg mod h) mod h))
  = cipher_text n e h msg.
Proof.
  intros Hh Hup. unfold cipher_text. f_equal. f_equal.
  rewrite map_app, map_repeat. change (code "X") with 23.
  pose proof (windows_padded h (map code msg) Hh (upper_codes msg Hup)) as Hp.
  rewrite !length_app, !repeat_length, !length_map in *. exact Hp.
Qed.

(** X18: a message and the same message followed by the letters X that
    fill its last block have the same ciphertext. *)
Theorem encodeMessage_padding (n e : Z) :
  25 <= n < maxInt64 -> 1 <= e -> int64 e ->
  exists h : nat,
    (1 <= h <= 9)%nat /\
    (forall f, (11 <= f)%nat -> blockSize f n = Done (2 * Z.of_nat h)) /\
    forall (msg : gostring) (fuel : nat),
      Forall isUpper msg -> len msg <= 2 ^ 48 - 9 ->
      (20 + length msg + Z.to_nat e <= fuel)%nat ->
      exists c : gostring,
        encodeMessage fuel n e msg = Done c /\
        encodeMessage fuel n e (msg ++ repeat "X"%char ((h - length msg mod h) mod h))
        = Done c.
Proof.
  intros Hn He Hei.
  destruct (blockSize_for n Hn) as (h & Hh & Hblock & _).
  exists h. split; [exact Hh|]. split; [exact Hblock|].
  intros msg fuel Hup Hmem Hfuel. unfold len in Hmem.
  change (2 ^ 48) with 281474976710656 in Hmem.
  exists (cipher_text n e h msg).
  assert (Hk : ((h - length msg mod h) mod h < h)%nat) by (apply Nat.mod_upper_bound; lia).
  split.
  - apply encodeMessage_run; try assumption; try lia.
    unfold inMemory, len. change (2 ^ 48) with 281474976710656. lia.
  - rewrite <- (cipher_text_padded n e h msg) by (assumption || lia).
    apply encodeMessage_run; try assumption; try lia.
    + apply Forall_app. split; [exact Hup|]. apply Forall_forall.
      intros c Hc. apply repeat_spec in Hc. subst c. unfold isUpper. vm_compute.
      split; discriminate.
    + unfold inMemory, len. rewrite length_app, repeat_length.
      change (2 ^ 48) with 281474976710656. lia.
    + rewrite length_app, repeat_length. lia.
Qed.

Lemma encodeMessage_padding_witness :
  exists h : nat,
    (1 <= h <= 9)%nat /\
    (forall f, (11 <= f)%nat -> blockSize f 3233 = Done (2 * Z.of_nat h)) /\
    forall (msg : gostring) (fuel : nat),
      Forall isUpper msg -> len msg <= 2 ^ 48 - 9 ->
      (20 + length msg + Z.to_nat 17 <= fuel)%nat ->
      exists c : gostring,
        encodeMessage fuel 3233 17 msg = Done c /\
        encodeMessage fuel 3233 17
          (msg ++ repeat "X"%char ((h - length msg mod h) mod h)) = Done c.
Proof.
  apply (encodeMessage_padding 3233 17).
  - unfold maxInt64. lia.
  - lia.
  - int64_lia.
Defined.

(** ** The public exponent 1 *)

Lemma digits_w_zero (w : nat) : digits_w w 0 = repeat "0"%char w.
Proof.
  induction w as [|w IH]; [reflexivity|].
  cbn [digits_w]. change (0 / 10) with 0. rewrite IH.
  change [digitChar (0 mod 10)] with (repeat "0"%char 1).
  rewrite <- repeat_app. f_equal. lia.
Qed.

(* A block written with the width of the modulus: zeros, then the two
   digits of each letter. *)
Lemma block_in_clear (n : Z) (h cb : nat) (w : list Z) :
  (1 <= h)%nat -> full25 h <= n -> n < 10 ^ Z.of_nat cb -> isBlock h w ->
  digits_w cb (block_value w) = repeat "0"%char (cb - 2 * h) ++ pairs w.
Proof.
  intros Hh Hfull Hwidth [Hlen Hcodes].
  pose proof (blockSize_within_width n h cb Hh Hfull Hwidth) as Hcb.
  pose proof (block_value_bound w Hcodes) as Hb.
  pose proof (full25_lt (length w)) as Hlt. rewrite pow100, Hlen in Hlt.
  rewrite Hlen in Hb.
  replace cb with ((cb - 2 * h) + 2 * h)%nat at 1 by lia.
  rewrite digits_w_split, Z.div_small by lia.
  rewrite digits_w_zero, pairs_digits, Hlen by exact Hcodes. reflexivity.
Qed.

(** X19: under the exponent 1 (which generateE can return) encodeMessage
    leaves the blocks as they are: each group is the two-digit codes of the
    letters of the block, after the zeros that fill the width of n. *)
Theorem encodeMessage_exponent_one (n : Z) (msg : gostring) :
  25 <= n < maxInt64 -> Forall isUpper msg -> inMemory msg ->
  exists h cb : nat,
    (1 <= h <= 9)%nat /\
    (forall f, (11 <= f)%nat -> blockSize f n = Done (2 * Z.of_nat h)) /\
    countDigits n = Z.of_nat cb /\
    forall fuel : nat, (12 + length msg <= fuel)%nat ->
      encodeMessage fuel n 1 msg
      = Done (concat (map (fun w => repeat "0"%char (cb - 2 * h) ++ pairs w ++ lit " ")
                          (windows (length msg) h (map code msg)))).
Proof.
  intros Hn Hup Hmem.
  destruct (blockSize_for n Hn) as (h & Hh & Hblock & Hfull).
  destruct (countDigits_for n ltac:(lia)) as (cb & Hcb1 & Hcb & Hwidth).
  exists h, cb. split; [exact Hh|]. split; [exact Hblock|]. split; [exact Hcb|].
  intros fuel Hfuel.
  rewrite (encodeMessage_run n 1 h msg fuel); try assumption; try lia; [|int64_lia].
  unfold cipher_text. apply f_equal. apply f_equal. apply map_ext_in. intros w Hw.
  apply (windows_In (length msg) h (map code msg) w (upper_codes msg Hup)) in Hw.
  rewrite modpow_value_one, Hcb, Nat2Z.id.
  pose proof (block_value_bound w (proj2 Hw)) as Hb. rewrite (proj1 Hw) in Hb.
  rewrite Sprintf_0d_small by lia.
  rewrite (block_in_clear n h cb w) by (assumption || lia).
  now rewrite <- app_assoc.
Qed.

Lemma encodeMessage_exponent_one_witness :
  exists h cb : nat,
    (1 <= h <= 9)%nat /\
    (forall f, (11 <= f)%nat -> blockSize f 3233 = Done (2 * Z.of_nat h)) /\
    countDigits 3233 = Z.of_nat cb /\
    forall fuel : nat, (12 + length (lit "HELLO") <= fuel)%nat ->
      encodeMessage fuel 3233 1 (lit "HELLO")
      = Done (concat (map (fun w => repeat "0"%char (cb - 2 * h) ++ pairs w ++ lit " ")
                          (windows (length (lit "HELLO")) h (map code (lit "HELLO"))))).
Proof.
  apply (encodeMessage_exponent_one 3233 (lit "HELLO")).
  - unfold maxInt64. lia.
  - apply isUpper_check. vm_compute. reflexivity.
  - unfold inMemory. vm_compute. discriminate.
Defined.

(** ** A modulus below 25, an empty message *)

Lemma blocks_loop_stuck (ms : list gostring) :
  ms <> [] ->
  forall (fuel : nat) (blocks : list gostring),
    blocks_loop fuel 0 0 ms blocks = OutOfFuel.
Proof.
  intros Hms. induction fuel as [|fuel IH]; intros blocks; [reflexivity|].
  rewrite blocks_loop_S.
  destruct (Z.ltb_spec 0 (len ms)) as [_|Hle].
  - change (add64 0 0) with 0. apply IH.
  - destruct ms; [contradiction|]. unfold len in Hle. cbn [length] in Hle. lia.
Qed.

Lemma letterCodes_nonempty (msg : gostring) : msg <> [] -> letterCodes msg <> [].
Proof.
  intros Hm. destruct msg as [|c msg]; [contradiction|].
  unfold letterCodes, runes. cbn [length runes_from].
  destruct (decodeRune (c :: msg)) as [r w]. discriminate.
Qed.

(** X20: for n < 25 blockSize(n) is 0, the loop over the letters advances
    by 0 and encodeMessage never returns on a message that is not
    empty. *)
Theorem encodeMessage_small_modulus (n e : Z) (msg : gostring) (fuel : nat) :
  n < 25 -> msg <> [] ->
  (forall f, (11 <= f)%nat -> blockSize f n = Done 0) /\
  encodeMessage fuel n e msg = OutOfFuel.
Proof.
  intros Hn Hmsg.
  destruct (blockSize_spec n ltac:(unfold maxInt64; lia)) as (h & Hh & Hrun & Hfull & Hnext).
  assert (h = 0%nat).
  { destruct h as [|h]; [reflexivity|exfalso].
    specialize (Hfull ltac:(lia)).
    assert (Hmono : forall i j : nat, (i <= j)%nat -> full25 i <= full25 j).
    { intros i j Hij. induction Hij as [|j _ IHj]; [lia|].
      pose proof (full25_mono j). lia. }
    specialize (Hmono 1%nat (S h) ltac:(lia)). change (full25 1) with 25 in Hmono. lia. }
  subst h. change (2 * Z.of_nat 0) with 0 in Hrun.
  split; [exact Hrun|].
  unfold encodeMessage. cbv zeta.
  destruct (blockSize fuel n) as [b|f|] eqn:Eb; cbn [bind]; [| |reflexivity].
  - assert (b = 0)
      by (apply (fuel_monotone_done _ fuel 11%nat b 0 (blockSize_fuel n) Eb); now apply Hrun).
    subst b. change (Z.quot 0 2) with 0.
    rewrite blocks_loop_stuck by (now apply letterCodes_nonempty). reflexivity.
  - exfalso. unfold blockSize in Eb.
    destruct (blockSize_loop fuel n []) as [s|f'|] eqn:El; cbn [bind] in Eb;
      try discriminate.
    now apply (blockSize_loop_no_abort fuel n [] f').
Qed.

Lemma encodeMessage_small_modulus_witness :
  (forall f, (11 <= f)%nat -> blockSize f 15 = Done 0) /\
  encodeMessage 1000 15 9 (lit "A") = OutOfFuel.
Proof.
  apply (encodeMessage_small_modulus 15 9 (lit "A") 1000).
  - lia.
  - discriminate.
Defined.

(** X21: below the largest int64 modulus, encodeMessage returns the empty
    string on the empty message and decodeMessage returns the empty string
    on a string of spaces, whatever the exponent. *)
Theorem empty_message (n k : Z) (fuel spaces : nat) :
  n < maxInt64 -> (11 <= fuel)%nat ->
  encodeMessage fuel n k [] = Done [] /\
  decodeMessage fuel n k (repeat " "%char spaces) = Done [].
Proof.
  intros Hn Hfuel.
  destruct (blockSize_spec n Hn) as (h & _ & Hrun & _).
  destruct fuel as [|fuel']; [lia|]. split.
  - unfold encodeMessage. cbv zeta. rewrite Hrun by lia. reflexivity.
  - assert (Hs : removeSpaces (repeat " "%char spaces) = []).
    { induction spaces as [|s IH]; [reflexivity|]. exact IH. }
    unfold decodeMessage. cbv zeta. rewrite Hs, Hrun by lia. reflexivity.
Qed.

Lemma empty_message_witness :
  encodeMessage 11 3233 17 [] = Done [] /\
  decodeMessage 11 3233 17 (repeat " "%char 2) = Done [].
Proof.
  apply (empty_message 3233 17 11 2).
  - vm_compute. reflexivity.
  - lia.
Defined.

(** ** What decodeMessage returns *)

Lemma alphabet_letter (k : Z) :
  0 <= k < len alphabet ->
  exists c : ascii,
    string_of_rune (byte_val (nth (Z.to_nat k) alphabet zero)) = [c] /\ isUpper c.
Proof.
  intros Hk. change (len alphabet) with 26 in Hk.
  exists (letter k). split.
  - apply string_of_rune_byte. apply letter_ascii.
  - assert (Hall : forallb (fun j => (65 <=? byte_val (letter (Z.of_nat j)))
                                     && (byte_val (letter (Z.of_nat j)) <=? 90))
                           (seq 0 26) = true) by (vm_compute; reflexivity).
    rewrite forallb_forall in Hall. specialize (Hall (Z.to_nat k)).
    rewrite in_seq in Hall. specialize (Hall ltac:(lia)).
    rewrite Z2Nat.id in Hall by lia. apply andb_true_iff in Hall.
    unfold isUpper. lia.
Qed.

Lemma block_letters_upper (fuel : nat) :
  forall (b out : gostring),
    (length b <= fuel)%nat -> block_letters b = Done out ->
    Forall isUpper out /\ (2 * length out = length b)%nat.
Proof.
  induction fuel as [|fuel IH]; intros b out Hlen H.
  - destruct b; [|simpl in Hlen; lia]. injection H as <-. split; [constructor|reflexivity].
  - destruct b as [|c0 [|c1 b]].
    + injection H as <-. split; [constructor|reflexivity].
    + discriminate.
    + rewrite block_letters_cons in H. cbv zeta in H.
      set (letterint := Atoi (string_of_rune (byte_val c0) ++ string_of_rune (byte_val c1))) in *.
      destruct ((letterint <? 0) || (len alphabet <=? letterint)) eqn:Ec;
        [discriminate|].
      apply orb_false_iff in Ec. destruct Ec as [E0 E1].
      apply Z.ltb_ge in E0. apply Z.leb_gt in E1.
      destruct (alphabet_letter letterint ltac:(lia)) as (c & Ec & Hc).
      rewrite Ec in H.
      destruct (block_letters b) as [rest| |] eqn:Er; cbn [bind] in H; try discriminate.
      injection H as <-.
      destruct (IH b rest ltac:(cbn [length] in Hlen; lia) Er) as [Hup Hl].
      split; [constructor; assumption|]. cbn [length app]. lia.
Qed.

Lemma blocks_letters_upper (blocks : list gostring) :
  forall out : gostring, blocks_letters blocks = Done out -> Forall isUpper out.
Proof.
  induction blocks as [|b blocks IH]; intros out H; cbn [blocks_letters] in H.
  - injection H as <-. constructor.
  - destruct (block_letters b) as [s| |] eqn:Es; cbn [bind] in H; try discriminate.
    destruct (blocks_letters blocks) as [rest| |] eqn:Er; cbn [bind] in H;
      try discriminate.
    injection H as <-. apply Forall_app. split.
    + now apply (block_letters_upper (length b) b s).
    + now apply IH.
Qed.

(** X22: whatever its input, a string that decodeMessage returns holds
    letters A..Z only. *)
Theorem decodeMessage_letters (fuel : nat) (n d : Z) (msg out : gostring) :
  decodeMessage fuel n d msg = Done out -> Forall isUpper out.
Proof.
  intros H. unfold decodeMessage in H. cbv zeta in H.
  destruct (chunks_loop fuel (countDigits n) 0 (removeSpaces msg) [])
    as [cBlocks| |]; cbn [bind] in H; try discriminate.
  destruct (blockSize fuel n) as [bSize| |]; cbn [bind] in H; try discriminate.
  destruct (crypt_blocks fuel n d (Z.to_nat bSize) cBlocks) as [blocks| |];
    cbn [bind] in H; try discriminate.
  now apply (blocks_letters_upper blocks).
Qed.

Lemma decodeMessage_letters_witness :
  decodeMessage 100 3233 2753 (lit "2037 ") = Done (lit "AX") /\
  Forall isUpper (lit "AX").
Proof.
  split; [vm_compute; reflexivity|].
  apply (decodeMessage_letters 100 3233 2753 (lit "2037 ") (lit "AX")).
  vm_compute. reflexivity.
Defined.

(** ** Keys given by the user, signatures *)

Section AnyKey.

Variables (n e d : Z) (h cb : nat) (F : nat).
Hypothesis Hn : 25 <= n <= modpowLimit.
Hypothesis He : 1 <= e.
Hypothesis Hei : int64 e.
Hypothesis Hd : 1 <= d.
Hypothesis Hdi : int64 d.
Hypothesis Hid : forall x, 0 <= x < n -> (x ^ e mod n) ^ d mod n = x.
Hypothesis Hh : (1 <= h <= 9)%nat.
Hypothesis Hfull : full25 h < n.
Hypothesis Hblock : forall fuel, (11 <= fuel)%nat -> blockSize fuel n = Done (2 * Z.of_nat h).
Hypothesis Hcb : countDigits n = Z.of_nat cb.
Hypothesis Hcb1 : (1 <= cb <= 10)%nat.
Hypothesis Hwidth : n < 10 ^ Z.of_nat cb.
Hypothesis HF : (Z.to_nat e + Z.to_nat d + 11 <= F)%nat.

Lemma block_below (w : list Z) : isBlock h w -> 0 <= block_value w < n.
Proof.
  intros [Hlen Hw]. pose proof (block_value_bound w Hw) as Hv.
  rewrite Hlen in Hv. lia.
Qed.

(* The ciphertext in terms of powers. *)
Lemma cipher_text_power (msg : gostring) :
  Forall isUpper msg ->
  cipher_text n e h msg
  = concat (map (fun c => c ++ lit " ")
                (map (enc_block n e cb) (windows (length msg) h (map code msg)))).
Proof.
  intros Hup. unfold cipher_text. rewrite map_map.
  apply f_equal. apply map_ext_in. intros w Hw. apply (f_equal (fun s => s ++ lit " ")).
  apply (windows_In (length msg) h (map code msg) w (upper_codes msg Hup)) in Hw.
  pose proof (block_below w Hw) as Hv.
  assert (Hrun : modpow (Z.to_nat e) (block_value w) e n
                 = Done (block_value w ^ e mod n))
    by (apply modpow_pow_mod; unfold modpowLimit in *; lia || assumption).
  unfold modpow_value, enc_block. rewrite Hrun, Hcb, Nat2Z.id.
  pose proof (Z.mod_pos_bound (block_value w ^ e) n ltac:(lia)).
  apply Sprintf_0d_small; lia.
Qed.

Lemma decrypt_any (ws : list (list Z)) :
  Forall (isBlock h) ws ->
  crypt_blocks F n d (2 * h) (map (enc_block n e cb) ws) = Done (map pairs ws).
Proof.
  intros Hws.
  rewrite (crypt_blocks_map F n d _ (fun b => Atoi b ^ d mod n)).
  - f_equal. rewrite map_map. apply map_ext_in. intros w Hw.
    rewrite Forall_forall in Hws. specialize (Hws w Hw).
    pose proof (block_below w Hws) as Hv. destruct Hws as [Hlen Hcodes].
    pose proof (Z.mod_pos_bound (block_value w ^ e) n ltac:(lia)) as Hc.
    unfold modpowLimit in Hn.
    unfold enc_block. rewrite Atoi_digits_w; [| lia | lia | unfold maxInt64; lia].
    rewrite Hid by exact Hv.
    pose proof (block_value_bound w Hcodes) as Hb.
    pose proof (full25_lt (length w)) as Hlt. rewrite pow100 in Hlt.
    rewrite pairs_digits by exact Hcodes. rewrite Hlen in *.
    apply Sprintf_0d_small; lia.
  - intros b Hb. apply in_map_iff in Hb. destruct Hb as (w & <- & Hw).
    rewrite Forall_forall in Hws. specialize (Hws w Hw).
    pose proof (block_below w Hws) as Hv.
    pose proof (Z.mod_pos_bound (block_value w ^ e) n ltac:(lia)) as Hc.
    unfold modpowLimit in Hn.
    unfold enc_block. rewrite Atoi_digits_w; [| lia | lia | unfold maxInt64; lia].
    apply modpow_pow_mod; unfold modpowLimit; lia || assumption.
Qed.

Lemma decode_any (ws : list (list Z)) :
  Forall (isBlock h) ws -> (cb * length ws < F)%nat -> len ws <= 2 ^ 48 ->
  decodeMessage F n d (concat (map (fun c => c ++ lit " ") (map (enc_block n e cb) ws)))
  = Done (map letter (concat ws)).
Proof.
  intros Hws Hfuel Hmem. unfold len in Hmem.
  change (2 ^ 48) with 281474976710656 in Hmem.
  destruct (enc_blocks_shape n e h cb (Z.to_nat (n + 65536) + 11) Hh Hcb1
              ltac:(lia) ws) as (Hdig & Hshape & Hlen).
  unfold decodeMessage. cbv zeta.
  rewrite removeSpaces_digits by exact Hdig.
  set (m := concat (map (enc_block n e cb) ws)) in *.
  assert (Hchunks : chunks_loop F (countDigits n) 0 m [] = Done (map (enc_block n e cb) ws)).
  { apply (chunks_loop_fuel (countDigits n) m 0 [] (S (length m)) F);
      [lia | | discriminate].
    rewrite Hcb.
    pose proof (chunks_loop_spec m cb ltac:(lia)
                  ltac:(unfold len, maxInt64; rewrite Hlen; nia)
                  (length m) 0 [] ltac:(lia) ltac:(simpl; lia)) as Hs.
    change (Z.of_nat 0) with 0 in Hs. rewrite Hs.
    cbn [skipn app]. unfold m. rewrite split_chunks_concat; try (exact Hshape || lia).
    reflexivity. }
  rewrite Hchunks. cbn [bind]. rewrite Hblock by lia. cbn [bind].
  replace (Z.to_nat (2 * Z.of_nat h)) with (2 * h)%nat by lia.
  rewrite decrypt_any by exact Hws. cbn [bind].
  apply blocks_letters_pairs.
  eapply Forall_impl; [|exact Hws]. intros w [_ Hw]. exact Hw.
Qed.

End AnyKey.

(* Encoding under (n, e) then decoding under (n, d), whenever the two
   exponents undo each other on the residues of n. *)
Lemma codec_roundtrip (n e d : Z) (msg : gostring) :
  25 <= n <= modpowLimit -> (forall k : nat, n <> full25 k) ->
  1 <= e -> int64 e -> 1 <= d -> int64 d ->
  (forall x, 0 <= x < n -> (x ^ e mod n) ^ d mod n = x) ->
  Forall isUpper msg -> inMemory msg ->
  exists (h : nat) (cipher : gostring),
    (1 <= h <= 9)%nat /\
    (forall f, (11 <= f)%nat -> blockSize f n = Done (2 * Z.of_nat h)) /\
    forall fuel : nat,
      (Z.to_nat e + Z.to_nat d + 10 * length msg + 11 <= fuel)%nat ->
      encodeMessage fuel n e msg = Done cipher /\
      decodeMessage fuel n d cipher
      = Done (msg ++ repeat "X"%char ((h - length msg mod h) mod h)).
Proof.
  intros Hn Hnot He Hei Hd Hdi Hid Hup Hmem.
  assert (Hmax : n < maxInt64) by (unfold modpowLimit in Hn; unfold maxInt64; lia).
  destruct (blockSize_for n ltac:(lia)) as (h & Hh & Hblock & Hfull).
  assert (Hlt : full25 h < n) by (specialize (Hnot h); lia).
  destruct (countDigits_nonneg n ltac:(lia) ltac:(int64_lia)) as [Hcb Hwidth].
  set (cb := numDigits n) in *.
  assert (Hcb1 : (1 <= cb <= 10)%nat).
  { split; [apply numDigits_pos|]. apply numDigits_from_le; [lia|].
    change (10 ^ Z.of_nat 10) with 10000000000. unfold modpowLimit in Hn. lia. }
  set (ws := windows (length msg) h (map code msg)).
  assert (Hws : Forall (isBlock h) ws).
  { apply Forall_forall. intros w Hw.
    apply (windows_In (length msg) h (map code msg)); [now apply upper_codes | exact Hw]. }
  assert (Hwl : (length ws <= length msg)%nat).
  { unfold ws. etransitivity; [apply windows_length; lia|].
    rewrite length_map. lia. }
  exists h, (cipher_text n e h msg). split; [exact Hh|]. split; [exact Hblock|].
  intros fuel Hfuel. split.
  - apply encodeMessage_run; try assumption; lia.
  - assert (HF : (Z.to_nat e + Z.to_nat d + 11 <= fuel)%nat) by lia.
    rewrite (cipher_text_power n e d h cb fuel Hn He Hei Hd Hh Hlt Hcb Hcb1 Hwidth HF
               msg Hup).
    fold ws.
    rewrite (decode_any n e d h cb fuel Hn He Hd Hdi Hid Hh Hlt Hblock Hcb Hcb1
               Hwidth HF ws Hws).
    + f_equal. unfold ws.
      rewrite windows_concat by (try rewrite length_map; lia).
      rewrite map_app, map_map, map_repeat, length_map. f_equal.
      rewrite <- (map_id msg) at 2. apply map_ext_in. intros c Hc.
      apply letter_code. rewrite Forall_forall in Hup. now apply Hup.
    + nia.
    + unfold inMemory, len in *. lia.
Qed.

(** X23: for any modulus n = p * q of two distinct primes with
    25 <= n <= 3037000500 and any exponents e, d >= 1 with
    e * d = 1 modulo (p-1) * (q-1), generated by the program or not,
    decodeMessage(n, d, encodeMessage(n, e, msg)) returns the message of
    letters msg followed by the letters X that fill its last block. *)
Theorem roundtrip_user_key (p q n e d : Z) (msg : gostring) :
  Z.prime p -> Z.prime q -> p <> q -> n = p * q ->
  25 <= n <= modpowLimit ->
  1 <= e -> int64 e -> 1 <= d -> int64 d ->
  (e * d) mod ((p - 1) * (q - 1)) = 1 ->
  Forall isUpper msg -> inMemory msg ->
  exists (h : nat) (cipher : gostring),
    (1 <= h <= 9)%nat /\
    (forall f, (11 <= f)%nat -> blockSize f n = Done (2 * Z.of_nat h)) /\
    forall fuel : nat,
      (Z.to_nat e + Z.to_nat d + 10 * length msg + 11 <= fuel)%nat ->
      encodeMessage fuel n e msg = Done cipher /\
      decodeMessage fuel n d cipher
      = Done (msg ++ repeat "X"%char ((h - length msg mod h) mod h)).
Proof.
  intros Hp Hq Hne -> Hn He Hei Hd Hdi Hinv Hup Hmem.
  apply codec_roundtrip; try assumption.
  - intros k E. apply (semiprime_not_div25 p q Hp Hq Hne).
    rewrite E. apply full25_div25.
  - intros x Hx. rewrite Z.mod_pow_l, <- Z.pow_mul_r by lia.
    apply rsa_identity; try assumption. nia.
Qed.

Lemma roundtrip_user_key_witness :
  exists (h : nat) (cipher : gostring),
    (1 <= h <= 9)%nat /\
    (forall f, (11 <= f)%nat -> blockSize f 3233 = Done (2 * Z.of_nat h)) /\
    forall fuel : nat,
      (Z.to_nat 17 + Z.to_nat 2753 + 10 * length (lit "HELLO") + 11 <= fuel)%nat ->
      encodeMessage fuel 3233 17 (lit "HELLO") = Done cipher /\
      decodeMessage fuel 3233 2753 cipher
      = Done (lit "HELLO" ++ repeat "X"%char ((h - length (lit "HELLO") mod h) mod h)).
Proof.
  apply (roundtrip_user_key 61 53 3233 17 2753 (lit "HELLO")).
  - apply trial_division_prime. vm_compute. reflexivity.
  - apply trial_division_prime. vm_compute. reflexivity.
  - discriminate.
  - reflexivity.
  - unfold modpowLimit. lia.
  - lia.
  - int64_lia.
  - lia.
  - int64_lia.
  - reflexivity.
  - apply isUpper_check. vm_compute. reflexivity.
  - unfold inMemory. vm_compute. discriminate.
Defined.

(** X24: signing as main does (encodeMessage under the private exponent)
    and verifying (decodeMessage under the public exponent) returns the
    message followed by the letters X that fill its last block, for keys
    generated from two distinct primes with n >= 25. *)
Theorem signature_roundtrip (fuel : nat) (rnd : tape) (p q n e d : Z)
        (msg : gostring) :
  genereateRSAKeys_run fuel rnd = Done (p, q, (n, e, d)) ->
  Z.prime p -> Z.prime q -> p <> q -> 25 <= n ->
  Forall isUpper msg -> inMemory msg ->
  exists (h : nat) (signature : gostring),
    (1 <= h <= 9)%nat /\
    (forall f, (11 <= f)%nat -> blockSize f n = Done (2 * Z.of_nat h)) /\
    forall fuel' : nat,
      (Z.to_nat (n + 65536) + 10 * length msg + 11 <= fuel')%nat ->
      encodeMessage fuel' n d msg = Done signature /\
      decodeMessage fuel' n e signature
      = Done (msg ++ repeat "X"%char ((h - length msg mod h) mod h)).
Proof.
  intros Hrun Hp Hq Hne Hn25 Hup Hmem.
  destruct (keys_facts fuel rnd p q n e d Hrun Hp Hq Hne)
    as (En & Hn & He & Hd & _).
  apply genereateRSAKeys_run_inv in Hrun.
  destruct Hrun as (_ & _ & _ & _ & _ & _ & Hinv).
  destruct (codec_roundtrip n d e msg) as (h & signature & Hh & Hblock & Hrt);
    try assumption; try lia; try int64_lia.
  - unfold modpowLimit. lia.
  - intros k E. apply (semiprime_not_div25 p q Hp Hq Hne).
    rewrite <- En, E. apply full25_div25.
  - intros x Hx. rewrite Z.mod_pow_l, <- Z.pow_mul_r by lia.
    rewrite En in *. apply rsa_identity; try assumption; [nia|].
    now rewrite Z.mul_comm.
  - exists h, signature. split; [exact Hh|]. split; [exact Hblock|].
    intros fuel' Hfuel. apply Hrt. lia.
Qed.

Lemma signature_roundtrip_witness :
  exists (h : nat) (signature : gostring),
    (1 <= h <= 9)%nat /\
    (forall f, (11 <= f)%nat -> blockSize f 3233 = Done (2 * Z.of_nat h)) /\
    forall fuel' : nat,
      (Z.to_nat (3233 + 65536) + 10 * length (lit "HELLO") + 11 <= fuel')%nat ->
      encodeMessage fuel' 3233 2753 (lit "HELLO") = Done signature /\
      decodeMessage fuel' 3233 17 signature
      = Done (lit "HELLO" ++ repeat "X"%char ((h - length (lit "HELLO") mod h) mod h)).
Proof.
  apply (signature_roundtrip (Z.to_nat 2003120)
           [("061", "000"); ("053", "000"); ("017", "000")]%char 61 53 3233 17 2753
           (lit "HELLO")).
  - apply textbook_run. apply Nat.le_refl.
  - apply trial_division_prime. vm_compute. reflexivity.
  - apply trial_division_prime. vm_compute. reflexivity.
  - discriminate.
  - lia.
  - apply isUpper_check. vm_compute. reflexivity.
  - unfold inMemory. vm_compute. discriminate.
Defined.

(** ** A ciphertext that is not made of numbers *)

(* strconv.Atoi fails on a string that starts with a character above the
   digits, and the callers read 0. *)
Lemma Atoi_not_number (c : ascii) (s : gostring) :
  58 <= byte_val c <= 127 -> Atoi (c :: s) = 0.
Proof.
  intros Hc. unfold Atoi.
  destruct (Ascii.eqb_spec c "-") as [->|_];
    [unfold byte_val in Hc; simpl in Hc; lia|].
  destruct (Ascii.eqb_spec c "+") as [->|_];
    [unfold byte_val in Hc; simpl in Hc; lia|].
  cbn [orb parseUint]. unfold digit_val.
  destruct (Z.leb_spec (byte_val c) 57); [lia|].
  rewrite andb_false_r. reflexivity.
Qed.

Lemma modpow_zero_base (fuel : nat) :
  forall b n : Z,
    1 <= b -> int64 b -> n <> 0 -> int64 n -> (Z.to_nat b <= fuel)%nat ->
    modpow fuel 0 b n = Done 0.
Proof.
  induction fuel as [|fuel IH]; intros b n Hb Hbi Hn Hni Hfuel; [lia|].
  cbn [modpow]. destruct (Z.eqb_spec b 1) as [->|Hb1]; [reflexivity|].
  assert (Hh : 1 <= b / 2) by (apply Z.div_le_lower_bound; lia).
  assert (Hh2 : b / 2 < b) by (apply Z.div_lt; lia).
  rewrite div64_nonneg by (assumption || lia). cbn [bind].
  rewrite IH; try assumption; try lia; [|int64_lia]. cbn [bind].
  rewrite mod_nonzero by assumption. rewrite Z.mod_0_l by exact Hn. cbn [bind].
  rewrite rem64_nonneg by lia. cbn [bind].
  change (mul64 0 0) with 0.
  rewrite mod_nonzero by assumption. rewrite Z.mod_0_l by exact Hn.
  destruct (b mod 2 =? 0); [reflexivity|]. cbn [bind].
  change (mul64 0 0) with 0.
  rewrite mod_nonzero by assumption. rewrite Z.mod_0_l by exact Hn. reflexivity.
Qed.

Lemma Forall_skipn {A : Type} (P : A -> Prop) (k : nat) (l : list A) :
  Forall P l -> Forall P (skipn k l).
Proof.
  intros H. rewrite <- (firstn_skipn k l) in H. apply Forall_app in H. tauto.
Qed.

(* The chunks of a string of such characters. *)
Lemma split_chunks_not_numbers (cb : nat) :
  (1 <= cb)%nat ->
  forall (fuel : nat) (l : gostring) (cs : list gostring),
    (length l <= fuel)%nat ->
    Forall (fun c => 58 <= byte_val c <= 127) l ->
    split_chunks fuel cb l = Some cs ->
    Forall (fun b => Atoi b = 0) cs /\ (length cs * cb = length l)%nat.
Proof.
  intros Hcb. induction fuel as [|fuel IH]; intros l cs Hfuel Hl H.
  - destruct l; [|simpl in Hfuel; lia]. injection H as <-. split; [constructor|reflexivity].
  - destruct l as [|x l].
    + injection H as <-. split; [constructor|reflexivity].
    + assert (Hm : length (x :: l) = S (length l)) by reflexivity.
      set (m := x :: l) in *.
      rewrite split_chunks_S in H by (apply nonempty_length; lia).
      destruct (Nat.ltb_spec (length m) cb) as [Hshort|Hfull]; [discriminate|].
      destruct (split_chunks fuel cb (skipn cb m)) as [cs'|] eqn:Es;
        cbn [option_map] in H; [|discriminate].
      injection H as <-.
      destruct (IH (skipn cb m) cs') as [Hcs Hlen];
        [rewrite length_skipn; lia | now apply Forall_skipn | exact Es |].
      rewrite length_skipn in Hlen. split.
      * constructor; [|exact Hcs].
        rewrite chunk_text_ascii.
        -- destruct cb as [|cb']; [lia|]. unfold m. rewrite firstn_cons.
           apply Atoi_not_number. now inversion Hl.
        -- rewrite <- (firstn_skipn cb m) in Hl. apply Forall_app in Hl.
           destruct Hl as [Hl _]. eapply Forall_impl; [|exact Hl].
           intros c Hc. cbv beta in Hc. lia.
      * cbn [length]. lia.
Qed.

Lemma block_value_zeros (h : nat) : block_value (repeat 0 h) = 0.
Proof.
  induction h as [|h IH]; [reflexivity|]. cbn [repeat block_value]. rewrite IH. lia.
Qed.

Lemma concat_repeat_repeat {A : Type} (a : A) (h k : nat) :
  concat (repeat (repeat a h) k) = repeat a (k * h).
Proof.
  induction k as [|k IH]; [reflexivity|].
  cbn [repeat concat]. rewrite IH, <- repeat_app. f_equal.
Qed.

(** X25: decodeMessage does not check that the ciphertext is made of
    numbers: when the ciphertext, its spaces removed, holds only characters
    above the digits (letters, say) and its length is a multiple of
    countDigits(n), every group is read as 0 and decodeMessage returns
    blockSize(n)/2 letters A per group, for every n >= 25 and d >= 1. *)
Theorem decodeMessage_not_numbers (n d : Z) (msg : gostring) :
  25 <= n < maxInt64 -> 1 <= d -> int64 d ->
  Forall (fun c => 58 <= byte_val c <= 127) (removeSpaces msg) ->
  inMemory msg ->
  len (removeSpaces msg) mod countDigits n = 0 ->
  exists h k : nat,
    (forall f, (11 <= f)%nat -> blockSize f n = Done (2 * Z.of_nat h)) /\
    len (removeSpaces msg) = Z.of_nat k * countDigits n /\
    forall fuel : nat, (11 + length msg + Z.to_nat d <= fuel)%nat ->
      decodeMessage fuel n d msg = Done (repeat "A"%char (k * h)).
Proof.
  intros Hn Hd Hdi Hchars Hmem Hmod.
  destruct (blockSize_spec n ltac:(lia)) as (h & Hh & Hblock & Hfull & Hnext).
  assert (Hh1 : (1 <= h)%nat).
  { destruct h as [|h]; [|lia]. specialize (Hnext 1%nat ltac:(lia)).
    change (full25 1) with 25 in Hnext. lia. }
  destruct (countDigits_nonneg n ltac:(lia) ltac:(int64_lia)) as [Hcb _].
  set (cb := numDigits n) in *.
  assert (Hcb1 : (1 <= cb)%nat) by apply numDigits_pos.
  set (m := removeSpaces msg) in *.
  assert (Hlm : (length m <= length msg)%nat) by apply filter_length_le.
  unfold inMemory, len in Hmem. change (2 ^ 48) with 281474976710656 in Hmem.
  assert (Hnatmod : (length m mod cb = 0)%nat).
  { unfold len in Hmod. rewrite Hcb in Hmod.
    rewrite <- Nat2Z.inj_mod in Hmod. lia. }
  destruct (split_chunks (length m) cb m) as [cs|] eqn:Es.
  2:{ apply split_chunks_none in Es; [contradiction | lia | lia]. }
  destruct (split_chunks_not_numbers cb Hcb1 (length m) m cs ltac:(lia) Hchars Es)
    as [Hcs Hlen].
  exists h, (length cs). split; [exact Hblock|]. split.
  { unfold len. rewrite Hcb. lia. }
  intros fuel Hfuel. unfold decodeMessage. cbv zeta. fold m.
  assert (Hchunks : chunks_loop fuel (countDigits n) 0 m [] = Done cs).
  { apply (chunks_loop_fuel (countDigits n) m 0 [] (S (length m)) fuel);
      [lia | | discriminate].
    rewrite Hcb.
    pose proof (chunks_loop_spec m cb Hcb1 ltac:(unfold len; int64_lia)
                  (length m) 0 [] ltac:(lia) ltac:(simpl; lia)) as Hs.
    change (Z.of_nat 0) with 0 in Hs. rewrite Hs. cbn [skipn].
    rewrite Es. reflexivity. }
  rewrite Hchunks. cbn [bind]. rewrite Hblock by lia. cbn [bind].
  replace (Z.to_nat (2 * Z.of_nat h)) with (2 * h)%nat by lia.
  rewrite (crypt_blocks_map fuel n d _ (fun _ => 0)).
  2:{ intros b Hb. rewrite Forall_forall in Hcs. rewrite (Hcs b Hb).
      apply modpow_zero_base; try assumption; try lia. int64_lia. }
  cbn [bind]. rewrite map_const.
  assert (Hzero : Sprintf_0d (2 * h) 0 = pairs (repeat 0 h)).
  { rewrite Sprintf_0d_small;
      [| lia | split; [lia | apply Z.pow_pos_nonneg; lia]].
    rewrite pairs_digits, repeat_length, block_value_zeros; [reflexivity|].
    apply Forall_forall. intros c Hc. apply repeat_spec in Hc. subst c.
    unfold isCode. lia. }
  rewrite Hzero, <- (map_repeat (repeat 0 h) (length cs) pairs).
  rewrite blocks_letters_pairs.
  - rewrite concat_repeat_repeat, map_repeat. reflexivity.
  - apply Forall_forall. intros w Hw. apply repeat_spec in Hw. subst w.
    apply Forall_forall. intros c Hc. apply repeat_spec in Hc. subst c.
    unfold isCode. lia.
Qed.

Lemma decodeMessage_not_numbers_witness :
  exists h k : nat,
    (forall f, (11 <= f)%nat -> blockSize f 3233 = Done (2 * Z.of_nat h)) /\
    len (removeSpaces (lit "ab cd wxyz")) = Z.of_nat k * countDigits 3233 /\
    forall fuel : nat, (11 + length (lit "ab cd wxyz") + Z.to_nat 2753 <= fuel)%nat ->
      decodeMessage fuel 3233 2753 (lit "ab cd wxyz") = Done (repeat "A"%char (k * h)).
Proof.
  apply (decodeMessage_not_numbers 3233 2753 (lit "ab cd wxyz")).
  - unfold maxInt64. lia.
  - lia.
  - int64_lia.
  - vm_compute. repeat constructor; discriminate.
  - unfold inMemory. vm_compute. discriminate.
  - reflexivity.
Defined.

(** ** The draws that are passed over *)

Lemma generateRandomPrime_skip (fuel : nat) (d : ascii * ascii) (rnd : tape) :
  passed_over (draw d) -> (Z.to_nat 1054773 <= fuel)%nat ->
  generateRandomPrime fuel (d :: rnd) = generateRandomPrime fuel rnd.
Proof.
  intros Hpo Hfuel. destruct d as [b0 b1]. unfold draw in Hpo. cbn [fst snd] in Hpo.
  cbn [generateRandomPrime]. cbv zeta.
  destruct (Z.gtb_spec (uint16_of b0 b1) 54772) as [|Hle]; [reflexivity|].
  destruct Hpo as [Hgt | [H2 | (H3 & a & Ha & Hg & Hw)]]; [lia | |].
  - rewrite H2.
    rewrite (isPrime_fuel 2 10%nat fuel (Done false));
      [reflexivity | lia | vm_compute; reflexivity | discriminate].
  - rewrite isPrime_spec by (unfold modpowLimit; lia).
    rewrite all_pass_false; [reflexivity|].
    exists a. repeat split; try assumption; lia.
Qed.

(* The draws passed over, then a prime within the cap. *)
Lemma generateRandomPrime_accepts (fuel : nat) (skipped : tape)
        (b0 b1 : ascii) (rnd : tape) (p : Z) :
  Forall (fun d => passed_over (draw d)) skipped ->
  uint16_of b0 b1 = p -> Z.prime p -> 3 <= p <= 54772 ->
  (Z.to_nat 1054773 <= fuel)%nat ->
  generateRandomPrime fuel (skipped ++ (b0, b1) :: rnd) = Done (p, rnd).
Proof.
  intros Hsk Ep Hp Hr Hfuel. induction Hsk as [|d skipped Hd _ IH].
  - cbn [app generateRandomPrime]. cbv zeta. rewrite Ep.
    destruct (Z.gtb_spec p 54772); [lia|].
    rewrite isPrime_spec by (unfold modpowLimit; lia).
    rewrite (proj2 (all_pass_true _ _ _)); [reflexivity|].
    intros x _ Hg. apply fermat_little; [exact Hp|].
    apply Z.coprime_prime_l_iff; [exact Hp|].
    unfold Z.coprime. now rewrite Z.gcd_comm.
  - cbn [app]. rewrite generateRandomPrime_skip by assumption. exact IH.
Qed.


(* The draws that share a factor with phi, then a coprime one. *)
Lemma generateE_accepts (fuel : nat) (phi : Z) (skipped : tape)
        (b0 b1 : ascii) (rnd : tape) (e : Z) :
  0 <= phi -> int64 phi -> (Z.to_nat phi < fuel)%nat ->
  Forall (fun d => Z.gcd (draw d) phi <> 1) skipped ->
  uint16_of b0 b1 = e -> Z.gcd e phi = 1 ->
  generateE fuel phi (skipped ++ (b0, b1) :: rnd) = Done (e, rnd).
Proof.
  intros Hphi Hi Hfuel Hsk Ee Hg. induction Hsk as [|[c0 c1] skipped Hd _ IH].
  - cbn [app generateE]. cbv zeta. rewrite Ee.
    pose proof (uint16_of_range b0 b1) as Hr. rewrite Ee in Hr.
    rewrite mdc_spec by (assumption || lia). cbn [bind]. rewrite Hg. reflexivity.
  - cbn [app generateE]. cbv zeta. unfold draw in Hd. cbn [fst snd] in Hd.
    pose proof (uint16_of_range c0 c1) as Hr.
    rewrite mdc_spec by (assumption || lia). cbn [bind].
    destruct (Z.eqb_spec (Z.gcd (uint16_of c0 c1) phi) 1); [contradiction|].
    exact IH.
Qed.


(** X26: generateRandomPrime passes over the draws above 54772, the draw 2
    and the draws from 3 on that have a witness a in [1, 1000000) against
    them, and returns the first draw after them that is a prime between 3
    and 54772, which isPrime accepts. *)
Theorem generateRandomPrime_first_prime (fuel : nat) (skipped : tape)
        (b0 b1 : ascii) (rnd : tape) (p : Z) :
  Forall (fun d => passed_over (draw d)) skipped ->
  uint16_of b0 b1 = p -> Z.prime p -> 3 <= p <= 54772 ->
  (Z.to_nat 1054773 <= fuel)%nat ->
  generateRandomPrime fuel (skipped ++ (b0, b1) :: rnd) = Done (p, rnd) /\
  isPrime fuel p = Done true.
Proof.
  intros Hsk Ep Hp Hr Hfuel.
  pose proof (generateRandomPrime_accepts fuel skipped b0 b1 rnd p Hsk Ep Hp Hr Hfuel)
    as Hrun.
  split; [exact Hrun|].
  now apply (generateRandomPrime_inv fuel _ p rnd Hrun).
Qed.

Lemma generateRandomPrime_first_prime_witness :
  generateRandomPrime (Z.to_nat 1054773)
    ([("255", "255"); ("004", "000"); ("002", "000")] ++ ("061", "000") :: [("053", "000")])%char
  = Done (61, [("053", "000")]%char) /\
  isPrime (Z.to_nat 1054773) 61 = Done true.
Proof.
  apply (generateRandomPrime_first_prime (Z.to_nat 1054773)
           [("255", "255"); ("004", "000"); ("002", "000")]%char "061" "000"
           [("053", "000")]%char 61).
  - constructor; [left; vm_compute; reflexivity|].
    constructor; [right; right; split; [vm_compute; discriminate|];
                  exists 3; split; [lia|]; split; [reflexivity|];
                  vm_compute; discriminate|].
    constructor; [right; left; reflexivity|]. constructor.
  - reflexivity.
  - apply trial_division_prime. vm_compute. reflexivity.
  - lia.
  - apply Nat.le_refl.
Defined.

(** X27: for every phi >= 0, generateE passes over the draws that share a
    factor with phi and returns the first draw that is coprime to phi. *)
Theorem generateE_first_coprime (fuel : nat) (phi : Z) (skipped : tape)
        (b0 b1 : ascii) (rnd : tape) (e : Z) :
  0 <= phi -> int64 phi -> (Z.to_nat phi < fuel)%nat ->
  Forall (fun d => Z.gcd (draw d) phi <> 1) skipped ->
  uint16_of b0 b1 = e -> Z.gcd e phi = 1 ->
  generateE fuel phi (skipped ++ (b0, b1) :: rnd) = Done (e, rnd) /\
  0 <= e <= 65535.
Proof.
  intros Hphi Hi Hfuel Hsk Ee Hg.
  pose proof (generateE_accepts fuel phi skipped b0 b1 rnd e Hphi Hi Hfuel Hsk Ee Hg)
    as Hrun.
  split; [exact Hrun|].
  now apply (generateE_inv fuel phi _ e rnd Hrun).
Qed.

Lemma generateE_first_coprime_witness :
  generateE 3121 3120 ([("000", "000"); ("015", "000")] ++ ("017", "000") :: [])%char
  = Done (17, []) /\
  0 <= 17 <= 65535.
Proof.
  apply (generateE_first_coprime 3121 3120 [("000", "000"); ("015", "000")]%char
           "017" "000" [] 17).
  - lia.
  - int64_lia.
  - vm_compute. lia.
  - constructor; [vm_compute; discriminate|].
    constructor; [vm_compute; discriminate|]. constructor.
  - reflexivity.
  - reflexivity.
Defined.

(** X28: on random bytes that give draws passed over, then a prime p, draws
    passed over, then a prime q, draws that share a factor with
    phi = (p-1) * (q-1), then e coprime to phi, genereateRSAKeys returns
    (p * q, e, d) with 0 <= d < phi and e * d = 1 modulo phi. *)
Theorem genereateRSAKeys_from_draws (fuel : nat) (s1 s2 s3 rest : tape)
        (dp dq de : ascii * ascii) (p q e : Z) :
  Forall (fun d => passed_over (draw d)) s1 ->
  draw dp = p -> Z.prime p -> 3 <= p <= 54772 ->
  Forall (fun d => passed_over (draw d)) s2 ->
  draw dq = q -> Z.prime q -> 3 <= q <= 54772 ->
  Forall (fun d => Z.gcd (draw d) ((p - 1) * (q - 1)) <> 1) s3 ->
  draw de = e -> Z.gcd e ((p - 1) * (q - 1)) = 1 ->
  (Z.to_nat (1054773 + (p - 1) * (q - 1)) <= fuel)%nat ->
  exists d : Z,
    genereateRSAKeys fuel (s1 ++ dp :: s2 ++ dq :: s3 ++ de :: rest)
    = Done (p * q, e, d) /\
    0 <= d < (p - 1) * (q - 1) /\ (e * d) mod ((p - 1) * (q - 1)) = 1.
Proof.
  intros H1 Ep Hp Hpr H2 Eq Hq Hqr H3 Ee Hg Hfuel.
  destruct dp as [p0 p1], dq as [q0 q1], de as [e0 e1].
  unfold draw in Ep, Eq, Ee. cbn [fst snd] in Ep, Eq, Ee.
  assert (Hphi : 4 <= (p - 1) * (q - 1) <= 54771 * 54771)
    by (split; [nia | apply Z.mul_le_mono_nonneg; lia]).
  assert (Hn : 0 <= p * q <= 54772 * 54772)
    by (split; [nia | apply Z.mul_le_mono_nonneg; lia]).
  assert (Ephi : mul64 (sub64 p 1) (sub64 q 1) = (p - 1) * (q - 1)).
  { unfold mul64, sub64. rewrite (wrap64_id (p - 1)), (wrap64_id (q - 1)) by int64_lia.
    apply wrap64_id. int64_lia. }
  pose proof (uint16_of_range e0 e1) as He. rewrite Ee in He.
  destruct (privateExponent_spec e ((p - 1) * (q - 1)) ltac:(lia) ltac:(int64_lia)
              ltac:(lia) ltac:(int64_lia) Hg) as (d & Hrun & Hd & Hinv).
  exists d. split; [|split; assumption].
  unfold genereateRSAKeys, genereateRSAKeys_run.
  rewrite (generateRandomPrime_accepts fuel s1 p0 p1 _ p) by (assumption || lia).
  cbn [bind].
  rewrite (generateRandomPrime_accepts fuel s2 q0 q1 _ q) by (assumption || lia).
  cbn [bind]. cbv zeta. rewrite Ephi.
  rewrite (generateE_accepts fuel _ s3 e0 e1 rest e); try assumption; try lia;
    [|int64_lia].
  cbn [bind]. rewrite Hrun by lia. cbn [bind snd].
  unfold mul64. rewrite wrap64_id by int64_lia. reflexivity.
Qed.

Lemma genereateRSAKeys_from_draws_witness :
  exists d : Z,
    genereateRSAKeys (Z.to_nat 1057893)
      ([("255", "255")] ++ ("061", "000") :: [("004", "000")] ++ ("053", "000")
         :: [("015", "000")] ++ ("017", "000") :: [])%char
    = Done (61 * 53, 17, d) /\
    0 <= d < (61 - 1) * (53 - 1) /\ (17 * d) mod ((61 - 1) * (53 - 1)) = 1.
Proof.
  apply (genereateRSAKeys_from_draws (Z.to_nat 1057893)
           [("255", "255")]%char [("004", "000")]%char [("015", "000")]%char []
           ("061", "000")%char ("053", "000")%char ("017", "000")%char 61 53 17).
  - constructor; [left; vm_compute; reflexivity | constructor].
  - reflexivity.
  - apply trial_division_prime. vm_compute. reflexivity.
  - lia.
  - constructor; [|constructor].
    right; right; split; [vm_compute; discriminate|].
    exists 3; split; [lia|]; split; [reflexivity|]. vm_compute; discriminate.
  - reflexivity.
  - apply trial_division_prime. vm_compute. reflexivity.
  - lia.
  - constructor; [vm_compute; discriminate | constructor].
  - reflexivity.
  - reflexivity.
  - apply Nat.le_refl.
Defined.
